(** * Graph based neutrino reconstruction: a shallow embedding

    The notebook [neutrino_reco.ipynb] reconstructs the momentum of the
    neutrino of a semi-leptonic decay from the lepton four-momentum and the
    missing transverse energy.  Its functions are written once, over
    TensorFlow values, and are evaluated on scalars as well as on batches.
    The embedding keeps that shape: the functions are defined once over an
    interface of arithmetic operations and are then read at

    - IEEE-754 binary64 numbers (Rocq's primitive floats), for one event;
    - batches of such numbers, with broadcasting, for the batch evaluation;
    - dual numbers, for the gradient the optimizer asks for;
    - the real numbers, for the algebra behind the formulas.

    TensorFlow computes in binary32 by default.  The properties below that
    are stated for binary64 rest on the structure of IEEE arithmetic (what
    is NaN, how comparisons and selections treat NaN, which operations are
    exact), not on the width of the significand. *)

From Stdlib Require Import Bool List ZArith Lia Floats Reals Lra.
Import ListNotations.

Set Implicit Arguments.

(** ** The arithmetic interface *)

(** [T] is the type of values and [B] the type of the masks that
    comparisons return and [tf.where] consumes.  Python's integer literals
    enter through [lit]. *)
Class Arith (T B : Type) := {
  lit : Z -> T;
  add : T -> T -> T;
  sub : T -> T -> T;
  mul : T -> T -> T;
  div : T -> T -> T;
  neg : T -> T;
  sqrt : T -> T;
  abs : T -> T;
  leb : T -> T -> B;
  ltb : T -> T -> B;
  where_ : B -> T -> T -> T
}.

(** What IEEE arithmetic adds to the numbers: [np.inf] and
    [tf.math.is_nan]. *)
Class IEEE (T B : Type) := {
  inf : T;
  is_nan : T -> B
}.

(** Shapes.  [shape0 x] is [tf.shape(x)[0]], [take n v] is [v[:n]],
    [assign_prefix v n x] is the value of [v] after [v[:n].assign(x)] and
    [zeros_like] is [tf.zeros_like]. *)
Class Shaped (T : Type) := {
  shape0 : T -> nat;
  take : nat -> T -> T;
  assign_prefix : T -> nat -> T -> T;
  zeros_like : T -> T
}.

Declare Scope tf_scope.
Delimit Scope tf_scope with tf.
Notation "x + y" := (add x y) : tf_scope.
Notation "x - y" := (sub x y) : tf_scope.
Notation "x * y" := (mul x y) : tf_scope.
Notation "x / y" := (div x y) : tf_scope.
Notation "- x" := (neg x) : tf_scope.
Notation "x <= y" := (leb x y) : tf_scope.
Notation "x < y" := (ltb x y) : tf_scope.
Notation "x >= y" := (leb y x) : tf_scope.
Notation "x > y" := (ltb y x) : tf_scope.
Notation "'#' z" := (lit z%Z) (at level 1, format "'#' z") : tf_scope.

(** ** Kinematics and the analytic solver *)

Section Kinematics.
Context {T B : Type} {A : Arith T B}.
Local Open Scope tf_scope.

(** [x ** 2]; [x ** 0.5] is [sqrt]. *)
Definition sq (x : T) : T := x * x.

Definition calc_vy (vx lepx lepy mc sign : T) (save : bool) : T :=
  let s := sqrt (sq mc / #2 * (sq lepx + sq lepy) * (#2 * lepx * vx + sq mc / #2)) in
  let s := if save then where_ (s > #0) s #0 else s in
  (lepx * lepy * vx + lepy * sq mc / #2 + sign * s) / sq lepx.

Definition shift (vx vy metx mety : T) : T :=
  sq (metx - vx) + sq (mety - vy).

Definition get_k (lepx lepy vx vy mc : T) : T :=
  sq mc / #2 + lepx * vx + lepy * vy.

Definition get_pt (px py : T) : T :=
  sqrt (sq px + sq py).

Definition get_h (lepx lepy metx mety mc : T) : T :=
  let k := get_k lepx lepy metx mety mc in
  let leppt := get_pt lepx lepy in
  let metpt := get_pt metx mety in
  sq (leppt * metpt / k).

Definition neutrino_reco_real (lepe lepx lepy lepz vx vy mc : T) : T * T * T :=
  let k := get_k lepx lepy vx vy mc in
  let leppt := get_pt lepx lepy in
  let h := get_h lepx lepy vx vy mc in
  let vzp := k / sq leppt * (lepz + lepe * sqrt (#1 - h)) in
  let vzn := k / sq leppt * (lepz - lepe * sqrt (#1 - h)) in
  let vz := where_ (abs vzp <= abs vzn) vzp vzn in
  (vx, vy, vz).

(** The objective of the fit. *)
Definition opt (vx0 lepx lepy metx mety mc sign : T) : T :=
  let vy := calc_vy vx0 lepx lepy mc sign false in
  shift vx0 vy metx mety.

End Kinematics.

(** ** TensorFlow's gradient: dual numbers

    [optimizer.minimize(loss, var_list=[vx])] differentiates the loss with
    respect to [vx] and hands the gradient to the optimizer.  The loss is
    elementwise in [vx], so the gradient is the derivative of each entry;
    it is computed here by evaluating the same definitions on dual
    numbers. *)

Record dual (T : Type) := Dual { val : T; der : T }.

Section DualNumbers.
Context {T B : Type} {A : Arith T B}.
Local Open Scope tf_scope.

Definition const (c : T) : dual T := Dual c #0.

Definition variable (x : T) : dual T := Dual x #1.

Definition dual_add (a b : dual T) : dual T :=
  Dual (val a + val b) (der a + der b).

Definition dual_sub (a b : dual T) : dual T :=
  Dual (val a - val b) (der a - der b).

Definition dual_mul (a b : dual T) : dual T :=
  Dual (val a * val b) (der a * val b + val a * der b).

Definition dual_div (a b : dual T) : dual T :=
  Dual (val a / val b) (der a / val b - val a * der b / (val b * val b)).

Definition dual_neg (a : dual T) : dual T :=
  Dual (- val a) (- der a).

Definition dual_sqrt (a : dual T) : dual T :=
  let y := sqrt (val a) in Dual y (der a / (#2 * y)).

Definition dual_abs (a : dual T) : dual T :=
  Dual (abs (val a))
       (where_ (val a < #0) (- der a) (where_ (val a > #0) (der a) #0)).

Definition dual_where (c : B) (a b : dual T) : dual T :=
  Dual (where_ c (val a) (val b)) (where_ c (der a) (der b)).

#[export] Instance dual_arith : Arith (dual T) B := {|
  lit := fun z => const #z;
  add := dual_add;
  sub := dual_sub;
  mul := dual_mul;
  div := dual_div;
  neg := dual_neg;
  sqrt := dual_sqrt;
  abs := dual_abs;
  leb := fun a b => val a <= val b;
  ltb := fun a b => val a < val b;
  where_ := dual_where
|}.

End DualNumbers.

(** ** Optimizers

    A Keras optimizer is its variables (the step counter and the slots,
    which [reset_optimizer] overwrites with zeros) and the update it applies
    to a variable given a gradient. *)

Record Optimizer (T : Type) := {
  opt_variables : Type;
  opt_zeros : opt_variables -> opt_variables;
  apply_gradients : opt_variables -> T -> T -> opt_variables * T
}.

(** Adam, the optimizer the notebook configures, with the default
    hyperparameters of Keras: learning rate 0.001, beta_1 0.9, beta_2 0.999,
    epsilon 1e-7.  The update is TensorFlow's [ApplyAdam]. *)

Record adam_variables (T : Type) := {
  iterations : Z;
  adam_m : T;
  adam_v : T
}.

Section Adam.
Context {T B : Type} {A : Arith T B} {S : Shaped T}.
Local Open Scope tf_scope.

Definition learning_rate : T := #1 / #1000.
Definition beta_1 : T := #9 / #10.
Definition beta_2 : T := #999 / #1000.
Definition epsilon : T := #1 / #10000000.

Fixpoint pow_nat (b : T) (n : nat) : T :=
  match n with
  | O => #1
  | Datatypes.S n' => b * pow_nat b n'
  end.

Definition adam_apply (s : adam_variables T) (g var : T) : adam_variables T * T :=
  let t := Z.to_nat (iterations s + 1) in
  let lr_t := learning_rate * sqrt (#1 - pow_nat beta_2 t) / (#1 - pow_nat beta_1 t) in
  let m := adam_m s + (g - adam_m s) * (#1 - beta_1) in
  let v := adam_v s + (sq g - adam_v s) * (#1 - beta_2) in
  ({| iterations := iterations s + 1; adam_m := m; adam_v := v |},
   var - lr_t * m / (sqrt v + epsilon)).

Definition adam_zeros (s : adam_variables T) : adam_variables T :=
  {| iterations := 0;
     adam_m := zeros_like (adam_m s);
     adam_v := zeros_like (adam_v s) |}.

Definition Adam : Optimizer T :=
  {| opt_variables := adam_variables T;
     opt_zeros := adam_zeros;
     apply_gradients := adam_apply |}.

End Adam.

(** Stochastic gradient descent, the optimizer [tf.keras.optimizers.get]
    returns for [optimizer="SGD"], with the default hyperparameters of
    Keras: learning rate 0.01, no momentum.  Its only variable is the step
    counter; the update is TensorFlow's [ApplyGradientDescent]. *)

Section SGD.
Context {T B : Type} {A : Arith T B}.
Local Open Scope tf_scope.




End SGD.

(** ** The numeric solver, the combiner and the layer *)

Record Inputs (T : Type) := {
  c_lepe : T; c_lepx : T; c_lepy : T; c_lepz : T; c_metx : T; c_mety : T
}.

Section Solver.
Context {T B : Type} {A : Arith T B} {I : IEEE T B} {S : Shaped T}.
Variable O : Optimizer T.
Local Open Scope tf_scope.

(** [tf.minimum], [tf.maximum] (a NaN operand is returned) and
    [tf.clip_by_value], which is [maximum (minimum v hi) lo]. *)
Definition minimum (x y : T) : T :=
  where_ (is_nan x) x (where_ (is_nan y) y (where_ (y < x) y x)).

Definition maximum (x y : T) : T :=
  where_ (is_nan x) x (where_ (is_nan y) y (where_ (x < y) y x)).

Definition clip_by_value (v lo hi : T) : T :=
  maximum (minimum v hi) lo.

Definition vx_constrain (vx lepx mc : T) : T :=
  let constr_val := - (sq mc) / (#4 * lepx) in
  where_ (lepx >= #0)
         (clip_by_value vx constr_val inf)
         (clip_by_value vx (- inf) constr_val).

(** The gradient of a loss that reads the variable through [vx[:n]]: the
    derivative of each of the first [n] entries, zero elsewhere. *)
Definition gradient (loss : dual T -> dual T) (n : nat) (vx : T) : T :=
  assign_prefix (zeros_like vx) n (der (loss (variable (take n vx)))).

Definition minimize (ov : opt_variables O) (loss : dual T -> dual T)
    (n : nat) (vx : T) : opt_variables O * T :=
  apply_gradients O ov (gradient loss n vx) vx.

(** One turn of the loop of [optimize1]: the optimizer's step, then the
    projection of [vx[:batch_size]]. *)
Definition optimize_iter (metx mety lepx lepy mc sign : T)
    (st : opt_variables O * T) : opt_variables O * T :=
  let batch_size := shape0 metx in
  let loss := fun v : dual T =>
    opt v (const lepx) (const lepy) (const metx) (const mety) (const mc) (const sign) in
  let st' := minimize (fst st) loss batch_size (snd st) in
  (fst st',
   assign_prefix (snd st') batch_size
     (vx_constrain (take batch_size (snd st')) lepx mc)).

(** [optimize1] returns [vx[:batch_size]]; the optimizer's variables and
    [vx] are left as the loop made them. *)
Definition optimize1 (optimizer : opt_variables O) (vx metx mety lepx lepy mc sign : T)
    : T * (opt_variables O * T) :=
  let st := Nat.iter 100 (optimize_iter metx mety lepx lepy mc sign) (optimizer, vx) in
  (take (shape0 metx) (snd st), st).

Definition optimize2 (optimizer : opt_variables O) (vx metx mety lepx lepy mc sign : T)
    : T * (opt_variables O * T) :=
  let st := Nat.iter 100 (optimize_iter metx mety lepx lepy mc sign) (optimizer, vx) in
  (take (shape0 metx) (snd st), st).

(** What [neutrino_reco_complex] does with the two fitted values. *)
Definition select_branch (lepx lepy lepz metx mety mc vx1 vx2 : T) : T * T * T :=
  let constr_val := - (sq mc) / (#4 * lepx) in
  let vx1 := where_ (is_nan vx1) constr_val vx1 in
  let vx2 := where_ (is_nan vx2) constr_val vx2 in
  let vy1 := calc_vy vx1 lepx lepy mc #1 true in
  let vy2 := calc_vy vx2 lepx lepy mc #(-1) true in
  let diff1 := shift vx1 vy1 metx mety in
  let diff2 := shift vx2 vy2 metx mety in
  let vx := where_ (diff1 <= diff2) vx1 vx2 in
  let vy := where_ (diff1 <= diff2) vy1 vy2 in
  let k := get_k lepx lepy vx vy mc in
  let leppt := get_pt lepx lepy in
  let vz := k * lepz / sq leppt in
  (vx, vy, vz).

Definition neutrino_reco_complex (lepe lepx lepy lepz metx mety vx1 vx2 : T)
    (opt1 opt2 : opt_variables O) (mc : T)
    : (T * T * T) * ((opt_variables O * T) * (opt_variables O * T)) :=
  let r1 := optimize1 opt1 vx1 metx mety lepx lepy mc #1 in
  let r2 := optimize2 opt2 vx2 metx mety lepx lepy mc #(-1) in
  (select_branch lepx lepy lepz metx mety mc (fst r1) (fst r2), (snd r1, snd r2)).

(** The lepton mass and the mass constraint corrected for it. *)
Definition lepton_mass (lepe lepx lepy lepz : T) : T :=
  let lepm := sqrt (sq lepe - sq lepx - sq lepy - sq lepz) in
  where_ (is_nan lepm) (zeros_like lepm) lepm.

Definition effective_mc (lepe lepx lepy lepz mc : T) : T :=
  sqrt (sq mc - sq (lepton_mass lepe lepx lepy lepz)).

Definition neutrino_reco (lepe lepx lepy lepz metx mety vx1 vx2 : T)
    (opt1 opt2 : opt_variables O) (mc : T)
    : (T * T * T) * ((opt_variables O * T) * (opt_variables O * T)) :=
  let mc := effective_mc lepe lepx lepy lepz mc in
  let '(vx_real, vy_real, vz_real) :=
    neutrino_reco_real lepe lepx lepy lepz metx mety mc in
  let r := neutrino_reco_complex lepe lepx lepy lepz metx mety vx1 vx2 opt1 opt2 mc in
  let '(vx_complex, vy_complex, vz_complex) := fst r in
  let h := get_h lepx lepy metx mety mc in
  let vx := where_ (h <= #1) vx_real vx_complex in
  let vy := where_ (h <= #1) vy_real vy_complex in
  let vz := where_ (h <= #1) vz_real vz_complex in
  ((vx, vy, vz), snd r).

(** The layer: two optimizers, the two variables of the fit and the mass
    constraint. *)
Record NeutrinoReco := {
  opt1 : opt_variables O;
  opt2 : opt_variables O;
  vx1 : T;
  vx2 : T;
  mass_constraint : T
}.

Definition reset_optimizer (self : NeutrinoReco) : NeutrinoReco :=
  {| opt1 := opt_zeros O (opt1 self);
     opt2 := opt_zeros O (opt2 self);
     vx1 := vx1 self;
     vx2 := vx2 self;
     mass_constraint := mass_constraint self |}.

(** [call] fails when the batch is larger than the variables: the slices
    [vx1[:n]] and [vx2[:n]] are then shorter than [metx] and cannot be
    assigned. *)
Definition call (self : NeutrinoReco) (inputs : Inputs T)
    : option ((T * T * T) * NeutrinoReco) :=
  let self := reset_optimizer self in
  let n := shape0 (c_metx inputs) in
  if (n <=? shape0 (vx1 self))%nat && (n <=? shape0 (vx2 self))%nat then
    let v1 := assign_prefix (vx1 self) n (c_metx inputs) in
    let v2 := assign_prefix (vx2 self) n (c_metx inputs) in
    let r := neutrino_reco (c_lepe inputs) (c_lepx inputs) (c_lepy inputs)
               (c_lepz inputs) (c_metx inputs) (c_mety inputs)
               v1 v2 (opt1 self) (opt2 self) (mass_constraint self) in
    Some (fst r,
          {| opt1 := fst (fst (snd r));
             opt2 := fst (snd (snd r));
             vx1 := snd (fst (snd r));
             vx2 := snd (snd (snd r));
             mass_constraint := mass_constraint self |})
  else None.

End Solver.

Arguments Dual {T} val der.
Arguments val {T} d.
Arguments der {T} d.
Arguments Build_Inputs {T} c_lepe c_lepx c_lepy c_lepz c_metx c_mety.
Arguments Build_adam_variables {T} iterations adam_m adam_v.

(** ** Binary64 numbers: one event *)

Definition float_of_Z (z : Z) : float :=
  match z with
  | Z0 => PrimFloat.zero
  | Zpos _ => PrimFloat.of_uint63 (Uint63.of_Z z)
  | Zneg p => PrimFloat.opp (PrimFloat.of_uint63 (Uint63.of_Z (Zpos p)))
  end.

#[export] Instance float_arith : Arith float bool := {|
  lit := float_of_Z;
  add := PrimFloat.add;
  sub := PrimFloat.sub;
  mul := PrimFloat.mul;
  div := PrimFloat.div;
  neg := PrimFloat.opp;
  sqrt := PrimFloat.sqrt;
  abs := PrimFloat.abs;
  leb := PrimFloat.leb;
  ltb := PrimFloat.ltb;
  where_ := fun (c : bool) x y => if c then x else y
|}.

#[export] Instance float_ieee : IEEE float bool := {|
  inf := PrimFloat.infinity;
  is_nan := PrimFloat.is_nan
|}.

(** A number is read as a batch of one event. *)
#[export] Instance float_shaped : Shaped float := {|
  shape0 := fun _ => 1%nat;
  take := fun _ x => x;
  assign_prefix := fun _ _ x => x;
  zeros_like := fun _ => PrimFloat.zero
|}.

(** ** Real numbers: the formulas without rounding *)

#[export] Instance real_arith : Arith R bool := {|
  lit := IZR;
  add := Rplus;
  sub := Rminus;
  mul := Rmult;
  div := Rdiv;
  neg := Ropp;
  sqrt := R_sqrt.sqrt;
  abs := Rabs;
  leb := fun x y => if Rle_dec x y then true else false;
  ltb := fun x y => if Rlt_dec x y then true else false;
  where_ := fun (c : bool) x y => if c then x else y
|}.

(** ** Batches

    A tensor is a scalar, which broadcasts, or a vector with one entry per
    event.  Every operation of the notebook acts entry by entry. *)

Inductive tensor (A : Type) : Type :=
| Scalar (x : A)
| Vec (l : list A).

Arguments Scalar {A} x.
Arguments Vec {A} l.

Fixpoint zip_with {A B C : Type} (f : A -> B -> C) (l1 : list A) (l2 : list B) : list C :=
  match l1, l2 with
  | x :: l1', y :: l2' => f x y :: zip_with f l1' l2'
  | _, _ => []
  end.

Definition ap {A B : Type} (tf : tensor (A -> B)) (tx : tensor A) : tensor B :=
  match tf, tx with
  | Scalar f, Scalar x => Scalar (f x)
  | Scalar f, Vec l => Vec (map f l)
  | Vec fs, Scalar x => Vec (map (fun f => f x) fs)
  | Vec fs, Vec l => Vec (zip_with (fun f x => f x) fs l)
  end.

Definition lift1 {A B : Type} (f : A -> B) (a : tensor A) : tensor B :=
  ap (Scalar f) a.

Definition lift2 {A B C : Type} (f : A -> B -> C) (a : tensor A) (b : tensor B) : tensor C :=
  ap (ap (Scalar f) a) b.

Definition lift3 {A B C D : Type} (f : A -> B -> C -> D)
    (a : tensor A) (b : tensor B) (c : tensor C) : tensor D :=
  ap (ap (ap (Scalar f) a) b) c.

(** The entry of event [i]. *)
Definition get {A : Type} (i : nat) (t : tensor A) : option A :=
  match t with
  | Scalar x => Some x
  | Vec l => nth_error l i
  end.

Definition tensor_take {A : Type} (n : nat) (t : tensor A) : tensor A :=
  match t with
  | Scalar x => Scalar x
  | Vec l => Vec (firstn n l)
  end.

Definition tensor_assign_prefix {A : Type} (v : tensor A) (n : nat) (x : tensor A) : tensor A :=
  match v, x with
  | Vec lv, Vec lx => Vec (firstn n lx ++ skipn n lv)
  | Vec lv, Scalar c => Vec (repeat c (Nat.min n (length lv)) ++ skipn n lv)
  | Scalar _, _ => x
  end.

Definition tensor_shape0 {A : Type} (t : tensor A) : nat :=
  match t with
  | Scalar _ => 1%nat
  | Vec l => length l
  end.

Section Batches.
Context {T B : Type} {A : Arith T B} {I : IEEE T B}.

#[export] Instance tensor_arith : Arith (tensor T) (tensor B) := {|
  lit := fun z => Scalar (lit z);
  add := lift2 add;
  sub := lift2 sub;
  mul := lift2 mul;
  div := lift2 div;
  neg := lift1 neg;
  sqrt := lift1 sqrt;
  abs := lift1 abs;
  leb := lift2 leb;
  ltb := lift2 ltb;
  where_ := lift3 where_
|}.

#[export] Instance tensor_ieee : IEEE (tensor T) (tensor B) := {|
  inf := Scalar inf;
  is_nan := lift1 is_nan
|}.

End Batches.

#[export] Instance tensor_shaped {T B : Type} {A : Arith T B} : Shaped (tensor T) := {|
  shape0 := tensor_shape0;
  take := tensor_take;
  assign_prefix := tensor_assign_prefix;
  zeros_like := lift1 (fun _ => lit 0)
|}.

(** The columns of an [(N, 6)] array of events. *)
Definition columns {T : Type} (events : list (Inputs T)) : Inputs (tensor T) :=
  {| c_lepe := Vec (map (@c_lepe T) events);
     c_lepx := Vec (map (@c_lepx T) events);
     c_lepy := Vec (map (@c_lepy T) events);
     c_lepz := Vec (map (@c_lepz T) events);
     c_metx := Vec (map (@c_metx T) events);
     c_mety := Vec (map (@c_mety T) events) |}.

(** [build]: two variables of [batch_size] entries, and optimizers whose
    slots have the shape of their variable. *)
Definition build {T B : Type} {A : Arith T B} (mass_constraint : T)
    (init1 init2 : list T) : NeutrinoReco (Adam (T:=tensor T)) :=
  let zeros := fun l : list T => Vec (map (fun _ => lit 0) l) in
  Build_NeutrinoReco (Adam (T:=tensor T))
    (Build_adam_variables 0 (zeros init1) (zeros init1))
    (Build_adam_variables 0 (zeros init2) (zeros init2))
    (Vec init1) (Vec init2) (Scalar mass_constraint).

(** ** Relating two readings of the notebook

    The same definitions are read at batches and at single numbers.  A
    relation between the values of two readings that every operation of
    the interface respects is respected by everything defined from the
    interface. *)

Section Related.
Context {T1 B1 T2 B2 : Type}.
Variable RT : T1 -> T2 -> Prop.
Variable RB : B1 -> B2 -> Prop.

Record ArithRel (A1 : Arith T1 B1) (A2 : Arith T2 B2) : Prop := {
  rel_lit : forall z, RT (lit z) (lit z);
  rel_add : forall a x b y, RT a x -> RT b y -> RT (add a b) (add x y);
  rel_sub : forall a x b y, RT a x -> RT b y -> RT (sub a b) (sub x y);
  rel_mul : forall a x b y, RT a x -> RT b y -> RT (mul a b) (mul x y);
  rel_div : forall a x b y, RT a x -> RT b y -> RT (div a b) (div x y);
  rel_neg : forall a x, RT a x -> RT (neg a) (neg x);
  rel_sqrt : forall a x, RT a x -> RT (sqrt a) (sqrt x);
  rel_abs : forall a x, RT a x -> RT (abs a) (abs x);
  rel_leb : forall a x b y, RT a x -> RT b y -> RB (leb a b) (leb x y);
  rel_ltb : forall a x b y, RT a x -> RT b y -> RB (ltb a b) (ltb x y);
  rel_where : forall c d a x b y,
    RB c d -> RT a x -> RT b y -> RT (where_ c a b) (where_ d x y)
}.

Record IEEERel (I1 : IEEE T1 B1) (I2 : IEEE T2 B2) : Prop := {
  rel_inf : RT inf inf;
  rel_is_nan : forall a x, RT a x -> RB (is_nan a) (is_nan x)
}.

(** [Rn n] says that the slice [[:n]] of the first reading holds the
    entry the relation looks at. *)
Record ShapedRel (Rn : nat -> Prop) (S1 : Shaped T1) (S2 : Shaped T2) : Prop := {
  rel_take : forall n n' v x, Rn n -> RT v x -> RT (take n v) (take n' x);
  rel_assign_prefix : forall n n' v x w y,
    Rn n -> RT v x -> RT w y -> RT (assign_prefix v n w) (assign_prefix x n' y);
  rel_zeros_like : forall v x, RT v x -> RT (zeros_like v) (zeros_like x)
}.

Definition dual_rel (a : dual T1) (x : dual T2) : Prop :=
  RT (val a) (val x) /\ RT (der a) (der x).

Definition adam_rel (s1 : adam_variables T1) (s2 : adam_variables T2) : Prop :=
  iterations s1 = iterations s2 /\
  RT (adam_m s1) (adam_m s2) /\ RT (adam_v s1) (adam_v s2).

Definition triple_rel (a : T1 * T1 * T1) (x : T2 * T2 * T2) : Prop :=
  RT (fst (fst a)) (fst (fst x)) /\ RT (snd (fst a)) (snd (fst x)) /\ RT (snd a) (snd x).

End Related.

(** The relation of a batch to its event [i]. *)
Definition at_event {A : Type} (i : nat) (t : tensor A) (x : A) : Prop :=
  get i t = Some x.

(** The triple of event [i] in the three outputs. *)
Definition get3 {A : Type} (i : nat) (out : tensor A * tensor A * tensor A)
    : option (A * A * A) :=
  match get i (fst (fst out)), get i (snd (fst out)), get i (snd out) with
  | Some x, Some y, Some z => Some (x, y, z)
  | _, _, _ => None
  end.

(** A tensor that has an entry for each of the first [n] events. *)
Definition covers {A : Type} (n : nat) (t : tensor A) : Prop :=
  forall i, (i < n)%nat -> exists x, get i t = Some x.

(** A vector, and a vector of at most [n] entries. *)
Definition is_vec {A : Type} (t : tensor A) : Prop :=
  exists l, t = Vec l.

Definition vec_at_most {A : Type} (n : nat) (t : tensor A) : Prop :=
  exists l, t = Vec l /\ (length l <= n)%nat.

(** The slots of both optimizers have entries for the first [n] events. *)
Definition slots_cover (n : nat) (L : NeutrinoReco (Adam (T:=tensor float))) : Prop :=
  covers n (adam_m (opt1 L)) /\ covers n (adam_v (opt1 L)) /\
  covers n (adam_m (opt2 L)) /\ covers n (adam_v (opt2 L)).

(** ** Vocabulary of the properties *)

(** The mass constraint of the notebook, 80.4. *)
Definition W_mass : float := 0x1.419999999999ap+6%float.

(** The event of the notebook. *)
Definition example_event : Inputs float :=
  Build_Inputs 35%float (-34)%float (-1)%float (-6)%float (-63)%float (-72)%float.

(** An optimizer as [reset_optimizer] leaves it. *)
Definition adam_fresh : adam_variables float :=
  Build_adam_variables 0 0%float 0%float.

(** One event, as [call] evaluates it: both fits start at [metx] with
    zeroed optimizers. *)
Definition event_reco (mc : float) (ev : Inputs float) : float * float * float :=
  fst (neutrino_reco (Adam (T:=float))
         (c_lepe ev) (c_lepx ev) (c_lepy ev) (c_lepz ev) (c_metx ev) (c_mety ev)
         (c_metx ev) (c_metx ev) adam_fresh adam_fresh mc).

(** The corrected mass constraint, the discriminant and the triples of
    the two solvers for one event. *)
Definition event_mc (mc : float) (ev : Inputs float) : float :=
  effective_mc (c_lepe ev) (c_lepx ev) (c_lepy ev) (c_lepz ev) mc.

Definition event_h (mc : float) (ev : Inputs float) : float :=
  get_h (c_lepx ev) (c_lepy ev) (c_metx ev) (c_mety ev) (event_mc mc ev).

Definition analytic_triple (mc : float) (ev : Inputs float) : float * float * float :=
  neutrino_reco_real (c_lepe ev) (c_lepx ev) (c_lepy ev) (c_lepz ev)
    (c_metx ev) (c_mety ev) (event_mc mc ev).

Definition numeric_triple (mc : float) (ev : Inputs float) : float * float * float :=
  fst (neutrino_reco_complex (Adam (T:=float))
         (c_lepe ev) (c_lepx ev) (c_lepy ev) (c_lepz ev) (c_metx ev) (c_mety ev)
         (c_metx ev) (c_metx ev) adam_fresh adam_fresh (event_mc mc ev)).

(** The outputs of a batch, event by event. *)
Definition batch_outputs (mc : float) (events : list (Inputs float))
    : tensor float * tensor float * tensor float :=
  (Vec (map (fun ev => fst (fst (event_reco mc ev))) events),
   Vec (map (fun ev => snd (fst (event_reco mc ev))) events),
   Vec (map (fun ev => snd (event_reco mc ev)) events)).

(** The boundary of the fit and the half-line the projection keeps:
    [constr_val, +inf) for [lepx >= 0] and (-inf, constr_val] otherwise. *)
Definition boundary (lepx mc : float) : float :=
  (- (sq mc) / (#4 * lepx))%tf.

Definition in_half_line (lepx mc vx : float) : bool :=
  if PrimFloat.leb 0 lepx
  then PrimFloat.leb (boundary lepx mc) vx
  else PrimFloat.leb vx (boundary lepx mc).

(** The two roots of the analytic solver,
    (k / leppt^2) * (lepz +- lepe * sqrt (1 - h)). *)
Definition vz_plus (lepe lepx lepy lepz vx vy mc : float) : float :=
  (get_k lepx lepy vx vy mc / sq (get_pt lepx lepy)
   * (lepz + lepe * sqrt (#1 - get_h lepx lepy vx vy mc)))%tf.

Definition vz_minus (lepe lepx lepy lepz vx vy mc : float) : float :=
  (get_k lepx lepy vx vy mc / sq (get_pt lepx lepy)
   * (lepz - lepe * sqrt (#1 - get_h lepx lepy vx vy mc)))%tf.

(** A fitted value after the failed optimizations are caught, the [vy] of
    its sign branch and the residual of the branch against the MET. *)
Definition caught (lepx mc vx : float) : float :=
  if PrimFloat.is_nan vx then boundary lepx mc else vx.

Definition branch_vy (lepx lepy mc sign vx : float) : float :=
  calc_vy (caught lepx mc vx) lepx lepy mc sign true.

Definition residual (lepx lepy metx mety mc sign vx : float) : float :=
  shift (caught lepx mc vx) (branch_vy lepx lepy mc sign vx) metx mety.

(** A layer whose variables and slots hold [n] events, with mass
    constraint [mc]. *)
Definition ready (n : nat) (mc : float) (L : NeutrinoReco (Adam (T:=tensor float))) : Prop :=
  mass_constraint L = Scalar mc /\ slots_cover n L /\
  (n <= shape0 (vx1 L))%nat /\ (n <= shape0 (vx2 L))%nat.

(** Events used as examples: a lepton heavier than the mass constraint, and
    an event whose MET lies outside the half-line of the fit. *)
Definition heavy_event : Inputs float :=
  Build_Inputs 100%float 3%float 4%float 0%float 10%float 20%float.

Definition outside_event : Inputs float :=
  Build_Inputs 35%float 34%float (-1)%float (-6)%float (-63)%float (-72)%float.

Definition example_batch : list (Inputs float) :=
  [example_event; heavy_event; outside_event].

Definition example_layer : NeutrinoReco (Adam (T:=tensor float)) :=
  build W_mass [7%float; 7%float; 7%float; 7%float] [7%float; 7%float; 7%float; 7%float].

(** ** Vocabulary of the further properties *)

(** The radicand of [calc_vy]. *)
Definition radicand {T B : Type} {A : Arith T B} (vx lepx lepy mc : T) : T :=
  (sq mc / #2 * (sq lepx + sq lepy) * (#2 * lepx * vx + sq mc / #2))%tf.

(** A dual number whose value and derivative are NaN, and a state of the
    loop of [optimize1] whose first moment and variable are NaN. *)
Definition dual_nan (d : dual float) : Prop := val d = nan /\ der d = nan.

Definition lost (st : adam_variables float * float) : Prop :=
  adam_m (fst st) = nan /\ snd st = nan.

(** Shapes of tensors: a scalar or a vector of [n] entries, and a vector
    of [b] entries. *)
Definition fits {A : Type} (n : nat) (t : tensor A) : Prop :=
  match t with
  | Scalar _ => True
  | Vec l => length l = n
  end.

Definition has_length {A : Type} (b : nat) (t : tensor A) : Prop :=
  exists l, t = Vec l /\ length l = b.

(** A layer as [build] makes it for [batch_size = b]: the variables and
    the slots of both optimizers have [b] entries. *)
Definition well_formed (b : nat) (mc : float) (L : NeutrinoReco (Adam (T:=tensor float))) : Prop :=
  mass_constraint L = Scalar mc /\
  has_length b (vx1 L) /\ has_length b (vx2 L) /\
  has_length b (adam_m (opt1 L)) /\ has_length b (adam_v (opt1 L)) /\
  has_length b (adam_m (opt2 L)) /\ has_length b (adam_v (opt2 L)).

Definition shaped_state (b : nat) (st : adam_variables (tensor float) * tensor float) : Prop :=
  has_length b (adam_m (fst st)) /\ has_length b (adam_v (fst st)) /\ has_length b (snd st).

(** The entry [j] of a state of the loop, beyond the batch, after [i]
    turns: zero slots, and [x] in the variable. *)
Definition idle_at (j : nat) (i : nat) (x : float)
    (st : adam_variables (tensor float) * tensor float) : Prop :=
  iterations (fst st) = Z.of_nat i /\
  get j (adam_m (fst st)) = Some 0%float /\ get j (adam_v (fst st)) = Some 0%float /\
  get j (snd st) = Some x.

(** The zero of positive sign. *)
Definition is_pos_zero (f : float) : bool :=
  match Prim2SF f with
  | S754_zero false => true
  | _ => false
  end.

(** The layer called on one batch after the other, as [model.predict] is
    in the last cells of the notebook. *)
Fixpoint run_calls (L : NeutrinoReco (Adam (T:=tensor float)))
    (batches : list (list (Inputs float)))
    : option (list (tensor float * tensor float * tensor float)
              * NeutrinoReco (Adam (T:=tensor float))) :=
  match batches with
  | [] => Some ([], L)
  | events :: rest =>
      match call L (columns events) with
      | None => None
      | Some (out, L') =>
          match run_calls L' rest with
          | None => None
          | Some (outs, L'') => Some (out :: outs, L'')
          end
      end
  end.

(** A real number is read as a batch of one event, as a binary64 number
    is. *)
#[export] Instance real_shaped : Shaped R := {|
  shape0 := fun _ => 1%nat;
  take := fun _ x => x;
  assign_prefix := fun _ _ x => x;
  zeros_like := fun _ => 0%R
|}.

(** A dual-valued expression in the variable whose derivative part is the
    derivative of its value part at [x]. *)
Definition sound (d : R -> dual R) (x : R) : Prop :=
  derivable_pt_lim (fun v => val (d v)) x (der (d x)).

(** * Properties *)

(** ** Facts about binary64 arithmetic *)

Section FloatFacts.
Local Open Scope float_scope.

Lemma SFcompare_antisym (x y : spec_float) :
  SFcompare y x = option_map CompOpp (SFcompare x y).
Proof.
  destruct x as [s|s| |s m e], y as [s'|s'| |s' m' e']; simpl; try reflexivity;
    try (destruct s; reflexivity); try (destruct s'; reflexivity);
    try (destruct s, s'; reflexivity).
  pose proof (Pos.compare_cont_antisym m m' Eq) as H; simpl in H.
  destruct s, s'; simpl; try reflexivity;
    rewrite (Z.compare_antisym e e'); destruct (e ?= e')%Z; simpl; try reflexivity;
    rewrite <- H; destruct (Pos.compare_cont Eq m m'); reflexivity.
Qed.

Lemma SFcompare_None (x y : spec_float) :
  SFcompare x y = None <-> x = S754_nan \/ y = S754_nan.
Proof.
  split.
  - destruct x as [s|s| |s m e], y as [s'|s'| |s' m' e']; simpl; auto; discriminate.
  - intros [-> | ->]; [reflexivity | destruct x; reflexivity].
Qed.

Lemma SFcompare_refl (x : spec_float) :
  x <> S754_nan -> SFcompare x x = Some Eq.
Proof.
  destruct x as [s|s| |s m e]; simpl; intros H; try congruence.
  - destruct s; reflexivity.
  - destruct s; rewrite Z.compare_refl, Pos.compare_cont_refl; reflexivity.
Qed.

Lemma is_nan_Prim2SF (x : float) :
  PrimFloat.is_nan x = true <-> Prim2SF x = S754_nan.
Proof.
  unfold PrimFloat.is_nan. rewrite eqb_spec. unfold SFeqb. split.
  - intros H. destruct (Prim2SF x) eqn:E; try reflexivity;
      rewrite SFcompare_refl in H by discriminate; discriminate.
  - intros ->. reflexivity.
Qed.

Lemma is_nan_eq (x : float) : PrimFloat.is_nan x = true -> x = nan.
Proof.
  intros H. apply Prim2SF_inj. apply is_nan_Prim2SF in H. rewrite H. reflexivity.
Qed.

Lemma not_nan_Prim2SF (x : float) :
  PrimFloat.is_nan x = false <-> Prim2SF x <> S754_nan.
Proof.
  rewrite <- is_nan_Prim2SF. destruct (PrimFloat.is_nan x); split; congruence.
Qed.

(** On numbers the order is total. *)
Lemma ltb_false_leb (x y : float) :
  PrimFloat.is_nan x = false -> PrimFloat.is_nan y = false ->
  (x <? y) = false -> (y <=? x) = true.
Proof.
  rewrite !not_nan_Prim2SF, ltb_spec, leb_spec. unfold SFltb, SFleb.
  intros Hx Hy. rewrite (SFcompare_antisym (Prim2SF x) (Prim2SF y)).
  destruct (SFcompare (Prim2SF x) (Prim2SF y)) as [[]|] eqn:E; simpl; try congruence.
  apply SFcompare_None in E. tauto.
Qed.

Lemma leb_ltb_false (x y : float) : (x <=? y) = true -> (y <? x) = false.
Proof.
  rewrite ltb_spec, leb_spec. unfold SFltb, SFleb.
  rewrite (SFcompare_antisym (Prim2SF x) (Prim2SF y)).
  destruct (SFcompare (Prim2SF x) (Prim2SF y)) as [[]|]; simpl; congruence.
Qed.

Lemma ltb_leb (x y : float) : (x <? y) = true -> (x <=? y) = true.
Proof.
  rewrite ltb_spec, leb_spec. unfold SFltb, SFleb.
  destruct (SFcompare (Prim2SF x) (Prim2SF y)) as [[]|]; simpl; congruence.
Qed.

Lemma eqb_leb (x y : float) : (x =? y) = true -> (x <=? y) = true.
Proof.
  rewrite eqb_spec, leb_spec. unfold SFeqb, SFleb.
  destruct (SFcompare (Prim2SF x) (Prim2SF y)) as [[]|]; simpl; congruence.
Qed.

Lemma leb_refl (x : float) : PrimFloat.is_nan x = false -> (x <=? x) = true.
Proof.
  rewrite not_nan_Prim2SF, leb_spec. unfold SFleb. intros H.
  rewrite SFcompare_refl by assumption. reflexivity.
Qed.

Lemma leb_not_nan (x y : float) :
  (x <=? y) = true -> PrimFloat.is_nan x = false /\ PrimFloat.is_nan y = false.
Proof.
  rewrite !not_nan_Prim2SF, leb_spec. unfold SFleb.
  destruct (SFcompare (Prim2SF x) (Prim2SF y)) as [c|] eqn:E; try discriminate.
  intros _. split; intros H; rewrite H in E;
    [ | destruct (Prim2SF x) ]; discriminate.
Qed.

Lemma ltb_not_nan (x y : float) :
  (x <? y) = true -> PrimFloat.is_nan x = false /\ PrimFloat.is_nan y = false.
Proof. intros H. apply leb_not_nan, ltb_leb, H. Qed.

(** Not [x <= y] means [y < x] or one of them is NaN. *)
Lemma leb_false_iff (x y : float) :
  (x <=? y) = false <->
  (y <? x) = true \/ PrimFloat.is_nan x = true \/ PrimFloat.is_nan y = true.
Proof.
  split.
  - intros H. destruct (PrimFloat.is_nan x) eqn:Hx; auto.
    destruct (PrimFloat.is_nan y) eqn:Hy; auto.
    destruct (y <? x) eqn:L; auto.
    rewrite (ltb_false_leb Hy Hx L) in H. discriminate.
  - intros [H | [H | H]].
    + destruct (x <=? y) eqn:L; auto. rewrite (leb_ltb_false L) in H. discriminate.
    + destruct (x <=? y) eqn:L; auto. apply leb_not_nan in L. destruct L; congruence.
    + destruct (x <=? y) eqn:L; auto. apply leb_not_nan in L. destruct L; congruence.
Qed.

Lemma leb_infinity (x : float) :
  PrimFloat.is_nan x = false -> (x <=? infinity) = true.
Proof.
  rewrite not_nan_Prim2SF, leb_spec. unfold SFleb.
  change (Prim2SF infinity) with (S754_infinity false).
  destruct (Prim2SF x) as [s|s| |s m e]; simpl; try congruence; destruct s; reflexivity.
Qed.

Lemma neg_infinity_leb (x : float) :
  PrimFloat.is_nan x = false -> (neg_infinity <=? x) = true.
Proof.
  rewrite not_nan_Prim2SF, leb_spec. unfold SFleb.
  change (Prim2SF neg_infinity) with (S754_infinity true).
  destruct (Prim2SF x) as [s|s| |s m e]; simpl; try congruence; destruct s; reflexivity.
Qed.

(** NaN goes through every operation. *)
Lemma add_nan_l (x : float) : nan + x = nan.
Proof.
  apply Prim2SF_inj. rewrite add_spec. change (Prim2SF nan) with S754_nan.
  destruct (Prim2SF x); reflexivity.
Qed.

Lemma add_nan_r (x : float) : x + nan = nan.
Proof.
  apply Prim2SF_inj. rewrite add_spec. change (Prim2SF nan) with S754_nan.
  destruct (Prim2SF x); reflexivity.
Qed.

Lemma sub_nan_l (x : float) : nan - x = nan.
Proof.
  apply Prim2SF_inj. rewrite sub_spec. change (Prim2SF nan) with S754_nan.
  destruct (Prim2SF x); reflexivity.
Qed.

Lemma sub_nan_r (x : float) : x - nan = nan.
Proof.
  apply Prim2SF_inj. rewrite sub_spec. change (Prim2SF nan) with S754_nan.
  destruct (Prim2SF x); reflexivity.
Qed.

Lemma mul_nan_l (x : float) : nan * x = nan.
Proof.
  apply Prim2SF_inj. rewrite mul_spec. change (Prim2SF nan) with S754_nan.
  destruct (Prim2SF x); reflexivity.
Qed.

Lemma mul_nan_r (x : float) : x * nan = nan.
Proof.
  apply Prim2SF_inj. rewrite mul_spec. change (Prim2SF nan) with S754_nan.
  destruct (Prim2SF x); reflexivity.
Qed.

Lemma div_nan_l (x : float) : nan / x = nan.
Proof.
  apply Prim2SF_inj. rewrite div_spec. change (Prim2SF nan) with S754_nan.
  destruct (Prim2SF x); reflexivity.
Qed.

Lemma div_nan_r (x : float) : x / nan = nan.
Proof.
  apply Prim2SF_inj. rewrite div_spec. change (Prim2SF nan) with S754_nan.
  destruct (Prim2SF x); reflexivity.
Qed.

Lemma leb_nan_l (x : float) : (nan <=? x) = false.
Proof. rewrite leb_spec. reflexivity. Qed.

Lemma leb_nan_r (x : float) : (x <=? nan) = false.
Proof.
  rewrite leb_spec. change (Prim2SF nan) with S754_nan.
  unfold SFleb. destruct (Prim2SF x); reflexivity.
Qed.

Lemma ltb_nan_l (x : float) : (nan <? x) = false.
Proof. rewrite ltb_spec. reflexivity. Qed.

Lemma ltb_nan_r (x : float) : (x <? nan) = false.
Proof.
  rewrite ltb_spec. change (Prim2SF nan) with S754_nan.
  unfold SFltb. destruct (Prim2SF x); reflexivity.
Qed.

(** The square root is NaN below zero and is never negative. *)
Lemma binary_round_aux_nonneg (mx ex : Z) (lx : location) :
  binary_round_aux prec emax false mx ex lx = S754_nan \/
  SFleb (S754_zero false) (binary_round_aux prec emax false mx ex lx) = true.
Proof.
  unfold binary_round_aux.
  destruct (shr_fexp prec emax mx ex lx) as [mrs' e'].
  destruct (shr_fexp prec emax _ e' loc_Exact) as [mrs'' e''].
  destruct (shr_m mrs''); auto.
  destruct (e'' <=? emax - prec)%Z; auto.
Qed.

Lemma sqrt_nonneg (x : float) :
  PrimFloat.is_nan (PrimFloat.sqrt x) = false -> (0 <=? PrimFloat.sqrt x) = true.
Proof.
  rewrite not_nan_Prim2SF, leb_spec, sqrt_spec.
  change (Prim2SF 0) with (S754_zero false). unfold SF64sqrt, SFsqrt.
  destruct (Prim2SF x) as [s|s| |s m e]; try congruence.
  - intros _. reflexivity.
  - destruct s; [congruence | reflexivity].
  - destruct s; [congruence | ].
    destruct (SFsqrt_core_binary prec emax (Z.pos m) e) as [[mz ez] lz].
    intros H. destruct (binary_round_aux_nonneg mz ez lz); [contradiction | assumption].
Qed.

Lemma sqrt_negative (x : float) : (x <? 0) = true -> PrimFloat.sqrt x = nan.
Proof.
  rewrite ltb_spec. change (Prim2SF 0) with (S754_zero false). intros H.
  apply Prim2SF_inj. rewrite sqrt_spec. unfold SF64sqrt, SFsqrt.
  destruct (Prim2SF x) as [s|s| |s m e]; try reflexivity; try discriminate;
    destruct s; try reflexivity; discriminate.
Qed.

Lemma sqrt_nan : PrimFloat.sqrt nan = nan.
Proof. reflexivity. Qed.

Lemma opp_nan : (- nan) = nan.
Proof. reflexivity. Qed.

End FloatFacts.

(** Rewriting a NaN through an expression. *)
Ltac nan_simpl :=
  cbn [add sub mul div neg sqrt abs leb ltb where_ is_nan float_arith float_ieee];
  repeat first
    [ rewrite mul_nan_l | rewrite mul_nan_r | rewrite add_nan_l | rewrite add_nan_r
    | rewrite sub_nan_l | rewrite sub_nan_r | rewrite div_nan_l | rewrite div_nan_r
    | rewrite sqrt_nan | rewrite opp_nan
    | rewrite leb_nan_l | rewrite leb_nan_r | rewrite ltb_nan_l | rewrite ltb_nan_r ].

(** ** The combiner and the layer, spelled out *)

Section SolverShape.
Context {T B : Type} {A : Arith T B} {I : IEEE T B} {S : Shaped T}.
Variable O : Optimizer T.
Local Open Scope tf_scope.

(** The outputs and the final state of the combiner, spelled out. *)
Lemma neutrino_reco_unfold (lepe lepx lepy lepz metx mety vx1 vx2 : T)
    (o1 o2 : opt_variables O) (mc : T) :
  let m := effective_mc lepe lepx lepy lepz mc in
  let h := get_h lepx lepy metx mety m in
  let real := neutrino_reco_real lepe lepx lepy lepz metx mety m in
  let r := neutrino_reco_complex O lepe lepx lepy lepz metx mety vx1 vx2 o1 o2 m in
  neutrino_reco O lepe lepx lepy lepz metx mety vx1 vx2 o1 o2 mc =
  ((where_ (h <= #1) metx (fst (fst (fst r))),
    where_ (h <= #1) mety (snd (fst (fst r))),
    where_ (h <= #1) (snd real) (snd (fst r))),
   snd r).
Proof.
  intros m h real r. unfold neutrino_reco. fold m. fold h. fold r.
  subst real. unfold neutrino_reco_real at 1. cbv zeta.
  generalize r. intros [[[a b] c] st]. reflexivity.
Qed.

Lemma optimize1_unfold (o : opt_variables O) (vx metx mety lepx lepy mc sign : T) :
  optimize1 O o vx metx mety lepx lepy mc sign =
  (take (shape0 metx)
     (snd (Nat.iter 100 (optimize_iter O metx mety lepx lepy mc sign) (o, vx))),
   Nat.iter 100 (optimize_iter O metx mety lepx lepy mc sign) (o, vx)).
Proof. reflexivity. Qed.

Lemma optimize2_unfold (o : opt_variables O) (vx metx mety lepx lepy mc sign : T) :
  optimize2 O o vx metx mety lepx lepy mc sign =
  (take (shape0 metx)
     (snd (Nat.iter 100 (optimize_iter O metx mety lepx lepy mc sign) (o, vx))),
   Nat.iter 100 (optimize_iter O metx mety lepx lepy mc sign) (o, vx)).
Proof. reflexivity. Qed.

Lemma neutrino_reco_real_vz (lepe lepx lepy lepz vx vy mc : T) :
  snd (neutrino_reco_real lepe lepx lepy lepz vx vy mc) =
  let k := get_k lepx lepy vx vy mc in
  let leppt := get_pt lepx lepy in
  let h := get_h lepx lepy vx vy mc in
  let vzp := k / sq leppt * (lepz + lepe * sqrt (#1 - h)) in
  let vzn := k / sq leppt * (lepz - lepe * sqrt (#1 - h)) in
  where_ (abs vzp <= abs vzn) vzp vzn.
Proof. reflexivity. Qed.

Section Components.
Variables lepe lepx lepy lepz metx mety vx1 vx2 : T.
Variables o1 o2 : opt_variables O.
Variable mc : T.
Let m := effective_mc lepe lepx lepy lepz mc.
Let h := get_h lepx lepy metx mety m.
Let r := neutrino_reco O lepe lepx lepy lepz metx mety vx1 vx2 o1 o2 mc.
Let rc := neutrino_reco_complex O lepe lepx lepy lepz metx mety vx1 vx2 o1 o2 m.

Lemma neutrino_reco_vx : fst (fst (fst r)) = where_ (h <= #1) metx (fst (fst (fst rc))).
Proof. unfold r. rewrite neutrino_reco_unfold. reflexivity. Qed.

Lemma neutrino_reco_vy : snd (fst (fst r)) = where_ (h <= #1) mety (snd (fst (fst rc))).
Proof. unfold r. rewrite neutrino_reco_unfold. reflexivity. Qed.

Lemma neutrino_reco_vz :
  snd (fst r) =
  where_ (h <= #1) (snd (neutrino_reco_real lepe lepx lepy lepz metx mety m)) (snd (fst rc)).
Proof. unfold r. rewrite neutrino_reco_unfold. reflexivity. Qed.

Lemma neutrino_reco_state1 :
  fst (snd r) = Nat.iter 100 (optimize_iter O metx mety lepx lepy m #1) (o1, vx1).
Proof. unfold r. rewrite neutrino_reco_unfold. reflexivity. Qed.

Lemma neutrino_reco_state2 :
  snd (snd r) = Nat.iter 100 (optimize_iter O metx mety lepx lepy m #(-1)) (o2, vx2).
Proof. unfold r. rewrite neutrino_reco_unfold. reflexivity. Qed.

End Components.

(** What [call] returns when the batch fits the variables. *)
Lemma call_unfold (self : NeutrinoReco O) (inputs : Inputs T) :
  let n := shape0 (c_metx inputs) in
  let r := neutrino_reco O (c_lepe inputs) (c_lepx inputs) (c_lepy inputs)
             (c_lepz inputs) (c_metx inputs) (c_mety inputs)
             (assign_prefix (vx1 self) n (c_metx inputs))
             (assign_prefix (vx2 self) n (c_metx inputs))
             (opt_zeros O (opt1 self)) (opt_zeros O (opt2 self))
             (mass_constraint self) in
  (n <= shape0 (vx1 self))%nat -> (n <= shape0 (vx2 self))%nat ->
  call self inputs =
  Some (fst r,
        Build_NeutrinoReco O (fst (fst (snd r))) (fst (snd (snd r)))
          (snd (fst (snd r))) (snd (snd (snd r))) (mass_constraint self)).
Proof.
  intros n r H1 H2. unfold call. cbn [reset_optimizer vx1 vx2 opt1 opt2 mass_constraint].
  fold n. apply Nat.leb_le in H1, H2. rewrite H1, H2. reflexivity.
Qed.

End SolverShape.

(** ** The lepton mass *)

Section OneEvent.
Local Open Scope tf_scope.

(** C9: the lepton mass the combiner uses is never negative and never NaN,
    whatever the lepton; a negative radicand gives the mass 0.  The
    evaluation is a total function, so it cannot fail. *)
Theorem lepton_mass_clamped (lepe lepx lepy lepz : float) :
  (lepton_mass lepe lepx lepy lepz >= #0) = true /\
  is_nan (lepton_mass lepe lepx lepy lepz) = false /\
  ((sq lepe - sq lepx - sq lepy - sq lepz < #0) = true ->
   lepton_mass lepe lepx lepy lepz = #0).
Proof.
  unfold lepton_mass. cbn -[sq].
  set (rad := PrimFloat.sub _ _).
  destruct (PrimFloat.is_nan (PrimFloat.sqrt rad)) eqn:E.
  - repeat split; reflexivity.
  - split; [ | split ].
    + apply sqrt_nonneg, E.
    + exact E.
    + intros H. apply sqrt_negative in H. rewrite H in E. discriminate.
Qed.

Lemma lepton_mass_clamped_witness :
  (sq 1%float - sq 1%float - sq 1%float - sq 0%float < #0) = true /\
  lepton_mass 1%float 1%float 1%float 0%float = #0.
Proof.
  split; [ reflexivity | ].
  apply (lepton_mass_clamped 1%float 1%float 1%float 0%float). reflexivity.
Defined.

(** ** The analytic solver *)

Lemma ltb_irrefl (x : float) : PrimFloat.ltb x x = false.
Proof.
  destruct (PrimFloat.ltb x x) eqn:E; [ | reflexivity ].
  pose proof (leb_ltb_false (ltb_leb E)). congruence.
Qed.

Lemma leb_false_ltb_false (x y : float) :
  PrimFloat.leb x y = false -> PrimFloat.ltb x y = false.
Proof.
  intros H. destruct (PrimFloat.ltb x y) eqn:E; [ | reflexivity ].
  rewrite (ltb_leb E) in H. discriminate.
Qed.

Lemma is_nan_abs (x : float) : PrimFloat.is_nan (PrimFloat.abs x) = PrimFloat.is_nan x.
Proof.
  destruct (PrimFloat.is_nan x) eqn:E.
  - apply is_nan_eq in E. subst x. reflexivity.
  - apply not_nan_Prim2SF. rewrite abs_spec. apply not_nan_Prim2SF in E.
    destruct (Prim2SF x); simpl; congruence.
Qed.

(** Which of two candidates [tf.where (a <= b) x y] keeps, for a key [a]
    of [x] and a key [b] of [y]. *)
Lemma where_leb_smaller (a b : float) :
  (PrimFloat.leb a b = true /\ PrimFloat.ltb b a = false) \/
  (PrimFloat.leb a b = false /\ PrimFloat.ltb a b = false).
Proof.
  destruct (PrimFloat.leb a b) eqn:E.
  - left. split; [ reflexivity | apply leb_ltb_false, E ].
  - right. split; [ reflexivity | apply leb_false_ltb_false, E ].
Qed.

Lemma neutrino_reco_real_unfold (lepe lepx lepy lepz vx vy mc : float) :
  neutrino_reco_real lepe lepx lepy lepz vx vy mc =
  (vx, vy,
   if PrimFloat.leb (PrimFloat.abs (vz_plus lepe lepx lepy lepz vx vy mc))
                    (PrimFloat.abs (vz_minus lepe lepx lepy lepz vx vy mc))
   then vz_plus lepe lepx lepy lepz vx vy mc
   else vz_minus lepe lepx lepy lepz vx vy mc).
Proof. reflexivity. Qed.

(** C2, as the code has it: for an event with [0 <= h <= 1] the analytic
    solver returns the trial [vx] and [vy] unchanged, and as [vz] one of the
    two roots, none of which is smaller in absolute value: when both roots
    are numbers, [|vz|] is at most [|vz+|] and at most [|vz-|]; when a root
    is NaN the comparison [|vz+| <= |vz-|] is false and the root [vz-] is
    returned. *)
Theorem analytic_solver_smaller_root (lepe lepx lepy lepz vx vy mc : float) :
  (get_h lepx lepy vx vy mc >= #0) = true ->
  (get_h lepx lepy vx vy mc <= #1) = true ->
  let vzp := vz_plus lepe lepx lepy lepz vx vy mc in
  let vzn := vz_minus lepe lepx lepy lepz vx vy mc in
  exists vz,
    neutrino_reco_real lepe lepx lepy lepz vx vy mc = (vx, vy, vz) /\
    (vz = vzp \/ vz = vzn) /\
    (abs vzp < abs vz) = false /\ (abs vzn < abs vz) = false /\
    (is_nan vzp = false -> is_nan vzn = false ->
     (abs vz <= abs vzp) = true /\ (abs vz <= abs vzn) = true) /\
    (is_nan vzp = true \/ is_nan vzn = true -> vz = vzn).
Proof.
  intros _ _ vzp vzn.
  rewrite neutrino_reco_real_unfold. fold vzp vzn.
  cbn [abs ltb leb is_nan float_arith float_ieee].
  destruct (where_leb_smaller (PrimFloat.abs vzp) (PrimFloat.abs vzn)) as [[L1 L2] | [L1 L2]];
    rewrite L1.
  - exists vzp. split; [ reflexivity | ]. split; [ now left | ].
    split; [ apply ltb_irrefl | ]. split; [ exact L2 | ]. split.
    + intros Hp _. split; [ | exact L1 ].
      apply leb_refl. rewrite is_nan_abs. exact Hp.
    + intros Hnan. exfalso. destruct (leb_not_nan L1) as [Np Nn].
      rewrite is_nan_abs in Np, Nn. destruct Hnan; congruence.
  - exists vzn. split; [ reflexivity | ]. split; [ now right | ].
    split; [ exact L2 | ]. split; [ apply ltb_irrefl | ]. split.
    + intros Hp Hn. split.
      * apply ltb_false_leb; rewrite ?is_nan_abs; auto.
      * apply leb_refl. rewrite is_nan_abs. exact Hn.
    + reflexivity.
Qed.

Lemma analytic_solver_smaller_root_witness :
  exists vz,
    neutrino_reco_real 35%float (-34)%float (-1)%float (-6)%float
      (-63)%float (-72)%float 80%float = ((-63)%float, (-72)%float, vz) /\
    (abs vz <= abs (vz_plus 35%float (-34)%float (-1)%float (-6)%float
                      (-63)%float (-72)%float 80%float)) = true.
Proof.
  destruct (@analytic_solver_smaller_root 35%float (-34)%float (-1)%float (-6)%float
              (-63)%float (-72)%float 80%float)
    as [vz [E [_ [_ [_ [H _]]]]]]; [ reflexivity | reflexivity | ].
  exists vz. split; [ exact E | ]. apply H; reflexivity.
Defined.

(** The claim that [vz] is always the root of smaller absolute value fails
    where a root is NaN.  A lepton along the beam axis has [leppt = 0]; here
    [h = 0] and [k = 2], so that [k / leppt^2] is infinite: [vz+] is [+inf],
    [vz-] is [inf * 0], which is NaN, the comparison [|vz+| <= |vz-|] is
    false and the NaN root is returned. *)
Lemma nan_root_is_returned :
  let h := get_h 0%float 0%float 1%float 2%float 2%float in
  let vzp := vz_plus 5%float 0%float 0%float 5%float 1%float 2%float 2%float in
  let vzn := vz_minus 5%float 0%float 0%float 5%float 1%float 2%float 2%float in
  let out := neutrino_reco_real 5%float 0%float 0%float 5%float 1%float 2%float 2%float in
  (h >= #0) = true /\ (h <= #1) = true /\
  vzp = infinity /\ is_nan vzn = true /\
  fst out = (1%float, 2%float) /\ is_nan (snd out) = true /\
  (abs (snd out) <= abs vzp) = false.
Proof. vm_compute. repeat split; reflexivity. Qed.

(** ** The numeric solver *)

Lemma select_branch_unfold (lepx lepy lepz metx mety mc vx1 vx2 : float) :
  select_branch lepx lepy lepz metx mety mc vx1 vx2 =
  let d1 := residual lepx lepy metx mety mc #1 vx1 in
  let d2 := residual lepx lepy metx mety mc #(-1) vx2 in
  let vx := if PrimFloat.leb d1 d2 then caught lepx mc vx1 else caught lepx mc vx2 in
  let vy := if PrimFloat.leb d1 d2
            then branch_vy lepx lepy mc #1 vx1 else branch_vy lepx lepy mc #(-1) vx2 in
  (vx, vy, get_k lepx lepy vx vy mc * lepz / sq (get_pt lepx lepy)).
Proof. reflexivity. Qed.

Lemma neutrino_reco_complex_unfold (O : Optimizer float)
    (lepe lepx lepy lepz metx mety vx1 vx2 : float) (o1 o2 : opt_variables O) (mc : float) :
  fst (neutrino_reco_complex O lepe lepx lepy lepz metx mety vx1 vx2 o1 o2 mc) =
  select_branch lepx lepy lepz metx mety mc
    (fst (optimize1 O o1 vx1 metx mety lepx lepy mc #1))
    (fst (optimize2 O o2 vx2 metx mety lepx lepy mc #(-1))).
Proof. reflexivity. Qed.

(** [tf.clip_by_value] on binary64 numbers. *)
Lemma vx_constrain_unfold (vx lepx mc : float) :
  vx_constrain vx lepx mc =
  if PrimFloat.leb 0 lepx
  then clip_by_value vx (boundary lepx mc) infinity
  else clip_by_value vx neg_infinity (boundary lepx mc).
Proof. reflexivity. Qed.

Lemma clip_by_value_nan (lo hi : float) : clip_by_value nan lo hi = nan.
Proof. reflexivity. Qed.

Lemma clip_by_value_above (v lo : float) :
  PrimFloat.is_nan v = false -> PrimFloat.is_nan lo = false ->
  clip_by_value v lo infinity = if PrimFloat.ltb v lo then lo else v.
Proof.
  intros Hv Hlo. unfold clip_by_value, maximum, minimum.
  cbn [where_ is_nan ltb float_arith float_ieee inf].
  rewrite Hv. change (PrimFloat.is_nan infinity) with false. cbv iota.
  rewrite (leb_ltb_false (leb_infinity v Hv)), Hv, Hlo. reflexivity.
Qed.

Lemma clip_by_value_below (v hi : float) :
  PrimFloat.is_nan v = false -> PrimFloat.is_nan hi = false ->
  clip_by_value v neg_infinity hi = if PrimFloat.ltb hi v then hi else v.
Proof.
  intros Hv Hhi. unfold clip_by_value, maximum, minimum.
  cbn [where_ is_nan ltb float_arith float_ieee inf].
  rewrite Hv, Hhi.
  assert (Ht : PrimFloat.is_nan (if PrimFloat.ltb hi v then hi else v) = false)
    by (destruct (PrimFloat.ltb hi v); assumption).
  rewrite Ht. change (PrimFloat.is_nan neg_infinity) with false. cbv iota.
  rewrite (leb_ltb_false (neg_infinity_leb _ Ht)). reflexivity.
Qed.

Lemma clip_by_value_nan_bound_above (v lo : float) :
  PrimFloat.is_nan lo = true -> PrimFloat.is_nan (clip_by_value v lo infinity) = true.
Proof.
  intros Hlo. unfold clip_by_value, maximum.
  cbn [where_ is_nan ltb float_arith float_ieee inf].
  destruct (PrimFloat.is_nan (minimum v infinity)) eqn:E; [ exact E | ].
  rewrite Hlo. exact Hlo.
Qed.

Lemma clip_by_value_nan_bound_below (v hi : float) :
  PrimFloat.is_nan hi = true -> PrimFloat.is_nan (clip_by_value v neg_infinity hi) = true.
Proof.
  intros Hhi. unfold clip_by_value, maximum, minimum.
  cbn [where_ is_nan ltb float_arith float_ieee inf].
  destruct (PrimFloat.is_nan v) eqn:Hv.
  - rewrite Hv. exact Hv.
  - rewrite Hhi, Hhi. exact Hhi.
Qed.

(** The projection gives NaN or a point of the half-line. *)
Lemma vx_constrain_nan_or_inside (vx lepx mc : float) :
  PrimFloat.is_nan (vx_constrain vx lepx mc) = true \/
  in_half_line lepx mc (vx_constrain vx lepx mc) = true.
Proof.
  rewrite vx_constrain_unfold. unfold in_half_line.
  destruct (PrimFloat.is_nan vx) eqn:Hv.
  { apply is_nan_eq in Hv. subst vx. rewrite !clip_by_value_nan.
    left. destruct (PrimFloat.leb 0 lepx); reflexivity. }
  destruct (PrimFloat.is_nan (boundary lepx mc)) eqn:Hc.
  { left. destruct (PrimFloat.leb 0 lepx);
      [ apply clip_by_value_nan_bound_above | apply clip_by_value_nan_bound_below ];
      exact Hc. }
  right. destruct (PrimFloat.leb 0 lepx).
  - rewrite clip_by_value_above by assumption.
    destruct (PrimFloat.ltb vx (boundary lepx mc)) eqn:L.
    + apply leb_refl, Hc.
    + apply ltb_false_leb; assumption.
  - rewrite clip_by_value_below by assumption.
    destruct (PrimFloat.ltb (boundary lepx mc) vx) eqn:L.
    + apply leb_refl, Hc.
    + apply ltb_false_leb; assumption.
Qed.

Lemma vx_constrain_inside (vx lepx mc : float) :
  PrimFloat.is_nan vx = false -> PrimFloat.is_nan (boundary lepx mc) = false ->
  in_half_line lepx mc (vx_constrain vx lepx mc) = true.
Proof.
  intros Hv Hc. destruct (vx_constrain_nan_or_inside vx lepx mc) as [H | H]; [ | exact H ].
  exfalso. revert H. rewrite vx_constrain_unfold.
  destruct (PrimFloat.leb 0 lepx).
  - rewrite clip_by_value_above by assumption.
    destruct (PrimFloat.ltb vx (boundary lepx mc)); congruence.
  - rewrite clip_by_value_below by assumption.
    destruct (PrimFloat.ltb (boundary lepx mc) vx); congruence.
Qed.

Lemma vx_constrain_fixes_half_line (vx lepx mc : float) :
  in_half_line lepx mc vx = true -> vx_constrain vx lepx mc = vx.
Proof.
  unfold in_half_line. rewrite vx_constrain_unfold.
  destruct (PrimFloat.leb 0 lepx); intros H;
    destruct (leb_not_nan H) as [H1 H2].
  - rewrite clip_by_value_above by assumption. rewrite (leb_ltb_false H). reflexivity.
  - rewrite clip_by_value_below by assumption. rewrite (leb_ltb_false H). reflexivity.
Qed.

Lemma vx_constrain_nan (lepx mc : float) : vx_constrain nan lepx mc = nan.
Proof.
  rewrite vx_constrain_unfold, !clip_by_value_nan.
  destruct (PrimFloat.leb 0 lepx); reflexivity.
Qed.

Lemma optimize_iter_projects (O : Optimizer float)
    (metx mety lepx lepy mc sign : float) (st : opt_variables O * float) :
  exists vx, snd (optimize_iter O metx mety lepx lepy mc sign st) = vx_constrain vx lepx mc.
Proof. eexists. reflexivity. Qed.

(** C5, as the code has it: after the projection of any turn of the loop
    the iterate is NaN or lies in the half-line; the projection maps every
    number into the half-line (when the boundary is a number), leaves the
    points of the half-line unchanged, and leaves NaN as it is. *)
Theorem projection_onto_half_line (O : Optimizer float)
    (metx mety lepx lepy mc sign : float) (st : opt_variables O * float) (n : nat) :
  let vx_n := snd (Nat.iter (Datatypes.S n) (optimize_iter O metx mety lepx lepy mc sign) st) in
  (is_nan vx_n = true \/ in_half_line lepx mc vx_n = true) /\
  (forall vx : float,
     is_nan vx = false -> is_nan (boundary lepx mc) = false ->
     in_half_line lepx mc (vx_constrain vx lepx mc) = true) /\
  (forall vx : float,
     in_half_line lepx mc vx = true -> vx_constrain vx lepx mc = vx) /\
  vx_constrain nan lepx mc = nan.
Proof.
  intros vx_n. split; [ | split; [ | split ] ].
  - subst vx_n. rewrite Nat.iter_succ.
    destruct (optimize_iter_projects O metx mety lepx lepy mc sign
                (Nat.iter n (optimize_iter O metx mety lepx lepy mc sign) st)) as [vx E].
    rewrite E. apply vx_constrain_nan_or_inside.
  - intros vx. apply vx_constrain_inside.
  - intros vx. apply vx_constrain_fixes_half_line.
  - apply vx_constrain_nan.
Qed.

Lemma projection_onto_half_line_witness :
  in_half_line 34%float 80%float (vx_constrain (-63)%float 34%float 80%float) = true /\
  vx_constrain 5%float 34%float 80%float = 5%float.
Proof.
  pose proof (projection_onto_half_line (Adam (T:=float)) 0%float 0%float 34%float 0%float
                80%float 1%float (adam_fresh, 0%float) 0) as H.
  cbv zeta in H. destruct H as (_ & H1 & H2 & _). split.
  - apply H1; reflexivity.
  - apply H2. reflexivity.
Defined.

(** C4, as the code has it: whatever the optimizer, the pair [(vx, vy)]
    the numeric solver returns is the pair of one sign branch, the other
    branch has no smaller residual (when both residuals are numbers, the
    residual of the returned pair is at most either of them), and [vz] is
    [k * lepz / leppt^2] at the returned pair.  When a residual is NaN the
    comparison [diff1 <= diff2] is false and the pair of the branch of sign
    [-1] is returned. *)
Theorem numeric_solver_keeps_smaller_residual (O : Optimizer float)
    (lepe lepx lepy lepz metx mety vx1 vx2 : float) (o1 o2 : opt_variables O) (mc : float) :
  let fit1 := fst (optimize1 O o1 vx1 metx mety lepx lepy mc #1) in
  let fit2 := fst (optimize2 O o2 vx2 metx mety lepx lepy mc #(-1)) in
  let d1 := residual lepx lepy metx mety mc #1 fit1 in
  let d2 := residual lepx lepy metx mety mc #(-1) fit2 in
  exists vx vy vz,
    fst (neutrino_reco_complex O lepe lepx lepy lepz metx mety vx1 vx2 o1 o2 mc)
      = (vx, vy, vz) /\
    (((vx, vy) = (caught lepx mc fit1, branch_vy lepx lepy mc #1 fit1) /\
      shift vx vy metx mety = d1 /\ (d2 < d1) = false)
     \/
     ((vx, vy) = (caught lepx mc fit2, branch_vy lepx lepy mc #(-1) fit2) /\
      shift vx vy metx mety = d2 /\ (d1 < d2) = false)) /\
    (is_nan d1 = false /\ is_nan d2 = false ->
     (shift vx vy metx mety <= d1) = true /\ (shift vx vy metx mety <= d2) = true) /\
    vz = get_k lepx lepy vx vy mc * lepz / sq (get_pt lepx lepy) /\
    (is_nan d1 = true \/ is_nan d2 = true ->
     (vx, vy) = (caught lepx mc fit2, branch_vy lepx lepy mc #(-1) fit2)).
Proof.
  intros fit1 fit2 d1 d2.
  rewrite neutrino_reco_complex_unfold, select_branch_unfold.
  fold fit1 fit2. cbv zeta. fold d1 d2.
  cbn [ltb leb is_nan float_arith float_ieee].
  destruct (where_leb_smaller d1 d2) as [[L1 L2] | [L1 L2]]; rewrite L1.
  - do 3 eexists. split; [ reflexivity | ].
    split; [ | split; [ | split; [ reflexivity | ] ] ].
    + left. auto.
    + intros [H1 H2]. split; [ apply leb_refl, H1 | exact L1 ].
    + intros Hnan. exfalso. destruct (leb_not_nan L1) as [N1 N2].
      destruct Hnan; congruence.
  - do 3 eexists. split; [ reflexivity | ].
    split; [ | split; [ | split; [ reflexivity | ] ] ].
    + right. auto.
    + intros [H1 H2]. split; [ apply ltb_false_leb; auto | apply leb_refl, H2 ].
    + reflexivity.
Qed.

Lemma numeric_solver_keeps_smaller_residual_witness :
  exists vx vy vz,
    fst (neutrino_reco_complex (Adam (T:=float)) 35%float (-34)%float (-1)%float (-6)%float
           (-63)%float (-72)%float (-63)%float (-63)%float adam_fresh adam_fresh 80%float)
      = (vx, vy, vz) /\
    (shift vx vy (-63)%float (-72)%float <=
     residual (-34)%float (-1)%float (-63)%float (-72)%float 80%float #(-1)
       (fst (optimize2 (Adam (T:=float)) adam_fresh (-63)%float (-63)%float (-72)%float
               (-34)%float (-1)%float 80%float #(-1)))) = true.
Proof.
  pose proof (numeric_solver_keeps_smaller_residual (Adam (T:=float))
                35%float (-34)%float (-1)%float (-6)%float (-63)%float (-72)%float
                (-63)%float (-63)%float adam_fresh adam_fresh 80%float) as H.
  cbv zeta in H. destruct H as (vx & vy & vz & E & _ & H & _).
  exists vx, vy, vz. split; [ exact E | ].
  apply H. split; vm_compute; reflexivity.
Defined.

(** The claim that the residual of the returned pair is at most the other
    branch's fails where the residuals are NaN.  For a lepton with
    [lepx = 0] the quotient in [calc_vy] is NaN whatever [vx] is: both fits
    are NaN and are replaced by the boundary value, which is [-inf], both
    residuals are NaN, and the pair of the branch of sign [-1] is
    returned.  Here [h > 1]. *)
Lemma nan_residual_is_returned :
  let fit1 := fst (optimize1 (Adam (T:=float)) adam_fresh 5000%float 5000%float 0%float
                     0%float 3%float 80%float #1) in
  let fit2 := fst (optimize2 (Adam (T:=float)) adam_fresh 5000%float 5000%float 0%float
                     0%float 3%float 80%float #(-1)) in
  let d1 := residual 0%float 3%float 5000%float 0%float 80%float #1 fit1 in
  let d2 := residual 0%float 3%float 5000%float 0%float 80%float #(-1) fit2 in
  let out := fst (neutrino_reco_complex (Adam (T:=float)) 5%float 0%float 3%float 4%float
                    5000%float 0%float 5000%float 5000%float adam_fresh adam_fresh 80%float) in
  let vx := fst (fst out) in
  let vy := snd (fst out) in
  (#1 < get_h 0%float 3%float 5000%float 0%float 80%float) = true /\
  is_nan d1 = true /\ is_nan d2 = true /\
  vx = caught 0%float 80%float fit2 /\ vx = neg_infinity /\ is_nan vy = true /\
  (shift vx vy 5000%float 0%float <= d1) = false /\
  (shift vx vy 5000%float 0%float <= d2) = false.
Proof. vm_compute. repeat split; reflexivity. Qed.

(** C10: on a tie the candidate of the positive sign is kept: the analytic
    solver returns the root [vz+] when [|vz+| = |vz-|], and the numeric
    solver returns the pair of the branch of sign [+1] when the two
    residuals are equal. *)
Theorem ties_keep_the_positive_sign :
  (forall lepe lepx lepy lepz vx vy mc : float,
     PrimFloat.eqb (abs (vz_plus lepe lepx lepy lepz vx vy mc))
                   (abs (vz_minus lepe lepx lepy lepz vx vy mc)) = true ->
     neutrino_reco_real lepe lepx lepy lepz vx vy mc =
     (vx, vy, vz_plus lepe lepx lepy lepz vx vy mc)) /\
  (forall (O : Optimizer float) (lepe lepx lepy lepz metx mety vx1 vx2 : float)
          (o1 o2 : opt_variables O) (mc : float),
     let fit1 := fst (optimize1 O o1 vx1 metx mety lepx lepy mc #1) in
     let fit2 := fst (optimize2 O o2 vx2 metx mety lepx lepy mc #(-1)) in
     PrimFloat.eqb (residual lepx lepy metx mety mc #1 fit1)
                   (residual lepx lepy metx mety mc #(-1) fit2) = true ->
     exists vz,
       fst (neutrino_reco_complex O lepe lepx lepy lepz metx mety vx1 vx2 o1 o2 mc) =
       (caught lepx mc fit1, branch_vy lepx lepy mc #1 fit1, vz)).
Proof.
  split.
  - intros lepe lepx lepy lepz vx vy mc H.
    apply eqb_leb in H. cbn [abs float_arith] in H.
    rewrite neutrino_reco_real_unfold, H. reflexivity.
  - intros O lepe lepx lepy lepz metx mety vx1 vx2 o1 o2 mc fit1 fit2 H.
    rewrite neutrino_reco_complex_unfold, select_branch_unfold.
    fold fit1 fit2. cbv zeta. rewrite (eqb_leb H). eexists. reflexivity.
Qed.

Lemma ties_keep_the_positive_sign_witness :
  neutrino_reco_real 5%float 3%float 4%float 0%float 1%float 2%float 10%float =
  (1%float, 2%float, vz_plus 5%float 3%float 4%float 0%float 1%float 2%float 10%float) /\
  vz_plus 5%float 3%float 4%float 0%float 1%float 2%float 10%float <>
  vz_minus 5%float 3%float 4%float 0%float 1%float 2%float 10%float.
Proof.
  split.
  - apply (proj1 ties_keep_the_positive_sign). reflexivity.
  - intros H. apply (f_equal (fun x => PrimFloat.ltb 0 x)) in H.
    vm_compute in H. discriminate H.
Defined.

(** The claim that the iterate lies in the half-line after every
    projection fails: MET's x-component of [outside_event] is below the
    boundary, the objective is NaN there, and the iterate is NaN after the
    first turn of the loop and after the last. *)
Lemma iterate_outside_half_line :
  in_half_line 34%float 80%float (-63)%float = false /\
  in_half_line 34%float 80%float
    (snd (Nat.iter 1
            (optimize_iter (Adam (T:=float)) (-63)%float (-72)%float 34%float (-1)%float
                           80%float #1)
            (adam_fresh, (-63)%float))) = false /\
  in_half_line 34%float 80%float
    (snd (Nat.iter 100
            (optimize_iter (Adam (T:=float)) (-63)%float (-72)%float 34%float (-1)%float
                           80%float #1)
            (adam_fresh, (-63)%float))) = false.
Proof. vm_compute. repeat split. Qed.

Lemma caught_nan (lepx mc : float) : caught lepx mc nan = boundary lepx mc.
Proof. reflexivity. Qed.

Lemma caught_boundary (lepx mc : float) :
  caught lepx mc (boundary lepx mc) = boundary lepx mc.
Proof. unfold caught. destruct (PrimFloat.is_nan (boundary lepx mc)); reflexivity. Qed.

Lemma select_branch_nan_1 (lepx lepy lepz metx mety mc vx2 : float) :
  select_branch lepx lepy lepz metx mety mc nan vx2 =
  select_branch lepx lepy lepz metx mety mc (boundary lepx mc) vx2.
Proof.
  rewrite !select_branch_unfold. unfold residual, branch_vy.
  rewrite caught_nan, caught_boundary. reflexivity.
Qed.

Lemma select_branch_nan_2 (lepx lepy lepz metx mety mc vx1 : float) :
  select_branch lepx lepy lepz metx mety mc vx1 nan =
  select_branch lepx lepy lepz metx mety mc vx1 (boundary lepx mc).
Proof.
  rewrite !select_branch_unfold. unfold residual, branch_vy.
  rewrite caught_nan, caught_boundary. reflexivity.
Qed.





(** ** A mass constraint that is NaN *)

Lemma boundary_nan_mc (lepx : float) : boundary lepx nan = nan.
Proof. unfold boundary, sq. nan_simpl. reflexivity. Qed.

(** With a NaN boundary the projection gives NaN, whatever it projects. *)
Lemma vx_constrain_nan_mc (vx lepx : float) : vx_constrain vx lepx nan = nan.
Proof.
  destruct (vx_constrain_nan_or_inside vx lepx nan) as [H | H].
  - apply is_nan_eq, H.
  - unfold in_half_line in H. rewrite boundary_nan_mc in H.
    rewrite leb_nan_l, leb_nan_r in H. destruct (PrimFloat.leb 0 lepx); discriminate.
Qed.

Lemma optimize_iter_nan_mc (O : Optimizer float)
    (metx mety lepx lepy sign : float) (st : opt_variables O * float) :
  snd (optimize_iter O metx mety lepx lepy nan sign st) = nan.
Proof.
  destruct (optimize_iter_projects O metx mety lepx lepy nan sign st) as [vx E].
  rewrite E. apply vx_constrain_nan_mc.
Qed.

Lemma optimize_loop_nan_mc (O : Optimizer float)
    (metx mety lepx lepy sign : float) (st : opt_variables O * float) (n : nat) :
  snd (Nat.iter (Datatypes.S n) (optimize_iter O metx mety lepx lepy nan sign) st) = nan.
Proof. rewrite Nat.iter_succ. apply optimize_iter_nan_mc. Qed.

Lemma optimize1_nan_mc (O : Optimizer float) (o : opt_variables O)
    (vx metx mety lepx lepy sign : float) :
  fst (optimize1 O o vx metx mety lepx lepy nan sign) = nan.
Proof.
  rewrite optimize1_unfold. cbn [fst take float_shaped].
  apply (optimize_loop_nan_mc O metx mety lepx lepy sign (o, vx) 99).
Qed.

Lemma optimize2_nan_mc (O : Optimizer float) (o : opt_variables O)
    (vx metx mety lepx lepy sign : float) :
  fst (optimize2 O o vx metx mety lepx lepy nan sign) = nan.
Proof.
  rewrite optimize2_unfold. cbn [fst take float_shaped].
  apply (optimize_loop_nan_mc O metx mety lepx lepy sign (o, vx) 99).
Qed.

Lemma select_branch_nan_mc (lepx lepy lepz metx mety : float) :
  select_branch lepx lepy lepz metx mety nan nan nan = (nan, nan, nan).
Proof.
  rewrite select_branch_unfold. unfold residual, branch_vy.
  rewrite caught_nan, boundary_nan_mc. cbv zeta.
  assert (Hy : forall sign, calc_vy nan lepx lepy nan sign true = nan).
  { intros sign. unfold calc_vy, sq. cbv zeta. nan_simpl. reflexivity. }
  rewrite !Hy.
  assert (Hs : shift nan nan metx mety = nan) by (unfold shift, sq; nan_simpl; reflexivity).
  rewrite Hs, leb_nan_l.
  unfold get_k, sq. nan_simpl. reflexivity.
Qed.

Lemma get_h_nan_mc (lepx lepy metx mety : float) : get_h lepx lepy metx mety nan = nan.
Proof. unfold get_h, get_k, sq. cbv zeta. nan_simpl. reflexivity. Qed.

(** The combiner for one event: the analytic triple when [h <= 1], the
    numeric triple otherwise. *)
Lemma event_reco_select (mc : float) (ev : Inputs float) :
  event_reco mc ev =
  if PrimFloat.leb (event_h mc ev) 1 then analytic_triple mc ev else numeric_triple mc ev.
Proof.
  unfold event_reco, analytic_triple, numeric_triple, event_h, event_mc.
  rewrite neutrino_reco_unfold. cbv zeta. cbn [fst].
  generalize (neutrino_reco_complex (Adam (T:=float))
                (c_lepe ev) (c_lepx ev) (c_lepy ev) (c_lepz ev) (c_metx ev) (c_mety ev)
                (c_metx ev) (c_metx ev) adam_fresh adam_fresh
                (effective_mc (c_lepe ev) (c_lepx ev) (c_lepy ev) (c_lepz ev) mc)).
  intros [[[a b] c] st]. cbn [fst snd].
  rewrite neutrino_reco_real_unfold. cbn [snd].
  change (get_h (c_lepx ev) (c_lepy ev) (c_metx ev) (c_mety ev)
            (effective_mc (c_lepe ev) (c_lepx ev) (c_lepy ev) (c_lepz ev) mc) <= #1)
    with (PrimFloat.leb (get_h (c_lepx ev) (c_lepy ev) (c_metx ev) (c_mety ev)
            (effective_mc (c_lepe ev) (c_lepx ev) (c_lepy ev) (c_lepz ev) mc)) 1).
  destruct (PrimFloat.leb _ 1); reflexivity.
Qed.

(** When [mc^2 - lepm^2] is negative the corrected mass constraint is NaN
    and so is the whole triple of the event. *)
Lemma event_reco_nan (mc : float) (ev : Inputs float) :
  (sq mc - sq (lepton_mass (c_lepe ev) (c_lepx ev) (c_lepy ev) (c_lepz ev)) < #0) = true ->
  event_mc mc ev = nan /\ event_reco mc ev = (nan, nan, nan).
Proof.
  intros H. apply sqrt_negative in H.
  assert (Hm : event_mc mc ev = nan) by exact H.
  split; [ exact Hm | ].
  rewrite event_reco_select. unfold event_h, numeric_triple. rewrite Hm.
  rewrite get_h_nan_mc, leb_nan_l, neutrino_reco_complex_unfold.
  rewrite optimize1_nan_mc, optimize2_nan_mc. apply select_branch_nan_mc.
Qed.

(** The claim that the numeric triple is returned exactly when [h > 1]
    fails: the lepton of [heavy_event] is heavier than the mass constraint,
    its [h] is NaN, neither [h <= 1] nor [h > 1] holds, and the combiner
    returns the numeric triple. *)
Lemma nan_discriminant_takes_numeric_branch :
  is_nan (event_h W_mass heavy_event) = true /\
  (event_h W_mass heavy_event <= #1) = false /\
  (event_h W_mass heavy_event > #1) = false /\
  event_reco W_mass heavy_event = numeric_triple W_mass heavy_event /\
  event_reco W_mass heavy_event = (nan, nan, nan) /\
  fst (analytic_triple W_mass heavy_event) = (10%float, 20%float).
Proof. vm_compute. repeat split. Qed.

End OneEvent.

(** ** The constraint curve, in exact arithmetic *)

Section ExactArithmetic.
Local Open Scope R_scope.

(** C3, as the formulas have it over the real numbers: for [lepx <> 0], a
    sign [+1] or [-1] and a trial [vx] with a non-negative radicand, the
    [vy] of [calc_vy] (without clamping) lies on the constraint curve,
    [(mc^2/2 + lepx vx + lepy vy)^2 = (lepx^2 + lepy^2) (vx^2 + vy^2)];
    the discriminant [h] at [(vx, vy)] is then 1 wherever [k] is not 0. *)
Theorem calc_vy_on_constraint_curve (vx lepx lepy mc sign : R) :
  lepx <> 0 -> (sign = 1 \/ sign = -1) ->
  0 <= mc * mc / 2 * (lepx * lepx + lepy * lepy) * (2 * lepx * vx + mc * mc / 2) ->
  let vy := calc_vy vx lepx lepy mc sign false in
  sq (get_k lepx lepy vx vy mc) = (sq lepx + sq lepy) * (sq vx + sq vy) /\
  (get_k lepx lepy vx vy mc <> 0 -> get_h lepx lepy vx vy mc = 1).
Proof.
  intros Hx Hs Hrad vy.
  assert (Hcurve : sq (get_k lepx lepy vx vy mc) = (sq lepx + sq lepy) * (sq vx + sq vy)).
  { subst vy. unfold get_k, calc_vy, sq. cbn [add sub mul div lit sqrt real_arith].
    set (s := R_sqrt.sqrt _).
    assert (Hss : s * s = mc * mc / 2 * (lepx * lepx + lepy * lepy) * (2 * lepx * vx + mc * mc / 2))
      by (apply sqrt_sqrt; exact Hrad).
    assert (Hsg : sign * sign = 1) by (destruct Hs; subst; ring).
    clearbody s. set (M := mc * mc / 2) in *.
    set (N := lepx * lepy * vx + lepy * (mc * mc) / 2 + sign * s).
    assert (HN : N = lepy * (M + lepx * vx) + sign * s) by (unfold N, M; field).
    clearbody N M.
    assert (HN2 : N * N = lepy * lepy * ((M + lepx * vx) * (M + lepx * vx))
                        + 2 * lepy * (M + lepx * vx) * sign * s + s * s).
    { rewrite HN. transitivity (lepy * lepy * ((M + lepx * vx) * (M + lepx * vx))
                        + 2 * lepy * (M + lepx * vx) * sign * s + (sign * sign) * (s * s)).
      - ring. - rewrite Hsg. ring. }
    apply (Rmult_eq_reg_l ((lepx * lepx) * (lepx * lepx))).
    2:{ apply Rmult_integral_contrapositive_currified; apply Rmult_integral_contrapositive_currified; assumption. }
    transitivity ((lepx*lepx * (M + lepx * vx) + lepy * N) * (lepx*lepx * (M + lepx * vx) + lepy * N)).
    - field. exact Hx.
    - transitivity ((lepx * lepx + lepy * lepy) * ((lepx*lepx)*(lepx*lepx) * (vx*vx) + N * N)).
      + rewrite HN2, Hss. rewrite HN. 
        transitivity ((lepx * lepx + lepy * lepy) * (lepx * lepx + lepy * lepy) * ((M + lepx * vx) * (M + lepx * vx))
           + 2 * (lepx * lepx + lepy * lepy) * (M + lepx * vx) * lepy * sign * s + lepy * lepy * (sign * sign) * (s * s)).
        * ring.
        * rewrite Hsg, Hss. ring.
      + field. exact Hx. }
  split; [ exact Hcurve | ].
  intros Hk. unfold get_h. cbv zeta. fold vy.
  set (k := get_k lepx lepy vx vy mc) in *.
  unfold get_pt, sq in *. cbn [add sub mul div lit sqrt real_arith] in *.
  assert (Ha : 0 <= lepx * lepx + lepy * lepy)
    by (apply Rplus_le_le_0_compat; apply Rle_0_sqr).
  assert (Hb : 0 <= vx * vx + vy * vy)
    by (apply Rplus_le_le_0_compat; apply Rle_0_sqr).
  set (a := lepx * lepx + lepy * lepy) in *. set (b := vx * vx + vy * vy) in *.
  transitivity ((R_sqrt.sqrt a * R_sqrt.sqrt a) * (R_sqrt.sqrt b * R_sqrt.sqrt b) / (k * k)).
  - field. exact Hk.
  - rewrite !sqrt_sqrt by assumption. rewrite <- Hcurve. field. exact Hk.
Qed.

Lemma calc_vy_on_constraint_curve_witness :
  sq (get_k 1 0 0 (calc_vy 0 1 0 2 1 false) 2) =
  (sq 1 + sq 0) * (sq 0 + sq (calc_vy 0 1 0 2 1 false)).
Proof.
  apply (@calc_vy_on_constraint_curve 0 1 0 2 1); [ lra | left; reflexivity | lra ].
Defined.

(** The claim that [h] is 1 at every such point fails where [k] vanishes:
    for [mc = 0] and [vx = 0] the solver gives [vy = 0], the curve equation
    holds as [0 = 0], and [h] is the square of [0 / 0], which is not 1 over
    the real numbers and is NaN in binary64. *)
Lemma discriminant_at_the_origin :
  (1 <> 0) /\
  0 <= 0 * 0 / 2 * (1 * 1 + 0 * 0) * (2 * 1 * 0 + 0 * 0 / 2) /\
  get_k 1 0 0 (calc_vy 0 1 0 0 1 false) 0 = 0 /\
  get_h 1 0 0 (calc_vy 0 1 0 0 1 false) 0 <> 1 /\
  get_h 1%float 0%float 0%float
    (calc_vy 0%float 1%float 0%float 0%float 1%float false) 0%float = nan.
Proof.
  assert (Hv : calc_vy 0 1 0 0 1 false = 0).
  { unfold calc_vy, sq. cbn [add sub mul div lit sqrt real_arith].
    replace (0 * 0 / 2 * (1 * 1 + 0 * 0) * (2 * 1 * 0 + 0 * 0 / 2)) with 0 by field.
    rewrite sqrt_0. field. }
  rewrite Hv. split; [ lra | ]. split; [ lra | ].
  assert (Hk : get_k 1 0 0 0 0 = 0) by (unfold get_k, sq; cbn; field).
  split; [ exact Hk | ]. split; [ | reflexivity ].
  unfold get_h. cbv zeta. rewrite Hk. unfold get_pt, sq.
  cbn [add sub mul div lit sqrt real_arith].
  replace (0 * 0 + 0 * 0) with 0 by ring. rewrite sqrt_0.
  unfold Rdiv. rewrite !Rmult_0_r, !Rmult_0_l. lra.
Qed.

End ExactArithmetic.

(** In binary64 the curve equation holds up to rounding only: the
    discriminant at a point of the curve is next to 1. *)
Lemma discriminant_on_the_curve_binary64 :
  let vy := calc_vy 3%float 1%float 2%float 4%float 1%float false in
  get_h 1%float 2%float 3%float vy 4%float <> 1%float /\
  PrimFloat.ltb (PrimFloat.abs (get_h 1%float 2%float 3%float vy 4%float - 1)%float)
                0x1p-50%float = true.
Proof.
  split.
  - intro H. apply (f_equal (fun x => PrimFloat.eqb x 1%float)) in H.
    vm_compute in H. discriminate H.
  - vm_compute. reflexivity.
Qed.

(** ** Every definition respects a relation the interface respects *)

Ltac rel_arith HA :=
  repeat first
    [ assumption
    | apply (rel_lit HA)
    | apply (rel_add HA)
    | apply (rel_sub HA)
    | apply (rel_mul HA)
    | apply (rel_div HA)
    | apply (rel_neg HA)
    | apply (rel_sqrt HA)
    | apply (rel_abs HA)
    | apply (rel_leb HA)
    | apply (rel_ltb HA)
    | apply (rel_where HA) ].

Section ArithParametricity.
Context {T1 B1 T2 B2 : Type} {A1 : Arith T1 B1} {A2 : Arith T2 B2}.
Variable RT : T1 -> T2 -> Prop.
Variable RB : B1 -> B2 -> Prop.
Hypothesis HA : ArithRel RT RB A1 A2.

Lemma sq_rel a x : RT a x -> RT (sq a) (sq x).
Proof. intros. unfold sq. rel_arith HA. Qed.

Lemma calc_vy_rel vx vx' lepx lepx' lepy lepy' mc mc' sign sign' save :
  RT vx vx' -> RT lepx lepx' -> RT lepy lepy' -> RT mc mc' -> RT sign sign' ->
  RT (calc_vy vx lepx lepy mc sign save) (calc_vy vx' lepx' lepy' mc' sign' save).
Proof.
  intros. unfold calc_vy, sq. destruct save; cbv zeta; rel_arith HA.
Qed.

Lemma shift_rel vx vx' vy vy' metx metx' mety mety' :
  RT vx vx' -> RT vy vy' -> RT metx metx' -> RT mety mety' ->
  RT (shift vx vy metx mety) (shift vx' vy' metx' mety').
Proof. intros. unfold shift, sq. rel_arith HA. Qed.

Lemma get_k_rel lepx lepx' lepy lepy' vx vx' vy vy' mc mc' :
  RT lepx lepx' -> RT lepy lepy' -> RT vx vx' -> RT vy vy' -> RT mc mc' ->
  RT (get_k lepx lepy vx vy mc) (get_k lepx' lepy' vx' vy' mc').
Proof. intros. unfold get_k, sq. rel_arith HA. Qed.

Lemma get_pt_rel px px' py py' :
  RT px px' -> RT py py' -> RT (get_pt px py) (get_pt px' py').
Proof. intros. unfold get_pt, sq. rel_arith HA. Qed.

Lemma get_h_rel lepx lepx' lepy lepy' metx metx' mety mety' mc mc' :
  RT lepx lepx' -> RT lepy lepy' -> RT metx metx' -> RT mety mety' -> RT mc mc' ->
  RT (get_h lepx lepy metx mety mc) (get_h lepx' lepy' metx' mety' mc').
Proof. intros. unfold get_h, get_k, get_pt, sq. cbv zeta. rel_arith HA. Qed.

Lemma neutrino_reco_real_rel lepe lepe' lepx lepx' lepy lepy' lepz lepz' vx vx' vy vy' mc mc' :
  RT lepe lepe' -> RT lepx lepx' -> RT lepy lepy' -> RT lepz lepz' ->
  RT vx vx' -> RT vy vy' -> RT mc mc' ->
  triple_rel RT (neutrino_reco_real lepe lepx lepy lepz vx vy mc)
                (neutrino_reco_real lepe' lepx' lepy' lepz' vx' vy' mc').
Proof.
  intros. unfold neutrino_reco_real, triple_rel, get_h, get_k, get_pt, sq.
  cbv zeta. cbn [fst snd]. repeat split; rel_arith HA.
Qed.

Lemma opt_rel vx vx' lepx lepx' lepy lepy' metx metx' mety mety' mc mc' sign sign' :
  RT vx vx' -> RT lepx lepx' -> RT lepy lepy' -> RT metx metx' -> RT mety mety' ->
  RT mc mc' -> RT sign sign' ->
  RT (opt vx lepx lepy metx mety mc sign) (opt vx' lepx' lepy' metx' mety' mc' sign').
Proof.
  intros. unfold opt. cbv zeta. apply shift_rel; auto. apply calc_vy_rel; auto.
Qed.

(** Dual numbers respect the relation componentwise. *)
Lemma dual_arith_rel : ArithRel (dual_rel RT) RB dual_arith dual_arith.
Proof.
  split; unfold dual_rel; cbn.
  - intros z. split; rel_arith HA.
  - intros a x b y [Ha Ha'] [Hb Hb']; split; rel_arith HA.
  - intros a x b y [Ha Ha'] [Hb Hb']; split; rel_arith HA.
  - intros a x b y [Ha Ha'] [Hb Hb']; split; rel_arith HA.
  - intros a x b y [Ha Ha'] [Hb Hb']; split; rel_arith HA.
  - intros a x [Ha Ha']; split; rel_arith HA.
  - intros a x [Ha Ha']; split; rel_arith HA.
  - intros a x [Ha Ha']; split; rel_arith HA.
  - intros a x b y [Ha Ha'] [Hb Hb']; rel_arith HA.
  - intros a x b y [Ha Ha'] [Hb Hb']; rel_arith HA.
  - intros c d a x b y Hc [Ha Ha'] [Hb Hb']. split; rel_arith HA.
Qed.

Lemma const_rel c c' : RT c c' -> dual_rel RT (const c) (const c').
Proof. intros. split; cbn; rel_arith HA. Qed.

Lemma variable_rel x x' : RT x x' -> dual_rel RT (variable x) (variable x').
Proof. intros. split; cbn; rel_arith HA. Qed.

(** Adam's update respects it too. *)
Lemma pow_nat_rel b b' n : RT b b' -> RT (pow_nat b n) (pow_nat b' n).
Proof. intros. induction n; cbn; rel_arith HA. Qed.

Lemma adam_apply_rel s s' g g' v v' :
  adam_rel RT s s' -> RT g g' -> RT v v' ->
  adam_rel RT (fst (adam_apply s g v)) (fst (adam_apply s' g' v')) /\
  RT (snd (adam_apply s g v)) (snd (adam_apply s' g' v')).
Proof.
  intros (Hi & Hm & Hv) Hg Hx. unfold adam_apply, adam_rel, sq.
  cbv zeta. cbn [fst snd iterations adam_m adam_v]. rewrite Hi.
  assert (H1 := fun n => @pow_nat_rel beta_1 beta_1 n ltac:(unfold beta_1; rel_arith HA)).
  assert (H2 := fun n => @pow_nat_rel beta_2 beta_2 n ltac:(unfold beta_2; rel_arith HA)).
  unfold learning_rate, beta_1, beta_2, epsilon in *.
  repeat split; rel_arith HA; auto.
Qed.

End ArithParametricity.

Section SolverParametricity.
Local Open Scope tf_scope.
Context {T1 B1 T2 B2 : Type}.
Context {A1 : Arith T1 B1} {A2 : Arith T2 B2}.
Context {I1 : IEEE T1 B1} {I2 : IEEE T2 B2}.
Context {S1 : Shaped T1} {S2 : Shaped T2}.
Variable RT : T1 -> T2 -> Prop.
Variable RB : B1 -> B2 -> Prop.
Variable Rn : nat -> Prop.
Hypothesis HA : ArithRel RT RB A1 A2.
Hypothesis HI : IEEERel RT RB I1 I2.
Hypothesis HS : ShapedRel RT Rn S1 S2.

Variable O1 : Optimizer T1.
Variable O2 : Optimizer T2.
Variable RO : opt_variables O1 -> opt_variables O2 -> Prop.
Hypothesis HO : forall s s' g g' v v',
  RO s s' -> RT g g' -> RT v v' ->
  RO (fst (apply_gradients O1 s g v)) (fst (apply_gradients O2 s' g' v')) /\
  RT (snd (apply_gradients O1 s g v)) (snd (apply_gradients O2 s' g' v')).

Let RS (st : opt_variables O1 * T1) (st' : opt_variables O2 * T2) : Prop :=
  RO (fst st) (fst st') /\ RT (snd st) (snd st').

Lemma minimum_rel a a' b b' : RT a a' -> RT b b' -> RT (minimum a b) (minimum a' b').
Proof.
  intros. unfold minimum.
  repeat first [ assumption | apply (rel_where HA) | apply (rel_is_nan HI)
               | apply (rel_ltb HA) ].
Qed.

Lemma maximum_rel a a' b b' : RT a a' -> RT b b' -> RT (maximum a b) (maximum a' b').
Proof.
  intros. unfold maximum.
  repeat first [ assumption | apply (rel_where HA) | apply (rel_is_nan HI)
               | apply (rel_ltb HA) ].
Qed.

Lemma vx_constrain_rel vx vx' lepx lepx' mc mc' :
  RT vx vx' -> RT lepx lepx' -> RT mc mc' ->
  RT (vx_constrain vx lepx mc) (vx_constrain vx' lepx' mc').
Proof.
  intros. unfold vx_constrain, clip_by_value, sq. cbv zeta.
  assert (Hinf := rel_inf HI).
  apply (rel_where HA); [ rel_arith HA | | ];
    apply maximum_rel; try apply minimum_rel; rel_arith HA.
Qed.

Lemma gradient_rel (loss : dual T1 -> dual T1) (loss' : dual T2 -> dual T2) n n' vx vx' :
  (forall a x, dual_rel RT a x -> dual_rel RT (loss a) (loss' x)) ->
  Rn n -> RT vx vx' -> RT (gradient loss n vx) (gradient loss' n' vx').
Proof.
  intros Hl Hn Hv. unfold gradient.
  apply (rel_assign_prefix HS); [ assumption | apply (rel_zeros_like HS), Hv | ].
  apply Hl, (variable_rel HA), (rel_take HS); assumption.
Qed.

Lemma optimize_iter_rel metx metx' mety mety' lepx lepx' lepy lepy' mc mc' sign sign' st st' :
  Rn (shape0 metx) ->
  RT metx metx' -> RT mety mety' -> RT lepx lepx' -> RT lepy lepy' ->
  RT mc mc' -> RT sign sign' -> RS st st' ->
  RS (optimize_iter O1 metx mety lepx lepy mc sign st)
     (optimize_iter O2 metx' mety' lepx' lepy' mc' sign' st').
Proof.
  intros Hn Hmx Hmy Hlx Hly Hmc Hsg [Ho Hv]. unfold optimize_iter, minimize. cbv zeta.
  match goal with
  | |- RS (fst (apply_gradients O1 ?s ?g ?v), _) (fst (apply_gradients O2 ?s' ?g' ?v'), _) =>
      assert (Hg : RT g g')
  end.
  { apply gradient_rel; auto. intros a x Hax.
    apply (opt_rel (dual_arith_rel HA)); try assumption; apply (const_rel HA); assumption. }
  destruct (HO Ho Hg Hv) as [Ho' Hv'].
  split; cbn [fst snd]; [ exact Ho' | ].
  apply (rel_assign_prefix HS); auto.
  apply vx_constrain_rel; auto. apply (rel_take HS); auto.
Qed.

Lemma optimize_loop_rel metx metx' mety mety' lepx lepx' lepy lepy' mc mc' sign sign' st st' n :
  Rn (shape0 metx) ->
  RT metx metx' -> RT mety mety' -> RT lepx lepx' -> RT lepy lepy' ->
  RT mc mc' -> RT sign sign' -> RS st st' ->
  RS (Nat.iter n (optimize_iter O1 metx mety lepx lepy mc sign) st)
     (Nat.iter n (optimize_iter O2 metx' mety' lepx' lepy' mc' sign') st').
Proof.
  intros. induction n; [ assumption | ].
  rewrite !Nat.iter_succ. apply optimize_iter_rel; assumption.
Qed.

Lemma optimize1_rel o o' vx vx' metx metx' mety mety' lepx lepx' lepy lepy' mc mc' sign sign' :
  Rn (shape0 metx) -> RO o o' -> RT vx vx' ->
  RT metx metx' -> RT mety mety' -> RT lepx lepx' -> RT lepy lepy' ->
  RT mc mc' -> RT sign sign' ->
  RT (fst (optimize1 O1 o vx metx mety lepx lepy mc sign))
     (fst (optimize1 O2 o' vx' metx' mety' lepx' lepy' mc' sign')) /\
  RS (snd (optimize1 O1 o vx metx mety lepx lepy mc sign))
     (snd (optimize1 O2 o' vx' metx' mety' lepx' lepy' mc' sign')).
Proof.
  intros. unfold optimize1. cbv zeta. cbn [fst snd].
  assert (H' : RS (Nat.iter 100 (optimize_iter O1 metx mety lepx lepy mc sign) (o, vx))
                  (Nat.iter 100 (optimize_iter O2 metx' mety' lepx' lepy' mc' sign') (o', vx')))
    by (apply optimize_loop_rel; auto; split; assumption).
  split; [ | exact H' ]. apply (rel_take HS); [ assumption | apply H' ].
Qed.

Lemma optimize2_rel o o' vx vx' metx metx' mety mety' lepx lepx' lepy lepy' mc mc' sign sign' :
  Rn (shape0 metx) -> RO o o' -> RT vx vx' ->
  RT metx metx' -> RT mety mety' -> RT lepx lepx' -> RT lepy lepy' ->
  RT mc mc' -> RT sign sign' ->
  RT (fst (optimize2 O1 o vx metx mety lepx lepy mc sign))
     (fst (optimize2 O2 o' vx' metx' mety' lepx' lepy' mc' sign')) /\
  RS (snd (optimize2 O1 o vx metx mety lepx lepy mc sign))
     (snd (optimize2 O2 o' vx' metx' mety' lepx' lepy' mc' sign')).
Proof.
  intros. unfold optimize2. cbv zeta. cbn [fst snd].
  assert (H' : RS (Nat.iter 100 (optimize_iter O1 metx mety lepx lepy mc sign) (o, vx))
                  (Nat.iter 100 (optimize_iter O2 metx' mety' lepx' lepy' mc' sign') (o', vx')))
    by (apply optimize_loop_rel; auto; split; assumption).
  split; [ | exact H' ]. apply (rel_take HS); [ assumption | apply H' ].
Qed.

Lemma select_branch_rel lepx lepx' lepy lepy' lepz lepz' metx metx' mety mety' mc mc'
    vx1 vx1' vx2 vx2' :
  RT lepx lepx' -> RT lepy lepy' -> RT lepz lepz' -> RT metx metx' -> RT mety mety' ->
  RT mc mc' -> RT vx1 vx1' -> RT vx2 vx2' ->
  triple_rel RT (select_branch lepx lepy lepz metx mety mc vx1 vx2)
                (select_branch lepx' lepy' lepz' metx' mety' mc' vx1' vx2').
Proof.
  intros. unfold select_branch. cbv zeta.
  set (c := (- sq mc / (#4 * lepx))%tf). set (c' := (- sq mc' / (#4 * lepx'))%tf).
  assert (Hc : RT c c') by (unfold c, c', sq; rel_arith HA).
  set (w1 := where_ (is_nan vx1) c vx1). set (w1' := where_ (is_nan vx1') c' vx1').
  set (w2 := where_ (is_nan vx2) c vx2). set (w2' := where_ (is_nan vx2') c' vx2').
  assert (Hw1 : RT w1 w1') by (apply (rel_where HA); auto; apply (rel_is_nan HI); auto).
  assert (Hw2 : RT w2 w2') by (apply (rel_where HA); auto; apply (rel_is_nan HI); auto).
  set (y1 := calc_vy w1 lepx lepy mc #1 true). set (y1' := calc_vy w1' lepx' lepy' mc' #1 true).
  set (y2 := calc_vy w2 lepx lepy mc #(-1) true).
  set (y2' := calc_vy w2' lepx' lepy' mc' #(-1) true).
  assert (Hy1 : RT y1 y1') by (apply (calc_vy_rel HA); auto; apply (rel_lit HA)).
  assert (Hy2 : RT y2 y2') by (apply (calc_vy_rel HA); auto; apply (rel_lit HA)).
  set (d := (shift w1 y1 metx mety <= shift w2 y2 metx mety)%tf).
  set (d' := (shift w1' y1' metx' mety' <= shift w2' y2' metx' mety')%tf).
  assert (Hd : RB d d') by (apply (rel_leb HA); apply (shift_rel HA); auto).
  assert (Hx : RT (where_ d w1 w2) (where_ d' w1' w2')) by (apply (rel_where HA); auto).
  assert (Hy : RT (where_ d y1 y2) (where_ d' y1' y2')) by (apply (rel_where HA); auto).
  unfold triple_rel. cbn [fst snd]. repeat split; auto.
  apply (rel_div HA); [ apply (rel_mul HA); auto; apply (get_k_rel HA); auto | ].
  apply (sq_rel HA), (get_pt_rel HA); auto.
Qed.

Lemma lepton_mass_rel lepe lepe' lepx lepx' lepy lepy' lepz lepz' :
  RT lepe lepe' -> RT lepx lepx' -> RT lepy lepy' -> RT lepz lepz' ->
  RT (lepton_mass lepe lepx lepy lepz) (lepton_mass lepe' lepx' lepy' lepz').
Proof.
  intros. unfold lepton_mass, sq. cbv zeta.
  apply (rel_where HA); [ apply (rel_is_nan HI) | apply (rel_zeros_like HS) | ];
    rel_arith HA.
Qed.

Lemma effective_mc_rel lepe lepe' lepx lepx' lepy lepy' lepz lepz' mc mc' :
  RT lepe lepe' -> RT lepx lepx' -> RT lepy lepy' -> RT lepz lepz' -> RT mc mc' ->
  RT (effective_mc lepe lepx lepy lepz mc) (effective_mc lepe' lepx' lepy' lepz' mc').
Proof.
  intros. unfold effective_mc.
  apply (rel_sqrt HA), (rel_sub HA); apply (sq_rel HA); auto.
  apply lepton_mass_rel; auto.
Qed.

Lemma neutrino_reco_rel lepe lepe' lepx lepx' lepy lepy' lepz lepz' metx metx' mety mety'
    vx1 vx1' vx2 vx2' o1 o1' o2 o2' mc mc' :
  Rn (shape0 metx) ->
  RT lepe lepe' -> RT lepx lepx' -> RT lepy lepy' -> RT lepz lepz' ->
  RT metx metx' -> RT mety mety' -> RT vx1 vx1' -> RT vx2 vx2' ->
  RO o1 o1' -> RO o2 o2' -> RT mc mc' ->
  triple_rel RT
    (fst (neutrino_reco O1 lepe lepx lepy lepz metx mety vx1 vx2 o1 o2 mc))
    (fst (neutrino_reco O2 lepe' lepx' lepy' lepz' metx' mety' vx1' vx2' o1' o2' mc')) /\
  RS (fst (snd (neutrino_reco O1 lepe lepx lepy lepz metx mety vx1 vx2 o1 o2 mc)))
     (fst (snd (neutrino_reco O2 lepe' lepx' lepy' lepz' metx' mety' vx1' vx2' o1' o2' mc'))) /\
  RS (snd (snd (neutrino_reco O1 lepe lepx lepy lepz metx mety vx1 vx2 o1 o2 mc)))
     (snd (snd (neutrino_reco O2 lepe' lepx' lepy' lepz' metx' mety' vx1' vx2' o1' o2' mc'))).
Proof.
  intros Hn Hle Hlx Hly Hlz Hmx Hmy Hv1 Hv2 Ho1 Ho2 Hmc.
  unfold neutrino_reco, neutrino_reco_complex.
  set (m := effective_mc lepe lepx lepy lepz mc).
  set (m' := effective_mc lepe' lepx' lepy' lepz' mc').
  assert (Hm : RT m m') by (apply effective_mc_rel; auto).
  assert (Hr : triple_rel RT (neutrino_reco_real lepe lepx lepy lepz metx mety m)
                          (neutrino_reco_real lepe' lepx' lepy' lepz' metx' mety' m'))
    by (apply (neutrino_reco_real_rel HA); assumption).
  assert (Hh : RB (get_h lepx lepy metx mety m <= #1) (get_h lepx' lepy' metx' mety' m' <= #1))
    by (apply (rel_leb HA); [ apply (get_h_rel HA); auto | apply (rel_lit HA) ]).
  assert (H1 : RT (fst (optimize1 O1 o1 vx1 metx mety lepx lepy m #1))
                  (fst (optimize1 O2 o1' vx1' metx' mety' lepx' lepy' m' #1)) /\
               RS (snd (optimize1 O1 o1 vx1 metx mety lepx lepy m #1))
                  (snd (optimize1 O2 o1' vx1' metx' mety' lepx' lepy' m' #1)))
    by (apply optimize1_rel; auto; apply (rel_lit HA)).
  assert (H2 : RT (fst (optimize2 O1 o2 vx2 metx mety lepx lepy m #(-1)))
                  (fst (optimize2 O2 o2' vx2' metx' mety' lepx' lepy' m' #(-1))) /\
               RS (snd (optimize2 O1 o2 vx2 metx mety lepx lepy m #(-1)))
                  (snd (optimize2 O2 o2' vx2' metx' mety' lepx' lepy' m' #(-1))))
    by (apply optimize2_rel; auto; apply (rel_lit HA)).
  revert H1 H2.
  generalize (optimize1 O1 o1 vx1 metx mety lepx lepy m #1)
             (optimize1 O2 o1' vx1' metx' mety' lepx' lepy' m' #1)
             (optimize2 O1 o2 vx2 metx mety lepx lepy m #(-1))
             (optimize2 O2 o2' vx2' metx' mety' lepx' lepy' m' #(-1)).
  intros r1 r1' r2 r2' [Hf1 Hs1] [Hf2 Hs2]. cbv zeta. cbn [fst snd].
  assert (Hc : triple_rel RT
                 (select_branch lepx lepy lepz metx mety m (fst r1) (fst r2))
                 (select_branch lepx' lepy' lepz' metx' mety' m' (fst r1') (fst r2')))
    by (apply select_branch_rel; assumption).
  revert Hr Hc Hh.
  generalize (get_h lepx lepy metx mety m <= #1) (get_h lepx' lepy' metx' mety' m' <= #1).
  generalize (select_branch lepx lepy lepz metx mety m (fst r1) (fst r2))
             (select_branch lepx' lepy' lepz' metx' mety' m' (fst r1') (fst r2')).
  generalize (neutrino_reco_real lepe lepx lepy lepz metx mety m)
             (neutrino_reco_real lepe' lepx' lepy' lepz' metx' mety' m').
  intros [[xr yr] zr] [[xr' yr'] zr'] [[xc yc] zc] [[xc' yc'] zc'] h h'.
  unfold triple_rel. cbn [fst snd].
  intros (? & ? & ?) (? & ? & ?) Hh.
  split; [ | split; assumption ].
  repeat split; apply (rel_where HA); assumption.
Qed.

End SolverParametricity.

(** ** A batch, event by event *)

Section BatchFacts.
Local Open Scope nat_scope.

Lemma nth_error_zip_with {A B C : Type} (f : A -> B -> C) (l1 : list A) (l2 : list B) (i : nat) :
  nth_error (zip_with f l1 l2) i =
  match nth_error l1 i, nth_error l2 i with
  | Some a, Some b => Some (f a b)
  | _, _ => None
  end.
Proof.
  revert l2 i. induction l1 as [|a l1 IH]; intros [|b l2] [|i]; cbn; try reflexivity.
  - destruct (nth_error l1 i); reflexivity.
  - apply IH.
Qed.

Lemma length_zip_with {A B C : Type} (f : A -> B -> C) (l1 : list A) (l2 : list B) :
  length (zip_with f l1 l2) = Nat.min (length l1) (length l2).
Proof.
  revert l2. induction l1 as [|a l1 IH]; intros [|b l2]; cbn; auto.
Qed.

Lemma get_ap {A B : Type} (tf : tensor (A -> B)) (tx : tensor A) (i : nat) :
  get i (ap tf tx) =
  match get i tf, get i tx with
  | Some f, Some x => Some (f x)
  | _, _ => None
  end.
Proof.
  destruct tf as [f|fs], tx as [x|l]; cbn.
  - reflexivity.
  - rewrite nth_error_map. destruct (nth_error l i); reflexivity.
  - rewrite nth_error_map. destruct (nth_error fs i); reflexivity.
  - apply nth_error_zip_with.
Qed.

Lemma at_event_lift1 {A B : Type} (f : A -> B) i a x :
  at_event i a x -> at_event i (lift1 f a) (f x).
Proof. unfold at_event, lift1. intros H. rewrite get_ap, H. reflexivity. Qed.

Lemma at_event_lift2 {A B C : Type} (f : A -> B -> C) i a x b y :
  at_event i a x -> at_event i b y -> at_event i (lift2 f a b) (f x y).
Proof.
  unfold at_event, lift2. intros Ha Hb. rewrite !get_ap, Ha, Hb. reflexivity.
Qed.

Lemma at_event_lift3 {A B C D : Type} (f : A -> B -> C -> D) i a x b y c z :
  at_event i a x -> at_event i b y -> at_event i c z ->
  at_event i (lift3 f a b c) (f x y z).
Proof.
  unfold at_event, lift3. intros Ha Hb Hc. rewrite !get_ap, Ha, Hb, Hc. reflexivity.
Qed.

(** The batch reading is related to the reading of each of its events. *)
Lemma tensor_arith_rel {T B : Type} (A : Arith T B) (i : nat) :
  ArithRel (at_event i) (at_event i) (tensor_arith (A:=A)) A.
Proof.
  split; cbn; intros;
    first [ reflexivity
          | apply at_event_lift3; assumption
          | apply at_event_lift2; assumption
          | apply at_event_lift1; assumption ].
Qed.

Lemma tensor_ieee_rel {T B : Type} (A : Arith T B) (I : IEEE T B) (i : nat) :
  IEEERel (at_event i) (at_event i) (tensor_ieee (I:=I)) I.
Proof.
  split; cbn; intros; [ reflexivity | apply at_event_lift1; assumption ].
Qed.

Lemma tensor_shaped_rel (i : nat) :
  ShapedRel (at_event i) (fun n => i < n) (tensor_shaped (T:=float)) float_shaped.
Proof.
  split; cbn; unfold at_event.
  - intros n _ [c|l] x Hn H; cbn in *; [ exact H | ].
    rewrite nth_error_firstn. apply Nat.ltb_lt in Hn. rewrite Hn. exact H.
  - intros n _ [c|lv] x [d|lw] y Hn Hv Hw; cbn in *; try exact Hw.
    + assert (i < length lv) by (apply nth_error_Some; congruence).
      rewrite nth_error_app1 by (rewrite repeat_length; lia).
      rewrite nth_error_repeat by lia. congruence.
    + assert (i < length lw) by (apply nth_error_Some; congruence).
      rewrite nth_error_app1 by (rewrite length_firstn; lia).
      rewrite nth_error_firstn. apply Nat.ltb_lt in Hn. rewrite Hn. exact Hw.
  - intros v x H. apply (at_event_lift1 (fun _ : float => float_of_Z 0)) in H. exact H.
Qed.

End BatchFacts.


Section BatchShapes.
Local Open Scope nat_scope.
Context {A B : Type}.

Lemma vec_at_most_Vec (l : list A) : vec_at_most (length l) (Vec l).
Proof. exists l. split; [ reflexivity | lia ]. Qed.

Lemma vec_at_most_ap_l (n : nat) (tf : tensor (A -> B)) (tx : tensor A) :
  vec_at_most n tf -> vec_at_most n (ap tf tx).
Proof.
  intros (fs & -> & H). destruct tx as [x|l]; cbn; eexists; (split; [ reflexivity | ]).
  - rewrite length_map. exact H.
  - rewrite length_zip_with. lia.
Qed.

Lemma vec_at_most_ap_r (n : nat) (tf : tensor (A -> B)) (tx : tensor A) :
  vec_at_most n tx -> vec_at_most n (ap tf tx).
Proof.
  intros (l & -> & H). destruct tf as [f|fs]; cbn; eexists; (split; [ reflexivity | ]).
  - rewrite length_map. exact H.
  - rewrite length_zip_with. lia.
Qed.

Lemma is_vec_ap_l (tf : tensor (A -> B)) (tx : tensor A) : is_vec tf -> is_vec (ap tf tx).
Proof. intros (fs & ->). destruct tx; cbn; eexists; reflexivity. Qed.

Lemma is_vec_ap_r (tf : tensor (A -> B)) (tx : tensor A) : is_vec tx -> is_vec (ap tf tx).
Proof. intros (l & ->). destruct tf; cbn; eexists; reflexivity. Qed.

(** A vector of at most as many entries as there are events, holding the
    value of each event, is the list of the values of the events. *)
Lemma batch_ext {E : Type} (f : E -> A) (events : list E) (t : tensor A) :
  vec_at_most (length events) t ->
  (forall i ev, nth_error events i = Some ev -> get i t = Some (f ev)) ->
  t = Vec (map f events).
Proof.
  intros (l & -> & Hl) H. f_equal. apply nth_error_ext. intros i.
  rewrite nth_error_map. destruct (nth_error events i) as [ev|] eqn:Hev.
  - apply (H i ev Hev).
  - apply nth_error_None. apply nth_error_None in Hev. lia.
Qed.

Lemma covers_is_vec_shape0 (n : nat) (t : tensor A) :
  is_vec t -> covers n t -> n <= tensor_shape0 t.
Proof.
  intros (l & ->) H. cbn. destruct n as [|n]; [ lia | ].
  destruct (H n) as [x Hx]; [ lia | ]. cbn in Hx.
  assert (n < length l) by (apply nth_error_Some; congruence). lia.
Qed.

Lemma shape0_covers (n : nat) (t : tensor A) : n <= tensor_shape0 t -> covers n t.
Proof.
  intros H i Hi. destruct t as [x|l]; cbn in *.
  - eexists; reflexivity.
  - destruct (nth_error l i) eqn:Hl; [ eexists; reflexivity | ].
    apply nth_error_None in Hl. lia.
Qed.

End BatchShapes.

Section TensorShapes.
Local Open Scope tf_scope.

Lemma vec_at_most_where_l (n : nat) (c : tensor bool) (a b : tensor float) :
  vec_at_most n a -> vec_at_most n (where_ c a b).
Proof.
  intros H. cbn [where_ tensor_arith]. unfold lift3.
  apply vec_at_most_ap_l, vec_at_most_ap_r, H.
Qed.

Lemma vec_at_most_mul_r (n : nat) (a b : tensor float) :
  vec_at_most n b -> vec_at_most n (a * b).
Proof.
  intros H. cbn [mul tensor_arith]. unfold lift2. apply vec_at_most_ap_r, H.
Qed.

Lemma vec_at_most_add_l (n : nat) (a b : tensor float) :
  vec_at_most n a -> vec_at_most n (a + b).
Proof.
  intros H. cbn [add tensor_arith]. unfold lift2.
  apply vec_at_most_ap_l, vec_at_most_ap_r, H.
Qed.

Lemma vec_at_most_column {E : Type} (f : E -> float) (events : list E) :
  vec_at_most (length events) (Vec (map f events)).
Proof. exists (map f events). split; [ reflexivity | rewrite length_map; lia ]. Qed.

End TensorShapes.

Section BatchCall.
Local Open Scope nat_scope.
Variable mc : float.
Variable events : list (Inputs float).

Lemma column_at_event (f : Inputs float -> float) (i : nat) (ev : Inputs float) :
  nth_error events i = Some ev -> at_event i (Vec (map f events)) (f ev).
Proof. unfold at_event. cbn. rewrite nth_error_map. intros ->. reflexivity. Qed.

Lemma adam_apply_at_event (i : nat) s s' g g' v v' :
  adam_rel (at_event i) s s' -> at_event i g g' -> at_event i v v' ->
  adam_rel (at_event i)
    (fst (apply_gradients (Adam (T:=tensor float)) s g v))
    (fst (apply_gradients (Adam (T:=float)) s' g' v')) /\
  at_event i
    (snd (apply_gradients (Adam (T:=tensor float)) s g v))
    (snd (apply_gradients (Adam (T:=float)) s' g' v')).
Proof. apply (adam_apply_rel (@tensor_arith_rel float bool float_arith i)). Qed.

(** The combiner on the batch, seen at event [i], is the combiner on the
    event. *)
Lemma neutrino_reco_at_event (i : nat) (ev : Inputs float)
    (v1 v2 : tensor float) (o1 o2 : adam_variables (tensor float)) :
  nth_error events i = Some ev ->
  at_event i v1 (c_metx ev) -> at_event i v2 (c_metx ev) ->
  adam_rel (at_event i) o1 adam_fresh -> adam_rel (at_event i) o2 adam_fresh ->
  let c := columns events in
  let r := neutrino_reco (Adam (T:=tensor float))
             (c_lepe c) (c_lepx c) (c_lepy c) (c_lepz c) (c_metx c) (c_mety c)
             v1 v2 o1 o2 (Scalar mc) in
  triple_rel (at_event i) (fst r) (event_reco mc ev) /\
  (exists s1 x1 s2 x2,
     adam_rel (at_event i) (fst (fst (snd r))) s1 /\
     at_event i (snd (fst (snd r))) x1 /\
     adam_rel (at_event i) (fst (snd (snd r))) s2 /\
     at_event i (snd (snd (snd r))) x2).
Proof.
  intros Hev Hv1 Hv2 Ho1 Ho2 c r.
  assert (Hi : i < length events) by (apply nth_error_Some; congruence).
  unfold event_reco.
  generalize (@neutrino_reco_rel _ _ _ _ _ _ _ _ _ _
           (at_event i) (at_event i) (fun n => i < n)
           (@tensor_arith_rel float bool float_arith i)
           (@tensor_ieee_rel float bool float_arith float_ieee i)
           (tensor_shaped_rel i)
           (Adam (T:=tensor float)) (Adam (T:=float))
           (adam_rel (at_event i)) (@adam_apply_at_event i)
           (c_lepe c) (c_lepe ev) (c_lepx c) (c_lepx ev) (c_lepy c) (c_lepy ev)
           (c_lepz c) (c_lepz ev) (c_metx c) (c_metx ev) (c_mety c) (c_mety ev)
           v1 (c_metx ev) v2 (c_metx ev) o1 adam_fresh o2 adam_fresh (Scalar mc) mc).
  fold r.
  generalize (neutrino_reco (Adam (T:=float))
             (c_lepe ev) (c_lepx ev) (c_lepy ev) (c_lepz ev) (c_metx ev) (c_mety ev)
             (c_metx ev) (c_metx ev) adam_fresh adam_fresh mc).
  intros r' H.
  destruct H as (Ht & (Ha & Hb) & (Hc & Hd));
    try assumption; try (apply column_at_event; assumption).
  - cbn. rewrite length_map. exact Hi.
  - reflexivity.
  - split; [ exact Ht | ]. do 4 eexists.
    split; [ exact Ha | split; [ exact Hb | split; [ exact Hc | exact Hd ] ] ].
Qed.

Lemma is_vec_optimize_iter (metx mety lepx lepy m sign : tensor float)
    (st : adam_variables (tensor float) * tensor float) :
  is_vec (snd st) ->
  is_vec (snd (optimize_iter (Adam (T:=tensor float)) metx mety lepx lepy m sign st)).
Proof.
  destruct st as [o v]. cbn [snd]. intros Hv.
  unfold optimize_iter, minimize. cbv zeta. cbn [fst snd apply_gradients Adam].
  unfold adam_apply. cbv zeta. cbn [fst snd].
  match goal with
  | |- is_vec (assign_prefix (sub v ?Z) ?n _) => generalize Z; intros z
  end.
  assert (Hs : is_vec (sub v z)).
  { cbn [sub tensor_arith]. unfold lift2. apply is_vec_ap_l, is_vec_ap_r, Hv. }
  destruct Hs as [l ->].
  match goal with
  | |- is_vec (assign_prefix _ ?n ?X) => generalize X; intros x
  end.
  destruct x; cbn [assign_prefix tensor_shaped tensor_assign_prefix];
    eexists; reflexivity.
Qed.

Lemma is_vec_optimize_loop (metx mety lepx lepy m sign : tensor float)
    (st : adam_variables (tensor float) * tensor float) (n : nat) :
  is_vec (snd st) ->
  is_vec (snd (Nat.iter n (optimize_iter (Adam (T:=tensor float)) metx mety lepx lepy m sign) st)).
Proof.
  intros H. induction n; [ exact H | ].
  rewrite Nat.iter_succ. apply is_vec_optimize_iter, IHn.
Qed.

Lemma is_vec_seed (v : tensor float) (n : nat) (l : list float) :
  is_vec (assign_prefix v n (Vec l)).
Proof. destruct v; cbn; eexists; reflexivity. Qed.

(** A call on the batch is, for each event, the evaluation of the event;
    it leaves the layer ready for the next call. *)
Lemma call_batch (L : NeutrinoReco (Adam (T:=tensor float))) :
  mass_constraint L = Scalar mc ->
  slots_cover (length events) L ->
  length events <= shape0 (vx1 L) ->
  length events <= shape0 (vx2 L) ->
  exists L',
    call L (columns events) = Some (batch_outputs mc events, L') /\
    mass_constraint L' = Scalar mc /\
    slots_cover (length events) L' /\
    length events <= shape0 (vx1 L') /\
    length events <= shape0 (vx2 L').
Proof.
  intros Hmc (Hm1 & Hv1 & Hm2 & Hv2) Hc1 Hc2.
  assert (Hn : shape0 (c_metx (columns events)) = length events)
    by (cbn; apply length_map).
  pose proof (call_unfold L (columns events)) as Hcall. cbv zeta in Hcall.
  rewrite Hn, Hmc in Hcall. specialize (Hcall Hc1 Hc2).
  cbn [opt_zeros Adam] in Hcall.
  set (c := columns events) in *.
  set (v1 := assign_prefix (vx1 L) (length events) (c_metx c)) in *.
  set (v2 := assign_prefix (vx2 L) (length events) (c_metx c)) in *.
  set (o1 := adam_zeros (opt1 L)) in *. set (o2 := adam_zeros (opt2 L)) in *.
  assert (Hrel : forall i ev, nth_error events i = Some ev ->
            at_event i v1 (c_metx ev) /\ at_event i v2 (c_metx ev) /\
            adam_rel (at_event i) o1 adam_fresh /\ adam_rel (at_event i) o2 adam_fresh).
  { intros i ev Hev.
    assert (Hi : i < length events) by (apply nth_error_Some; congruence).
    destruct (shape0_covers _ Hc1 Hi) as [x1 Hx1], (shape0_covers _ Hc2 Hi) as [x2 Hx2].
    destruct (Hm1 i Hi) as [a1 Ha1], (Hv1 i Hi) as [b1 Hb1],
             (Hm2 i Hi) as [a2 Ha2], (Hv2 i Hi) as [b2 Hb2].
    pose proof (column_at_event (@c_metx float) i Hev) as Hmx.
    split; [ | split; [ | split ] ].
    + unfold v1. eapply (rel_assign_prefix (tensor_shaped_rel i) _ 1%nat); eassumption.
    + unfold v2. eapply (rel_assign_prefix (tensor_shaped_rel i) _ 1%nat); eassumption.
    + unfold o1, adam_zeros, adam_rel. cbn [iterations adam_m adam_v adam_fresh].
      split; [ reflexivity | split ];
        eapply (rel_zeros_like (tensor_shaped_rel i)); eassumption.
    + unfold o2, adam_zeros, adam_rel. cbn [iterations adam_m adam_v adam_fresh].
      split; [ reflexivity | split ];
        eapply (rel_zeros_like (tensor_shaped_rel i)); eassumption. }
  pose proof (fun i ev (Hev : nth_error events i = Some ev) =>
    match Hrel i ev Hev with
    | conj H1 (conj H2 (conj H3 H4)) => @neutrino_reco_at_event i ev v1 v2 o1 o2 Hev H1 H2 H3 H4
    end) as Hrun.
  cbv zeta in Hrun. fold c in Hrun.
  pose proof (neutrino_reco_vx (Adam (T:=tensor float))
                (c_lepe c) (c_lepx c) (c_lepy c) (c_lepz c) (c_metx c) (c_mety c)
                v1 v2 o1 o2 (Scalar mc)) as Ex.
  pose proof (neutrino_reco_vy (Adam (T:=tensor float))
                (c_lepe c) (c_lepx c) (c_lepy c) (c_lepz c) (c_metx c) (c_mety c)
                v1 v2 o1 o2 (Scalar mc)) as Ey.
  pose proof (neutrino_reco_vz (Adam (T:=tensor float))
                (c_lepe c) (c_lepx c) (c_lepy c) (c_lepz c) (c_metx c) (c_mety c)
                v1 v2 o1 o2 (Scalar mc)) as Ez.
  pose proof (neutrino_reco_state1 (Adam (T:=tensor float))
                (c_lepe c) (c_lepx c) (c_lepy c) (c_lepz c) (c_metx c) (c_mety c)
                v1 v2 o1 o2 (Scalar mc)) as E1.
  pose proof (neutrino_reco_state2 (Adam (T:=tensor float))
                (c_lepe c) (c_lepx c) (c_lepy c) (c_lepz c) (c_metx c) (c_mety c)
                v1 v2 o1 o2 (Scalar mc)) as E2.
  cbv zeta in Ex, Ey, Ez, E1, E2.
  assert (Hvec1 : is_vec (snd (fst (snd (neutrino_reco (Adam (T:=tensor float))
                (c_lepe c) (c_lepx c) (c_lepy c) (c_lepz c) (c_metx c) (c_mety c)
                v1 v2 o1 o2 (Scalar mc))))))
    by (rewrite E1; apply is_vec_optimize_loop, is_vec_seed).
  assert (Hvec2 : is_vec (snd (snd (snd (neutrino_reco (Adam (T:=tensor float))
                (c_lepe c) (c_lepx c) (c_lepy c) (c_lepz c) (c_metx c) (c_mety c)
                v1 v2 o1 o2 (Scalar mc))))))
    by (rewrite E2; apply is_vec_optimize_loop, is_vec_seed).
  clear E1 E2.
  assert (Sx : vec_at_most (length events) (fst (fst (fst (neutrino_reco (Adam (T:=tensor float))
                (c_lepe c) (c_lepx c) (c_lepy c) (c_lepz c) (c_metx c) (c_mety c)
                v1 v2 o1 o2 (Scalar mc))))))
    by (rewrite Ex; apply vec_at_most_where_l, vec_at_most_column).
  assert (Sy : vec_at_most (length events) (snd (fst (fst (neutrino_reco (Adam (T:=tensor float))
                (c_lepe c) (c_lepx c) (c_lepy c) (c_lepz c) (c_metx c) (c_mety c)
                v1 v2 o1 o2 (Scalar mc))))))
    by (rewrite Ey; apply vec_at_most_where_l, vec_at_most_column).
  assert (Sz : vec_at_most (length events) (snd (fst (neutrino_reco (Adam (T:=tensor float))
                (c_lepe c) (c_lepx c) (c_lepy c) (c_lepz c) (c_metx c) (c_mety c)
                v1 v2 o1 o2 (Scalar mc)))))
    by (rewrite Ez, neutrino_reco_real_vz; cbv zeta;
        apply vec_at_most_where_l, vec_at_most_where_l, vec_at_most_mul_r,
              vec_at_most_add_l, vec_at_most_column).
  clear Ex Ey Ez.
  revert Hcall Hrun Hvec1 Hvec2 Sx Sy Sz.
  generalize (neutrino_reco (Adam (T:=tensor float))
                (c_lepe c) (c_lepx c) (c_lepy c) (c_lepz c) (c_metx c) (c_mety c)
                v1 v2 o1 o2 (Scalar mc)).
  intros [[[x y] z] [[s1 w1] [s2 w2]]]. cbn [fst snd].
  intros Hcall Hrun Hvec1 Hvec2 Sx Sy Sz.
  assert (Hst : forall i, i < length events ->
            exists t1 x1 t2 x2,
              adam_rel (at_event i) s1 t1 /\ at_event i w1 x1 /\
              adam_rel (at_event i) s2 t2 /\ at_event i w2 x2).
  { intros i Hi. destruct (nth_error events i) as [ev|] eqn:Hev;
      [ | apply nth_error_None in Hev; lia ].
    apply (Hrun i ev Hev). }
  eexists. split; [ | split; [ | split; [ | split ] ] ].
  - rewrite Hcall. unfold batch_outputs. do 4 f_equal.
    + apply batch_ext; [ exact Sx | ].
      intros i ev Hev. apply (Hrun i ev Hev).
    + apply batch_ext; [ exact Sy | ].
      intros i ev Hev. apply (Hrun i ev Hev).
    + apply batch_ext; [ exact Sz | ].
      intros i ev Hev. apply (Hrun i ev Hev).
  - reflexivity.
  - unfold slots_cover. cbn [opt1 opt2].
    split; [ | split; [ | split ] ]; intros i Hi;
      destruct (Hst i Hi) as (t1 & x1 & t2 & x2 & (_ & Ha & Hb) & _ & (_ & Hc & Hd) & _);
      eexists; eassumption.
  - cbn [vx1]. apply covers_is_vec_shape0; [ exact Hvec1 | ].
    intros i Hi. destruct (Hst i Hi) as (t1 & x1 & t2 & x2 & _ & Hx & _).
    eexists; exact Hx.
  - cbn [vx2]. apply covers_is_vec_shape0; [ exact Hvec2 | ].
    intros i Hi. destruct (Hst i Hi) as (t1 & x1 & t2 & x2 & _ & _ & _ & Hx).
    eexists; exact Hx.
Qed.

End BatchCall.

(** ** The batch evaluation *)

Section BatchEvaluation.
Local Open Scope nat_scope.

Lemma build_ready (mc : float) (init1 init2 : list float) (n : nat) :
  n <= length init1 -> n <= length init2 -> ready n mc (build mc init1 init2).
Proof.
  intros H1 H2. unfold ready, build, slots_cover.
  cbn [mass_constraint opt1 opt2 vx1 vx2 adam_m adam_v].
  split; [ reflexivity | ].
  split; [ | split; assumption ].
  repeat split; apply shape0_covers; cbn; rewrite length_map; assumption.
Qed.

Lemma get3_batch_outputs (mc : float) (events : list (Inputs float)) (i : nat) :
  get3 i (batch_outputs mc events) = option_map (event_reco mc) (nth_error events i).
Proof.
  unfold get3, batch_outputs. cbn [fst snd get]. rewrite !nth_error_map.
  destruct (nth_error events i) as [ev|]; [ | reflexivity ].
  cbn [option_map]. generalize (event_reco mc ev). intros [[x y] z]. reflexivity.
Qed.

Lemma call_ready (mc : float) (events : list (Inputs float))
    (L : NeutrinoReco (Adam (T:=tensor float))) :
  ready (length events) mc L ->
  exists L', call L (columns events) = Some (batch_outputs mc events, L') /\
             ready (length events) mc L'.
Proof.
  intros (H1 & H2 & H3 & H4).
  destruct (@call_batch mc events L H1 H2 H3 H4) as (L' & E & H).
  exists L'. split; [ exact E | exact H ].
Qed.

(** C1, as the code has it: in a batch evaluation the triple of every event
    is the analytic triple of the event when its discriminant satisfies
    [h <= 1] and its numeric triple otherwise, that is when [h > 1] or when
    [h] is NaN. *)
Theorem combiner_selects_by_discriminant (mc : float) (events : list (Inputs float))
    (L : NeutrinoReco (Adam (T:=tensor float))) (i : nat) (ev : Inputs float) :
  ready (length events) mc L ->
  nth_error events i = Some ev ->
  exists out L',
    call L (columns events) = Some (out, L') /\
    get3 i out =
      Some (if PrimFloat.leb (event_h mc ev) 1
            then analytic_triple mc ev else numeric_triple mc ev) /\
    (PrimFloat.leb (event_h mc ev) 1 = false <->
     PrimFloat.ltb 1 (event_h mc ev) = true \/ PrimFloat.is_nan (event_h mc ev) = true).
Proof.
  intros HL Hev. destruct (@call_ready mc events L HL) as (L' & E & _).
  exists (batch_outputs mc events), L'. split; [ exact E | ]. split.
  - rewrite get3_batch_outputs, Hev. cbn [option_map]. f_equal. apply event_reco_select.
  - rewrite leb_false_iff. change (PrimFloat.is_nan 1) with false.
    split; [ intros [H | [H | H]]; auto; discriminate | intros [H | H]; auto ].
Qed.

Lemma combiner_selects_by_discriminant_witness :
  exists out L',
    call example_layer (columns example_batch) = Some (out, L') /\
    get3 1 out =
      Some (if PrimFloat.leb (event_h W_mass heavy_event) 1
            then analytic_triple W_mass heavy_event else numeric_triple W_mass heavy_event).
Proof.
  destruct (@combiner_selects_by_discriminant W_mass example_batch example_layer 1 heavy_event)
    as (out & L' & E & H & _).
  - apply build_ready; cbn; lia.
  - reflexivity.
  - exists out, L'. split; [ exact E | exact H ].
Defined.

(** What a call starts from: the first entries of both variables are
    [metx], and the optimizers are zeroed. *)
Lemma seeded_slice (v : tensor float) (l : list float) :
  take (length l) (assign_prefix v (length l) (Vec l)) = Vec l.
Proof.
  destruct v as [c|lv]; cbn; f_equal.
  - apply firstn_all.
  - rewrite firstn_all, firstn_app, firstn_all, Nat.sub_diag, firstn_0. apply app_nil_r.
Qed.

Lemma call_starts_fresh (L : NeutrinoReco (Adam (T:=tensor float)))
    (events : list (Inputs float)) :
  let c := columns events in
  let n := shape0 (c_metx c) in
  let L0 := reset_optimizer L in
  take n (assign_prefix (vx1 L0) n (c_metx c)) = c_metx c /\
  take n (assign_prefix (vx2 L0) n (c_metx c)) = c_metx c /\
  iterations (opt1 L0) = 0%Z /\ iterations (opt2 L0) = 0%Z /\
  forall i x, get i (adam_m (opt1 L0)) = Some x \/ get i (adam_v (opt1 L0)) = Some x \/
              get i (adam_m (opt2 L0)) = Some x \/ get i (adam_v (opt2 L0)) = Some x ->
              x = 0%float.
Proof.
  intros c n L0. repeat split; try apply seeded_slice.
  intros i x H. unfold L0, reset_optimizer in H.
  cbn [opt1 opt2 opt_zeros Adam adam_zeros adam_m adam_v zeros_like tensor_shaped] in H.
  unfold lift1 in H. rewrite !get_ap in H. cbn [get] in H.
  destruct H as [H | [H | [H | H]]];
    match type of H with
    | context [get i ?t] => destruct (get i t)
    end; try discriminate H; injection H as <-; reflexivity.
Qed.

(** C6: calling the layer twice in succession with the same batch gives the
    same outputs both times, and any layer that holds the batch gives these
    outputs: what a call returns does not depend on the state it finds,
    because it starts from zeroed optimizers and from iterates seeded with
    [metx]. *)
Theorem call_twice_same_outputs (mc : float) (events : list (Inputs float))
    (L : NeutrinoReco (Adam (T:=tensor float))) :
  ready (length events) mc L ->
  exists out L1 L2,
    call L (columns events) = Some (out, L1) /\
    call L1 (columns events) = Some (out, L2) /\
    (forall K, ready (length events) mc K ->
       exists K', call K (columns events) = Some (out, K')).
Proof.
  intros HL. destruct (@call_ready mc events L HL) as (L1 & E1 & HL1).
  destruct (@call_ready mc events L1 HL1) as (L2 & E2 & _).
  exists (batch_outputs mc events), L1, L2. split; [ exact E1 | ]. split; [ exact E2 | ].
  intros K HK. destruct (@call_ready mc events K HK) as (K' & E & _). exists K'. exact E.
Qed.

Lemma call_twice_same_outputs_witness :
  exists out L1 L2,
    call example_layer (columns example_batch) = Some (out, L1) /\
    call L1 (columns example_batch) = Some (out, L2).
Proof.
  destruct (@call_twice_same_outputs W_mass example_batch example_layer)
    as (out & L1 & L2 & E1 & E2 & _).
  - apply build_ready; cbn; lia.
  - exists out, L1, L2. split; [ exact E1 | exact E2 ].
Defined.

(** C8: a batch with an event whose lepton is heavier than the mass
    constraint ([mc^2 - lepm^2] is negative) is evaluated all the same: the
    call returns a triple for every event, the triple of that event is NaN
    in its three components, and the triples of the other events are those
    of any batch that differs in that event only. *)
Theorem heavy_lepton_gives_nan_triple (mc : float) (events : list (Inputs float))
    (L : NeutrinoReco (Adam (T:=tensor float))) (i : nat) (ev : Inputs float) :
  ready (length events) mc L ->
  nth_error events i = Some ev ->
  PrimFloat.ltb
    (sq mc - sq (lepton_mass (c_lepe ev) (c_lepx ev) (c_lepy ev) (c_lepz ev)))%tf 0 = true ->
  exists lx ly lz L',
    call L (columns events) = Some ((Vec lx, Vec ly, Vec lz), L') /\
    length lx = length events /\ length ly = length events /\ length lz = length events /\
    get3 i (Vec lx, Vec ly, Vec lz) = Some (nan, nan, nan) /\
    (forall events' : list (Inputs float),
       length events' = length events ->
       (forall j, j <> i -> nth_error events' j = nth_error events j) ->
       exists out' L'',
         call L (columns events') = Some (out', L'') /\
         forall j, j <> i -> get3 j out' = get3 j (Vec lx, Vec ly, Vec lz)).
Proof.
  intros HL Hev Hneg. destruct (@call_ready mc events L HL) as (L' & E & _).
  unfold batch_outputs in E.
  do 3 eexists. exists L'. split; [ exact E | ].
  rewrite !length_map. repeat split.
  - change (get3 i (batch_outputs mc events) = Some (nan, nan, nan)).
    rewrite get3_batch_outputs, Hev. cbn [option_map]. f_equal.
    apply (@event_reco_nan mc ev Hneg).
  - intros events' Hlen Hsame.
    rewrite <- Hlen in HL. destruct (@call_ready mc events' L HL) as (L'' & E' & _).
    exists (batch_outputs mc events'), L''. split; [ exact E' | ].
    intros j Hj.
    change (get3 j (batch_outputs mc events') = get3 j (batch_outputs mc events)).
    rewrite !get3_batch_outputs, (Hsame j Hj). reflexivity.
Qed.

Lemma heavy_lepton_gives_nan_triple_witness :
  PrimFloat.ltb W_mass (lepton_mass 100%float 3%float 4%float 0%float) = true /\
  exists lx ly lz L',
    call example_layer (columns example_batch) = Some ((Vec lx, Vec ly, Vec lz), L') /\
    length lx = 3 /\ get3 1 (Vec lx, Vec ly, Vec lz) = Some (nan, nan, nan).
Proof.
  split; [ vm_compute; reflexivity | ].
  destruct (@heavy_lepton_gives_nan_triple W_mass example_batch example_layer 1 heavy_event)
    as (lx & ly & lz & L' & E & Hx & _ & _ & H & _).
  - apply build_ready; cbn; lia.
  - reflexivity.
  - vm_compute. reflexivity.
  - exists lx, ly, lz, L'. split; [ exact E | ]. split; [ exact Hx | exact H ].
Defined.

End BatchEvaluation.

(** * Further properties *)

(** ** The solvers in exact arithmetic *)

Section ExactSolver.
Local Open Scope R_scope.

Lemma sq_get_pt (px py : R) : sq (get_pt px py) = px * px + py * py.
Proof.
  unfold get_pt, sq. cbn [add mul sqrt real_arith].
  apply sqrt_sqrt. apply Rplus_le_le_0_compat; apply Rle_0_sqr.
Qed.

Lemma get_h_exact (lepx lepy metx mety mc : R) :
  get_k lepx lepy metx mety mc <> 0 ->
  get_h lepx lepy metx mety mc * sq (get_k lepx lepy metx mety mc) =
  (lepx * lepx + lepy * lepy) * (metx * metx + mety * mety).
Proof.
  intros Hk. unfold get_h. cbv zeta. rewrite <- (sq_get_pt lepx lepy), <- (sq_get_pt metx mety).
  generalize (get_pt lepx lepy) (get_pt metx mety). revert Hk.
  generalize (get_k lepx lepy metx mety mc). intros k Hk p q.
  cbv [sq add mul div real_arith]. field. exact Hk.
Qed.

Lemma root_on_mass_shell (lepe lepz P Mt k r sigma : R) :
  lepe * lepe = P + lepz * lepz -> P <> 0 -> k <> 0 ->
  (1 - r * r) * (k * k) = P * Mt -> sigma * sigma = 1 ->
  let vz := k / P * (lepz + sigma * (lepe * r)) in
  lepe * lepe * (Mt + vz * vz) = (k + lepz * vz) * (k + lepz * vz).
Proof.
  intros He HP Hk Hh Hs vz.
  assert (HM : Mt = (1 - r * r) * (k * k) / P) by (rewrite Hh; field; exact HP).
  subst vz. rewrite HM.
  apply (Rmult_eq_reg_l (P * P)); [ | apply Rmult_integral_contrapositive_currified; assumption ].
  transitivity (lepe * lepe * (k * k) * ((1 - r * r) * P + lepz * lepz + 2 * sigma * lepz * lepe * r
                  + (sigma * sigma) * (lepe * lepe) * (r * r))).
  { field. exact HP. }
  transitivity ((k * k) * ((P + lepz * lepz + sigma * lepz * lepe * r) * (P + lepz * lepz + sigma * lepz * lepe * r))).
  2:{ field. exact HP. }
  rewrite Hs.
  assert (HPe : P = lepe * lepe - lepz * lepz) by lra.
  rewrite HPe.
  transitivity (lepe * lepe * (k * k) * (lepe * lepe + 2 * sigma * lepz * lepe * r + 1 * (lepz * lepz) * (r * r))).
  { ring. }
  rewrite <- Hs. ring.
Qed.

Lemma get_h_nonneg (lepx lepy metx mety mc : R) : 0 <= get_h lepx lepy metx mety mc.
Proof. unfold get_h. cbv zeta. unfold sq. cbn [mul real_arith]. apply Rle_0_sqr. Qed.

(** X1: for a massless lepton ([lepe >= 0], [lepe^2 = lepx^2 + lepy^2 +
    lepz^2]) with non-zero transverse momentum, [k > 0] and [h <= 1], the
    [vz] of the analytic solver solves the mass constraint: with the
    neutrino energy [sqrt (vx^2 + vy^2 + vz^2)], twice the Minkowski product
    of lepton and neutrino is [mc^2]. *)
Theorem analytic_solution_on_mass_shell (lepe lepx lepy lepz vx vy mc : R) :
  0 <= lepe ->
  lepe * lepe = lepx * lepx + lepy * lepy + lepz * lepz ->
  lepx * lepx + lepy * lepy <> 0 ->
  0 < get_k lepx lepy vx vy mc ->
  get_h lepx lepy vx vy mc <= 1 ->
  let vz := snd (neutrino_reco_real lepe lepx lepy lepz vx vy mc) in
  sq lepe * (sq vx + sq vy + sq vz) = sq (get_k lepx lepy vx vy mc + lepz * vz) /\
  2 * (lepe * R_sqrt.sqrt (sq vx + sq vy + sq vz) - lepx * vx - lepy * vy - lepz * vz) = sq mc.
Proof.
  intros Hle He HP Hk0 Hh vz.
  assert (Hk : get_k lepx lepy vx vy mc <> 0) by lra.
  pose proof (@get_h_exact lepx lepy vx vy mc Hk) as Hhk.
  pose proof (get_h_nonneg lepx lepy vx vy mc) as Hh0.
  assert (Hkdef : get_k lepx lepy vx vy mc = mc * mc / 2 + lepx * vx + lepy * vy) by reflexivity.
  subst vz. rewrite neutrino_reco_real_vz. cbv zeta. rewrite sq_get_pt.
  revert Hk0 Hk Hhk Hh Hh0 Hkdef.
  generalize (get_h lepx lepy vx vy mc) (get_k lepx lepy vx vy mc).
  intros h k Hk0 Hk Hhk Hh Hh0 Hkdef.
  cbv [sq add sub mul div lit sqrt abs leb where_ real_arith] in *.
  set (P := lepx * lepx + lepy * lepy) in *.
  set (r := R_sqrt.sqrt (1 - h)).
  assert (Hr : r * r = 1 - h) by (apply sqrt_sqrt; lra).
  assert (Hr0 : 0 <= r) by apply sqrt_pos.
  assert (Hr1 : r <= 1).
  { destruct (Rle_or_lt r 1) as [H|H]; [ exact H | ]. nra. }
  assert (HPpos : 0 < P).
  { assert (0 <= P) by (apply Rplus_le_le_0_compat; apply Rle_0_sqr). lra. }
  assert (Hz : 0 <= lepe - Rabs lepz).
  { assert (Rabs lepz * Rabs lepz = lepz * lepz) by (unfold Rabs; destruct (Rcase_abs lepz); ring).
    pose proof (Rabs_pos lepz). 
    destruct (Rle_or_lt (Rabs lepz) lepe) as [H1|H1]; [ lra | ]. nra. }
  assert (Hboth : forall sigma, sigma = 1 \/ sigma = -1 ->
            let vz := k / P * (lepz + sigma * (lepe * r)) in
            lepe * lepe * (vx * vx + vy * vy + vz * vz) = (k + lepz * vz) * (k + lepz * vz) /\
            0 <= k + lepz * vz).
  { intros sigma Hs vz.
    assert (Hss : sigma * sigma = 1) by (destruct Hs; subst; ring).
    split.
    - apply (@root_on_mass_shell lepe lepz P (vx * vx + vy * vy) k r sigma); try assumption.
      + rewrite Hr. replace (1 - (1 - h)) with h by ring. exact Hhk.
    - assert (E : k + lepz * vz = k * lepe / P * (lepe + sigma * (lepz * r))).
      { unfold vz. apply (Rmult_eq_reg_l P); [ | exact HP ].
        transitivity (k * (P + lepz * lepz + sigma * (lepz * (lepe * r)))).
        - field. exact HP.
        - rewrite <- He. field. exact HP. }
      rewrite E. apply Rmult_le_pos.
      + apply Rmult_le_pos; [ apply Rmult_le_pos; lra | ].
        left. apply Rinv_0_lt_compat. exact HPpos.
      + assert (Rabs (lepz * r) <= lepe).
        { rewrite Rabs_mult, (Rabs_pos_eq r) by exact Hr0.
          pose proof (Rabs_pos lepz). nra. }
        destruct Hs; subst sigma; unfold Rabs in H; destruct (Rcase_abs (lepz * r)); lra. }
  assert (Hsel : forall vz : R,
            lepe * lepe * (vx * vx + vy * vy + vz * vz) = (k + lepz * vz) * (k + lepz * vz) /\
            0 <= k + lepz * vz ->
            lepe * lepe * (vx * vx + vy * vy + vz * vz) = (k + lepz * vz) * (k + lepz * vz) /\
            2 * (lepe * R_sqrt.sqrt (vx * vx + vy * vy + vz * vz) - lepx * vx - lepy * vy - lepz * vz)
              = mc * mc).
  { intros vz [H1 H2]. split; [ exact H1 | ].
    assert (HE : lepe * R_sqrt.sqrt (vx * vx + vy * vy + vz * vz) = k + lepz * vz).
    { apply Rsqr_inj.
      - apply Rmult_le_pos; [ exact Hle | apply sqrt_pos ].
      - exact H2.
      - unfold Rsqr. rewrite <- H1.
        transitivity (lepe * lepe * (R_sqrt.sqrt (vx * vx + vy * vy + vz * vz)
                                     * R_sqrt.sqrt (vx * vx + vy * vy + vz * vz))).
        + ring.
        + rewrite sqrt_sqrt; [ reflexivity | ].
          repeat apply Rplus_le_le_0_compat; apply Rle_0_sqr. }
    rewrite HE, Hkdef. field. }
  destruct (Rle_dec _ _).
  - apply Hsel. pose proof (Hboth 1 (or_introl eq_refl)) as H. cbv zeta in H.
    replace (lepz + lepe * r) with (lepz + 1 * (lepe * r)) by ring. exact H.
  - apply Hsel. pose proof (Hboth (-1) (or_intror eq_refl)) as H. cbv zeta in H.
    replace (lepz - lepe * r) with (lepz + -1 * (lepe * r)) by ring. exact H.
Qed.

Lemma analytic_solution_on_mass_shell_witness :
  2 * (5 * R_sqrt.sqrt (sq 0 + sq 0 + sq (snd (neutrino_reco_real 5 3 4 0 0 0 2)))
       - 3 * 0 - 4 * 0 - 0 * snd (neutrino_reco_real 5 3 4 0 0 0 2)) = sq 2.
Proof.
  apply (@analytic_solution_on_mass_shell 5 3 4 0 0 0 2).
  - lra.
  - lra.
  - lra.
  - cbv [get_k sq add mul div lit real_arith]. lra.
  - unfold get_h, get_pt. cbv [sq add mul div lit sqrt real_arith].
    replace (0 * 0 + 0 * 0) with 0 by ring. rewrite sqrt_0.
    unfold Rdiv. rewrite !Rmult_0_r, !Rmult_0_l. lra.
Defined.


(** X2: where the discriminant is 1 the two roots of the analytic solver
    coincide, and its [vz] is the [k * lepz / leppt^2] of the numeric
    solver: the two solvers agree on the curve that separates them. *)
Theorem analytic_root_at_unit_discriminant (lepe lepx lepy lepz vx vy mc : R) :
  get_h lepx lepy vx vy mc = 1 ->
  snd (neutrino_reco_real lepe lepx lepy lepz vx vy mc) =
  get_k lepx lepy vx vy mc * lepz / sq (get_pt lepx lepy).
Proof.
  intros Hh. rewrite neutrino_reco_real_vz. cbv zeta. rewrite Hh.
  generalize (get_k lepx lepy vx vy mc) (sq (get_pt lepx lepy)). intros k P.
  cbv [add sub mul div lit sqrt abs leb where_ real_arith].
  replace (1 - 1) with 0 by ring. rewrite sqrt_0.
  destruct (Rle_dec _ _); unfold Rdiv; ring.
Qed.

Lemma analytic_root_at_unit_discriminant_witness :
  snd (neutrino_reco_real 5 1 0 3 0 2 2) = get_k 1 0 0 2 2 * 3 / sq (get_pt 1 0).
Proof.
  apply (@analytic_root_at_unit_discriminant 5 1 0 3 0 2 2).
  unfold get_h, get_pt, get_k. cbv [sq add mul div lit sqrt real_arith].
  replace (1 * 1 + 0 * 0) with 1 by ring.
  replace (0 * 0 + 2 * 2) with (Rsqr 2) by (unfold Rsqr; ring).
  rewrite sqrt_1, sqrt_Rsqr by lra. field.
Defined.

(** X3: [calc_vy] is complete: for [lepx <> 0], every point [(vx, vy)] of
    the constraint curve has a non-negative radicand at [vx], and its [vy]
    is the value of [calc_vy] for the sign [+1] or for the sign [-1]. *)
Theorem calc_vy_complete (vx vy lepx lepy mc : R) :
  lepx <> 0 ->
  sq (get_k lepx lepy vx vy mc) = (sq lepx + sq lepy) * (sq vx + sq vy) ->
  0 <= radicand vx lepx lepy mc /\
  (vy = calc_vy vx lepx lepy mc 1 false \/ vy = calc_vy vx lepx lepy mc (-1) false).
Proof.
  intros Hx Hc.
  unfold calc_vy. cbv zeta. fold (radicand vx lepx lepy mc).
  assert (Hu : (lepx * lepx * vy - (lepx * lepy * vx + lepy * (mc * mc) / 2))
             * (lepx * lepx * vy - (lepx * lepy * vx + lepy * (mc * mc) / 2))
             = radicand vx lepx lepy mc).
  { unfold radicand. cbv [get_k sq add sub mul div lit real_arith] in *.
    transitivity (mc * mc / 2 * (lepx * lepx + lepy * lepy) * (2 * lepx * vx + mc * mc / 2)
                  - lepx * lepx * ((mc * mc / 2 + lepx * vx + lepy * vy)
                                   * (mc * mc / 2 + lepx * vx + lepy * vy)
                                   - (lepx * lepx + lepy * lepy) * (vx * vx + vy * vy))).
    - field.
    - rewrite Hc. ring. }
  revert Hu. generalize (radicand vx lepx lepy mc). intros D Hu.
  cbv [sq add sub mul div lit sqrt real_arith].
  set (u := lepx * lepx * vy - (lepx * lepy * vx + lepy * (mc * mc) / 2)) in *.
  assert (HD : 0 <= D) by (rewrite <- Hu; apply Rle_0_sqr).
  split; [ exact HD | ].
  assert (Hvy : forall s, u = s -> vy = (lepx * lepy * vx + lepy * (mc * mc) / 2 + s) / (lepx * lepx)).
  { intros s <-. unfold u. field. exact Hx. }
  assert (Hs : R_sqrt.sqrt D = Rabs u).
  { rewrite <- Hu. apply sqrt_Rsqr_abs. }
  unfold Rabs in Hs. destruct (Rcase_abs u).
  - right. apply Hvy. rewrite Hs. ring.
  - left. apply Hvy. rewrite Hs. ring.
Qed.

Lemma calc_vy_complete_witness :
  2 = calc_vy 0 1 0 2 1 false \/ 2 = calc_vy 0 1 0 2 (-1) false.
Proof.
  apply (@calc_vy_complete 0 2 1 0 2).
  - lra.
  - cbv [get_k sq add mul div lit real_arith]. field.
Defined.

(** X4: at the boundary value [vx = -mc^2 / (4 lepx)] of the projection the
    radicand vanishes: [calc_vy] gives [lepy mc^2 / (4 lepx^2)] for
    either sign, with or without clamping. *)
Theorem calc_vy_at_boundary (lepx lepy mc sign : R) (save : bool) :
  lepx <> 0 ->
  calc_vy (- (sq mc) / (4 * lepx)) lepx lepy mc sign save = lepy * sq mc / (4 * sq lepx).
Proof.
  intros Hx. unfold calc_vy. cbv zeta.
  cbv [sq add sub mul div lit neg sqrt ltb where_ real_arith].
  replace (mc * mc / 2 * (lepx * lepx + lepy * lepy)
           * (2 * lepx * (- (mc * mc) / (4 * lepx)) + mc * mc / 2)) with 0 by (field; exact Hx).
  rewrite sqrt_0.
  assert (E : (if save then if (if Rlt_dec 0 0 then true else false) then 0 else 0 else 0) = 0)
    by (destruct save; [ destruct (Rlt_dec 0 0) | ]; reflexivity).
  rewrite E. field. exact Hx.
Qed.

Lemma calc_vy_at_boundary_witness :
  calc_vy (- (sq 2) / (4 * 1)) 1 3 2 (-1) true = 3 * sq 2 / (4 * sq 1).
Proof. apply (@calc_vy_at_boundary 1 3 2 (-1) true). lra. Defined.

(** X5: the half-line [vx_constrain] projects onto is where [calc_vy] has
    a real root: for [lepx <> 0] and [mc <> 0] the radicand at [vx] is
    non-negative exactly when [vx >= -mc^2 / (4 lepx)] for [lepx >= 0], or
    [vx <= -mc^2 / (4 lepx)] for [lepx < 0]. *)
Theorem radicand_sign_half_line (vx lepx lepy mc : R) :
  lepx <> 0 -> mc <> 0 ->
  (0 <= radicand vx lepx lepy mc <->
   (0 <= lepx /\ - (sq mc) / (4 * lepx) <= vx) \/
   (lepx < 0 /\ vx <= - (sq mc) / (4 * lepx))).
Proof.
  intros Hx Hm. unfold radicand. cbv [sq add sub mul div lit neg real_arith].
  assert (Hm2 : 0 < mc * mc) by nra.
  assert (HL : 0 < lepx * lepx + lepy * lepy) by nra.
  assert (Hc : 0 < mc * mc / 2 * (lepx * lepx + lepy * lepy)) by (apply Rmult_lt_0_compat; lra).
  set (c := mc * mc / 2 * (lepx * lepx + lepy * lepy)) in *.
  assert (Hb : 4 * lepx * (- (mc * mc) / (4 * lepx)) = - (mc * mc)) by (field; exact Hx).
  set (b := - (mc * mc) / (4 * lepx)) in *.
  split.
  - intros H. assert (H0 : 0 <= 2 * lepx * vx + mc * mc / 2) by nra.
    destruct (Rlt_or_le lepx 0) as [Hn|Hp]; [ right | left ]; split; try assumption; nra.
  - intros [[Hp H]|[Hn H]]; apply Rmult_le_pos; try lra; nra.
Qed.

Lemma radicand_sign_half_line_witness :
  0 <= radicand 0 1 0 2 <->
  (0 <= 1 /\ - (sq 2) / (4 * 1) <= 0) \/ (1 < 0 /\ 0 <= - (sq 2) / (4 * 1)).
Proof. apply (@radicand_sign_half_line 0 1 0 2); lra. Defined.

End ExactSolver.

(** ** Signs in binary64 *)

Section FloatSigns.
Local Open Scope float_scope.

Lemma SFltb_round_nonneg (mx ex : Z) (lx : location) :
  SFltb (binary_round_aux prec emax false mx ex lx) (S754_zero false) = false.
Proof.
  unfold SFltb. rewrite (SFcompare_antisym (S754_zero false)).
  destruct (binary_round_aux_nonneg mx ex lx) as [H | H].
  - rewrite H. reflexivity.
  - unfold SFleb in H.
    destruct (SFcompare (S754_zero false) (binary_round_aux prec emax false mx ex lx))
      as [[]|]; try discriminate; reflexivity.
Qed.

Lemma mul_self_not_negative (x : float) : (x * x <? 0) = false.
Proof.
  rewrite ltb_spec, mul_spec. change (Prim2SF 0) with (S754_zero false).
  unfold SF64mul, SFmul.
  destruct (Prim2SF x) as [s|s| |s m e]; try reflexivity.
  - destruct s; reflexivity.
  - rewrite xorb_nilpotent. apply SFltb_round_nonneg.
Qed.

Lemma add_not_negative (x y : float) :
  (x <? 0) = false -> (y <? 0) = false -> (x + y <? 0) = false.
Proof.
  rewrite !ltb_spec, add_spec. change (Prim2SF 0) with (S754_zero false).
  unfold SF64add, SFadd.
  destruct (Prim2SF x) as [s|s| |s m e], (Prim2SF y) as [s'|s'| |s' m' e'];
    try reflexivity; try (intros H H'; first [ exact H | exact H' ]);
    try (destruct s, s'; intros H H'; try reflexivity; discriminate).
  destruct s; [ discriminate | ]. destruct s'; [ intros _; discriminate | ].
  intros _ _. cbn [cond_Zopp]. unfold binary_normalize.
  cbn [Z.add]. unfold binary_round.
  match goal with
  | |- context [shl_align ?a ?b ?c] =>
      lazymatch a with
      | (_ + _)%positive => destruct (shl_align a b c) as [mz ez]
      end
  end.
  apply SFltb_round_nonneg.
Qed.

Lemma sq_not_negative (x : float) : (sq x <? 0) = false.
Proof. apply mul_self_not_negative. Qed.

(** X6: in binary64 [get_pt] is never negative: it is NaN or at least 0. *)
Theorem transverse_momentum_never_negative (px py : float) :
  (get_pt px py <? 0) = false /\
  (PrimFloat.is_nan (get_pt px py) = false -> (0 <=? get_pt px py) = true).
Proof.
  assert (H : PrimFloat.is_nan (get_pt px py) = false -> (0 <=? get_pt px py) = true)
    by apply sqrt_nonneg.
  split; [ | exact H ].
  destruct (PrimFloat.is_nan (get_pt px py)) eqn:E.
  - apply is_nan_eq in E. rewrite E. apply ltb_nan_l.
  - apply leb_ltb_false, H. reflexivity.
Qed.

Lemma transverse_momentum_never_negative_witness : (0 <=? get_pt 3 4) = true.
Proof. apply (proj2 (transverse_momentum_never_negative 3 4)). reflexivity. Defined.

(** X7: in binary64 the residual [shift] is never negative: it is NaN or
    at least 0. *)
Theorem shift_never_negative (vx vy metx mety : float) :
  (shift vx vy metx mety <? 0) = false /\
  (PrimFloat.is_nan (shift vx vy metx mety) = false -> (0 <=? shift vx vy metx mety) = true).
Proof.
  assert (H : (shift vx vy metx mety <? 0) = false)
    by (unfold shift; apply add_not_negative; apply sq_not_negative).
  split; [ exact H | ].
  intros Hn. apply ltb_false_leb; [ exact Hn | reflexivity | exact H ].
Qed.

Lemma shift_never_negative_witness : (0 <=? shift 1 2 3 4) = true.
Proof. apply (proj2 (shift_never_negative 1 2 3 4)). reflexivity. Defined.

(** X8: in binary64 the discriminant [get_h] is never negative, so an
    event that passes the test [h <= 1] of the combiner has [0 <= h <= 1]. *)
Theorem discriminant_never_negative (lepx lepy metx mety mc : float) :
  (get_h lepx lepy metx mety mc <? 0) = false /\
  ((get_h lepx lepy metx mety mc <=? 1) = true ->
   (0 <=? get_h lepx lepy metx mety mc) = true).
Proof.
  assert (H : (get_h lepx lepy metx mety mc <? 0) = false)
    by (unfold get_h; cbv zeta; apply sq_not_negative).
  split; [ exact H | ].
  intros Hle. destruct (leb_not_nan Hle) as [Hn _].
  apply ltb_false_leb; [ exact Hn | reflexivity | exact H ].
Qed.

Lemma discriminant_never_negative_witness :
  (0 <=? get_h (-34) (-1) (-63) (-72) 80) = true.
Proof.
  apply (proj2 (discriminant_never_negative (-34) (-1) (-63) (-72) 80)). reflexivity.
Defined.

(** X9: the projection is idempotent, for all binary64 arguments (NaN
    included). *)
Theorem vx_constrain_idempotent (vx lepx mc : float) :
  vx_constrain (vx_constrain vx lepx mc) lepx mc = vx_constrain vx lepx mc.
Proof.
  destruct (vx_constrain_nan_or_inside vx lepx mc) as [H | H].
  - apply is_nan_eq in H. rewrite H. apply vx_constrain_nan.
  - apply vx_constrain_fixes_half_line, H.
Qed.

End FloatSigns.

(** ** A fit that starts where the loss is NaN *)

Section FailedSeed.
Local Open Scope tf_scope.


Lemma dual_nan_add_r (a b : dual float) : dual_nan b -> dual_nan (a + b).
Proof. intros [Hv Hd]. split; cbn; rewrite ?Hv, ?Hd; nan_simpl; reflexivity. Qed.

Lemma dual_nan_sub_r (a b : dual float) : dual_nan b -> dual_nan (a - b).
Proof. intros [Hv Hd]. split; cbn; rewrite ?Hv, ?Hd; nan_simpl; reflexivity. Qed.

Lemma dual_nan_mul_r (a b : dual float) : dual_nan b -> dual_nan (a * b).
Proof. intros [Hv Hd]. split; cbn; rewrite ?Hv, ?Hd; nan_simpl; reflexivity. Qed.

Lemma dual_nan_div_l (a b : dual float) : dual_nan a -> dual_nan (a / b).
Proof. intros [Hv Hd]. split; cbn; rewrite ?Hv, ?Hd; nan_simpl; reflexivity. Qed.

Lemma dual_nan_sq (a : dual float) : dual_nan a -> dual_nan (sq a).
Proof. apply dual_nan_mul_r. Qed.

Lemma dual_nan_sqrt (a : dual float) : (val a < #0) = true -> dual_nan (sqrt a).
Proof.
  intros H. apply sqrt_negative in H. split; cbn; rewrite H; nan_simpl; reflexivity.
Qed.

Lemma val_radicand (vx lepx lepy mc : float) :
  val (radicand (variable vx) (const lepx) (const lepy) (const mc)) = radicand vx lepx lepy mc.
Proof. reflexivity. Qed.

Lemma loss_nan (vx lepx lepy metx mety mc sign : float) :
  (radicand vx lepx lepy mc < #0) = true ->
  dual_nan (opt (variable vx) (const lepx) (const lepy) (const metx) (const mety)
                (const mc) (const sign)).
Proof.
  intros H. unfold opt, shift, calc_vy. cbv zeta.
  apply dual_nan_add_r, dual_nan_sq, dual_nan_sub_r, dual_nan_div_l, dual_nan_add_r,
        dual_nan_mul_r.
  apply dual_nan_sqrt. exact H.
Qed.

Lemma adam_apply_nan_gradient (s : adam_variables float) (var : float) :
  adam_m (fst (adam_apply s nan var)) = nan /\ snd (adam_apply s nan var) = nan.
Proof. unfold adam_apply, sq. cbv zeta. cbn [fst snd adam_m]. nan_simpl. split; reflexivity. Qed.

Lemma adam_apply_nan_moment (s : adam_variables float) (g var : float) :
  adam_m s = nan ->
  adam_m (fst (adam_apply s g var)) = nan /\ snd (adam_apply s g var) = nan.
Proof.
  intros H. unfold adam_apply, sq. cbv zeta. cbn [fst snd adam_m]. rewrite H.
  nan_simpl. split; reflexivity.
Qed.

Lemma optimize_iter_lost_first (metx mety lepx lepy mc sign : float)
    (st : adam_variables float * float) :
  (radicand (snd st) lepx lepy mc < #0) = true ->
  lost (optimize_iter (Adam (T:=float)) metx mety lepx lepy mc sign st).
Proof.
  destruct st as [o v]. cbn [snd]. intros H.
  unfold optimize_iter, minimize, gradient. cbv beta zeta.
  cbn [fst snd take assign_prefix float_shaped apply_gradients opt_variables Adam].
  destruct (@loss_nan v lepx lepy metx mety mc sign H) as [_ Hd].
  match goal with
  | |- lost (fst (adam_apply _ ?g _), _) => replace g with nan by (symmetry; exact Hd)
  end.
  destruct (adam_apply_nan_gradient o v) as [Hm Hv].
  split; cbn [fst snd opt_variables Adam]; [ exact Hm | ]. rewrite Hv. apply vx_constrain_nan.
Qed.

Lemma optimize_iter_lost (metx mety lepx lepy mc sign : float)
    (st : adam_variables float * float) :
  lost st -> lost (optimize_iter (Adam (T:=float)) metx mety lepx lepy mc sign st).
Proof.
  destruct st as [o v]. intros [Hm Hv]. cbn [fst snd] in Hm, Hv.
  unfold optimize_iter, minimize. cbv zeta.
  cbn [fst snd take assign_prefix float_shaped apply_gradients opt_variables Adam].
  match goal with
  | |- lost (fst (adam_apply _ ?G _), _) => generalize G; intros g
  end.
  destruct (@adam_apply_nan_moment o g v Hm) as [Hm' Hv'].
  split; cbn [fst snd opt_variables Adam]; [ exact Hm' | ]. rewrite Hv'. apply vx_constrain_nan.
Qed.

Lemma optimize_loop_lost (metx mety lepx lepy mc sign : float)
    (st : adam_variables float * float) (n : nat) :
  (radicand (snd st) lepx lepy mc < #0) = true ->
  lost (Nat.iter (Datatypes.S n) (optimize_iter (Adam (T:=float)) metx mety lepx lepy mc sign) st).
Proof.
  intros H. induction n.
  - cbn [Nat.iter nat_rect]. apply optimize_iter_lost_first, H.
  - rewrite Nat.iter_succ. apply optimize_iter_lost, IHn.
Qed.

(** From a seed where the radicand is negative, a fit of Adam returns
    NaN. *)
Lemma fit_from_outside_is_nan (o : adam_variables float)
    (vx metx mety lepx lepy mc sign : float) :
  (radicand vx lepx lepy mc < #0) = true ->
  fst (optimize1 (Adam (T:=float)) o vx metx mety lepx lepy mc sign) = nan /\
  fst (optimize2 (Adam (T:=float)) o vx metx mety lepx lepy mc sign) = nan.
Proof.
  intros H. rewrite optimize1_unfold, optimize2_unfold. cbn [fst take float_shaped].
  split; apply (@optimize_loop_lost metx mety lepx lepy mc sign (o, vx) 99 H).
Qed.

(** X10: when the radicand of [calc_vy] is negative at the seeds of both
    fits, the loss and its gradient are NaN from the first turn on, both
    fits of Adam return NaN whatever the state of the optimizers, and the
    numeric solver returns what it returns for the boundary value in the
    place of both: its [vx] is [-mc^2 / (4 lepx)]. *)
Theorem fit_from_outside_returns_boundary
    (lepe lepx lepy lepz metx mety vx1 vx2 : float) (o1 o2 : adam_variables float) (mc : float) :
  (radicand vx1 lepx lepy mc < #0) = true ->
  (radicand vx2 lepx lepy mc < #0) = true ->
  let out := fst (neutrino_reco_complex (Adam (T:=float))
                    lepe lepx lepy lepz metx mety vx1 vx2 o1 o2 mc) in
  is_nan (fst (optimize1 (Adam (T:=float)) o1 vx1 metx mety lepx lepy mc #1)) = true /\
  is_nan (fst (optimize2 (Adam (T:=float)) o2 vx2 metx mety lepx lepy mc #(-1))) = true /\
  out = select_branch lepx lepy lepz metx mety mc (boundary lepx mc) (boundary lepx mc) /\
  fst (fst out) = boundary lepx mc.
Proof.
  intros H1 H2 out.
  destruct (@fit_from_outside_is_nan o1 vx1 metx mety lepx lepy mc #1 H1) as [E1 _].
  destruct (@fit_from_outside_is_nan o2 vx2 metx mety lepx lepy mc #(-1) H2) as [_ E2].
  subst out. rewrite neutrino_reco_complex_unfold, E1, E2.
  split; [ reflexivity | ]. split; [ reflexivity | ].
  rewrite select_branch_nan_1, select_branch_nan_2.
  split; [ reflexivity | ].
  rewrite select_branch_unfold. cbv zeta. cbn [fst]. rewrite caught_boundary.
  match goal with |- (if ?c then _ else _) = _ => destruct c; reflexivity end.
Qed.

Lemma fit_from_outside_returns_boundary_witness :
  fst (fst (fst (neutrino_reco_complex (Adam (T:=float))
                   35%float 34%float (-1)%float (-6)%float (-63)%float (-72)%float
                   (-63)%float (-63)%float adam_fresh adam_fresh 80%float))) =
  boundary 34%float 80%float.
Proof.
  pose proof (@fit_from_outside_returns_boundary
                35%float 34%float (-1)%float (-6)%float (-63)%float (-72)%float
                (-63)%float (-63)%float adam_fresh adam_fresh 80%float) as H.
  cbv zeta in H.
  destruct H as (_ & _ & _ & H); [ vm_compute; reflexivity | vm_compute; reflexivity | ].
  exact H.
Defined.

End FailedSeed.

(** ** The combiner on events of the analytic branch *)

Section Combiner.
Local Open Scope tf_scope.

(** X11: for an event with [h <= 1] the combiner returns the analytic
    triple, with [vx = metx] and [vy = mety], whatever the optimizer, its
    state and the seeds of the fit. *)
Theorem analytic_events_ignore_the_fit (O : Optimizer float)
    (lepe lepx lepy lepz metx mety vx1 vx2 : float) (o1 o2 : opt_variables O) (mc : float) :
  let m := effective_mc lepe lepx lepy lepz mc in
  (get_h lepx lepy metx mety m <= #1) = true ->
  fst (neutrino_reco O lepe lepx lepy lepz metx mety vx1 vx2 o1 o2 mc) =
  neutrino_reco_real lepe lepx lepy lepz metx mety m /\
  fst (fst (fst (neutrino_reco O lepe lepx lepy lepz metx mety vx1 vx2 o1 o2 mc))) = metx /\
  snd (fst (fst (neutrino_reco O lepe lepx lepy lepz metx mety vx1 vx2 o1 o2 mc))) = mety.
Proof.
  intros m Hh.
  pose proof (neutrino_reco_vx O lepe lepx lepy lepz metx mety vx1 vx2 o1 o2 mc) as Ex.
  pose proof (neutrino_reco_vy O lepe lepx lepy lepz metx mety vx1 vx2 o1 o2 mc) as Ey.
  pose proof (neutrino_reco_vz O lepe lepx lepy lepz metx mety vx1 vx2 o1 o2 mc) as Ez.
  cbv zeta in Ex, Ey, Ez. fold m in Ex, Ey, Ez.
  rewrite Hh in Ex, Ey, Ez. cbn [where_ float_arith] in Ex, Ey, Ez.
  revert Ex Ey Ez.
  generalize (neutrino_reco O lepe lepx lepy lepz metx mety vx1 vx2 o1 o2 mc).
  intros [[[x y] z] st]. cbn [fst snd]. intros -> -> ->.
  rewrite neutrino_reco_real_unfold. cbn [snd]. repeat split.
Qed.

Lemma analytic_events_ignore_the_fit_witness :
  fst (fst (fst (neutrino_reco (Adam (T:=float))
                   35%float (-34)%float (-1)%float (-6)%float (-63)%float (-72)%float
                   0%float 0%float adam_fresh adam_fresh W_mass))) = (-63)%float.
Proof.
  pose proof (@analytic_events_ignore_the_fit (Adam (T:=float))
                35%float (-34)%float (-1)%float (-6)%float (-63)%float (-72)%float
                0%float 0%float adam_fresh adam_fresh W_mass) as H.
  cbv zeta in H.
  destruct H as (_ & H & _); [ vm_compute; reflexivity | ].
  exact H.
Defined.
End Combiner.

(** ** Batches *)

Section BatchLaws.
Local Open Scope nat_scope.

(** X12: the triple of an event does not depend on the batch it comes in:
    at any position of any batch, in any layer that holds the batch, it is
    the triple of the event evaluated alone. *)
Theorem event_output_independent_of_batch (mc : float)
    (events1 events2 : list (Inputs float))
    (L1 L2 : NeutrinoReco (Adam (T:=tensor float))) (i j : nat) (ev : Inputs float) :
  ready (length events1) mc L1 -> ready (length events2) mc L2 ->
  nth_error events1 i = Some ev -> nth_error events2 j = Some ev ->
  exists out1 K1 out2 K2,
    call L1 (columns events1) = Some (out1, K1) /\
    call L2 (columns events2) = Some (out2, K2) /\
    get3 i out1 = Some (event_reco mc ev) /\
    get3 j out2 = get3 i out1.
Proof.
  intros H1 H2 E1 E2.
  destruct (@call_ready mc events1 L1 H1) as (K1 & C1 & _).
  destruct (@call_ready mc events2 L2 H2) as (K2 & C2 & _).
  exists (batch_outputs mc events1), K1, (batch_outputs mc events2), K2.
  split; [ exact C1 | ]. split; [ exact C2 | ].
  rewrite !get3_batch_outputs, E1, E2. split; reflexivity.
Qed.

Lemma event_output_independent_of_batch_witness :
  exists out1 K1 out2 K2,
    call example_layer (columns example_batch) = Some (out1, K1) /\
    call example_layer (columns [outside_event; example_event]) = Some (out2, K2) /\
    get3 0 out1 = Some (event_reco W_mass example_event) /\
    get3 1 out2 = get3 0 out1.
Proof.
  apply (@event_output_independent_of_batch W_mass example_batch
           [outside_event; example_event] example_layer example_layer 0 1 example_event).
  - apply build_ready; cbn; lia.
  - apply build_ready; cbn; lia.
  - reflexivity.
  - reflexivity.
Defined.

(** X13: the outputs of a concatenated batch are the outputs of its two
    parts, concatenated. *)
Theorem call_on_concatenation (mc : float) (events1 events2 : list (Inputs float))
    (L1 L2 L : NeutrinoReco (Adam (T:=tensor float))) :
  ready (length events1) mc L1 -> ready (length events2) mc L2 ->
  ready (length (events1 ++ events2)) mc L ->
  exists x1 y1 z1 K1 x2 y2 z2 K2 K,
    call L1 (columns events1) = Some ((Vec x1, Vec y1, Vec z1), K1) /\
    call L2 (columns events2) = Some ((Vec x2, Vec y2, Vec z2), K2) /\
    call L (columns (events1 ++ events2)) =
      Some ((Vec (x1 ++ x2), Vec (y1 ++ y2), Vec (z1 ++ z2)), K).
Proof.
  intros H1 H2 H.
  destruct (@call_ready mc events1 L1 H1) as (K1 & C1 & _).
  destruct (@call_ready mc events2 L2 H2) as (K2 & C2 & _).
  destruct (@call_ready mc (events1 ++ events2) L H) as (K & C & _).
  unfold batch_outputs in C1, C2, C. rewrite !map_app in C.
  do 3 eexists. exists K1. do 3 eexists. exists K2, K.
  split; [ exact C1 | ]. split; [ exact C2 | exact C ].
Qed.

Lemma call_on_concatenation_witness :
  exists x1 y1 z1 K1 x2 y2 z2 K2 K,
    call example_layer (columns [example_event]) = Some ((Vec x1, Vec y1, Vec z1), K1) /\
    call example_layer (columns [heavy_event; outside_event])
      = Some ((Vec x2, Vec y2, Vec z2), K2) /\
    call example_layer (columns ([example_event] ++ [heavy_event; outside_event])) =
      Some ((Vec (x1 ++ x2), Vec (y1 ++ y2), Vec (z1 ++ z2)), K).
Proof.
  apply (@call_on_concatenation W_mass [example_event] [heavy_event; outside_event]
           example_layer example_layer example_layer);
    apply build_ready; cbn; lia.
Defined.

Lemma zeros_like_idempotent (t : tensor float) : zeros_like (zeros_like t) = zeros_like t.
Proof.
  destruct t as [x|l]; cbn; [ reflexivity | ].
  rewrite map_map. reflexivity.
Qed.

Lemma adam_zeros_idempotent (s : adam_variables (tensor float)) :
  adam_zeros (adam_zeros s) = adam_zeros s.
Proof.
  unfold adam_zeros. cbn [adam_m adam_v]. rewrite !zeros_like_idempotent. reflexivity.
Qed.

(** X14: [reset_optimizer] is idempotent and leaves the variables and the
    mass constraint alone; resetting a layer by hand before a call does not
    change what the call returns or the state it leaves. *)
Theorem reset_optimizer_idempotent (L : NeutrinoReco (Adam (T:=tensor float)))
    (inputs : Inputs (tensor float)) :
  reset_optimizer (reset_optimizer L) = reset_optimizer L /\
  call (reset_optimizer L) inputs = call L inputs /\
  vx1 (reset_optimizer L) = vx1 L /\ vx2 (reset_optimizer L) = vx2 L /\
  mass_constraint (reset_optimizer L) = mass_constraint L.
Proof.
  assert (E : reset_optimizer (reset_optimizer L) = reset_optimizer L).
  { unfold reset_optimizer.
    cbn [opt1 opt2 vx1 vx2 mass_constraint opt_zeros Adam adam_zeros adam_m adam_v].
    rewrite !adam_zeros_idempotent. reflexivity. }
  split; [ exact E | ]. split; [ | repeat split ].
  unfold call. cbv zeta. rewrite E. reflexivity.
Qed.

(** X15: in a batch evaluation, an event that fails the test [h <= 1] and
    whose radicand is negative at [metx] gets the triple of the boundary
    value: its [vx] is [-mc_eff^2 / (4 lepx)]. *)
Theorem batch_event_beyond_boundary (mc : float) (events : list (Inputs float))
    (L : NeutrinoReco (Adam (T:=tensor float))) (i : nat) (ev : Inputs float) :
  ready (length events) mc L ->
  nth_error events i = Some ev ->
  PrimFloat.leb (event_h mc ev) 1 = false ->
  PrimFloat.ltb (radicand (c_metx ev) (c_lepx ev) (c_lepy ev) (event_mc mc ev)) 0 = true ->
  exists out L' vy vz,
    call L (columns events) = Some (out, L') /\
    get3 i out = Some (boundary (c_lepx ev) (event_mc mc ev), vy, vz) /\
    (boundary (c_lepx ev) (event_mc mc ev), vy, vz) =
    select_branch (c_lepx ev) (c_lepy ev) (c_lepz ev) (c_metx ev) (c_mety ev) (event_mc mc ev)
      (boundary (c_lepx ev) (event_mc mc ev)) (boundary (c_lepx ev) (event_mc mc ev)).
Proof.
  intros HL Hev Hh Hrad.
  destruct (@call_ready mc events L HL) as (L' & E & _).
  destruct (@fit_from_outside_is_nan adam_fresh (c_metx ev) (c_metx ev) (c_mety ev)
              (c_lepx ev) (c_lepy ev) (event_mc mc ev) (lit 1) Hrad) as [E1 _].
  destruct (@fit_from_outside_is_nan adam_fresh (c_metx ev) (c_metx ev) (c_mety ev)
              (c_lepx ev) (c_lepy ev) (event_mc mc ev) (lit (-1)) Hrad) as [_ E2].
  assert (Hsel : numeric_triple mc ev =
            select_branch (c_lepx ev) (c_lepy ev) (c_lepz ev) (c_metx ev) (c_mety ev)
              (event_mc mc ev) (boundary (c_lepx ev) (event_mc mc ev))
              (boundary (c_lepx ev) (event_mc mc ev))).
  { unfold numeric_triple. rewrite neutrino_reco_complex_unfold, E1, E2.
    rewrite select_branch_nan_1, select_branch_nan_2. reflexivity. }
  assert (Hvx : fst (fst (numeric_triple mc ev)) = boundary (c_lepx ev) (event_mc mc ev)).
  { rewrite Hsel, select_branch_unfold. cbv zeta. cbn [fst]. rewrite caught_boundary.
    match goal with |- (if ?c then _ else _) = _ => destruct c; reflexivity end. }
  assert (Hout : event_reco mc ev = numeric_triple mc ev)
    by (rewrite event_reco_select, Hh; reflexivity).
  revert Hsel Hvx Hout. generalize (numeric_triple mc ev). intros [[x y] z]. cbn [fst].
  intros Hsel Hvx Hout. subst x.
  exists (batch_outputs mc events), L', y, z.
  split; [ exact E | ]. split; [ | exact Hsel ].
  rewrite get3_batch_outputs, Hev. cbn [option_map]. rewrite Hout. reflexivity.
Qed.

Lemma batch_event_beyond_boundary_witness :
  exists out L' vy vz,
    call example_layer (columns example_batch) = Some (out, L') /\
    get3 2 out = Some (boundary 34%float (event_mc W_mass outside_event), vy, vz).
Proof.
  destruct (@batch_event_beyond_boundary W_mass example_batch example_layer 2 outside_event)
    as (out & L' & vy & vz & E & H & _).
  - apply build_ready; cbn; lia.
  - reflexivity.
  - vm_compute. reflexivity.
  - vm_compute. reflexivity.
  - exists out, L', vy, vz. split; [ exact E | exact H ].
Defined.

End BatchLaws.

(** ** The shape of the layer from call to call *)

Section Shapes.
Local Open Scope nat_scope.

Lemma fits_ap {A B : Type} (n : nat) (tf : tensor (A -> B)) (tx : tensor A) :
  fits n tf -> fits n tx -> fits n (ap tf tx).
Proof.
  destruct tf as [f|fs], tx as [x|l]; cbn; intros Hf Hx; try exact I.
  - rewrite length_map. exact Hx.
  - rewrite length_map. exact Hf.
  - rewrite length_zip_with. lia.
Qed.

Lemma has_length_fits {A : Type} (n : nat) (t : tensor A) : has_length n t -> fits n t.
Proof. intros (l & -> & H). exact H. Qed.

Lemma fits_is_vec {A : Type} (n : nat) (t : tensor A) : fits n t -> is_vec t -> has_length n t.
Proof. intros H [l ->]. exists l. split; [ reflexivity | exact H ]. Qed.

Lemma fits_arith_rel (n : nat) :
  ArithRel (fun (a : tensor float) (_ : float) => fits n a)
           (fun (c : tensor bool) (_ : bool) => fits n c)
           tensor_arith float_arith.
Proof.
  split; cbn [lit add sub mul div neg sqrt abs leb ltb where_ tensor_arith];
    unfold lift1, lift2, lift3; intros; repeat apply fits_ap; try assumption; exact I.
Qed.

Lemma fits_ieee_rel (n : nat) :
  IEEERel (fun (a : tensor float) (_ : float) => fits n a)
          (fun (c : tensor bool) (_ : bool) => fits n c)
          tensor_ieee float_ieee.
Proof.
  split; cbn [inf is_nan tensor_ieee]; unfold lift1; intros;
    repeat apply fits_ap; try assumption; exact I.
Qed.

Lemma fits_shaped_rel (n : nat) :
  ShapedRel (fun (a : tensor float) (_ : float) => fits n a) (fun k => n <= k)
            tensor_shaped float_shaped.
Proof.
  split.
  - intros k k' [c|l] x Hk H; cbn in *; [ exact I | ].
    rewrite firstn_all2 by lia. exact H.
  - intros k k' [c|lv] x [d|lw] y Hk Hv Hw; cbn in *; try exact I; try assumption.
    + rewrite length_app, repeat_length, length_skipn. lia.
    + rewrite length_app, length_firstn, length_skipn. lia.
  - intros [c|l] x H; cbn in *; [ exact I | ]. rewrite length_map. exact H.
Qed.

Lemma has_length_take {A : Type} (b n : nat) (t : tensor A) :
  n <= b -> has_length b t -> has_length n (tensor_take n t).
Proof.
  intros Hn (l & -> & H). exists (firstn n l). split; [ reflexivity | ].
  rewrite length_firstn. lia.
Qed.

Lemma has_length_assign_prefix {A : Type} (b n : nat) (v x : tensor A) :
  n <= b -> has_length b v -> fits n x -> has_length b (tensor_assign_prefix v n x).
Proof.
  intros Hn (lv & -> & Hv) Hx. destruct x as [c|lx]; cbn in *; eexists; split; try reflexivity.
  - rewrite length_app, repeat_length, length_skipn. lia.
  - rewrite length_app, length_firstn, length_skipn. lia.
Qed.

Lemma has_length_zeros_like (b : nat) (t : tensor float) :
  has_length b t -> has_length b (zeros_like t).
Proof.
  intros (l & -> & H). cbn. eexists. split; [ reflexivity | ]. rewrite length_map. exact H.
Qed.

Lemma is_vec_lift2_l {A B C : Type} (f : A -> B -> C) (a : tensor A) (b : tensor B) :
  is_vec a -> is_vec (lift2 f a b).
Proof. intros H. unfold lift2. apply is_vec_ap_l, is_vec_ap_r, H. Qed.

Lemma adam_apply_shape (b : nat) (s : adam_variables (tensor float)) (g v : tensor float) :
  has_length b (adam_m s) -> has_length b (adam_v s) -> has_length b g -> has_length b v ->
  shaped_state b (adam_apply s g v).
Proof.
  intros Hm Hv Hg Hx.
  destruct (@adam_apply_rel _ _ _ _ _ _ _ _ (fits_arith_rel b) s
              (Build_adam_variables (iterations s) 0%float 0%float) g 0%float v 0%float)
    as ((_ & Fm & Fv) & Fx).
  { split; [ reflexivity | split; apply has_length_fits; assumption ]. }
  { apply has_length_fits, Hg. }
  { apply has_length_fits, Hx. }
  revert Fm Fv Fx. unfold adam_apply. cbv zeta. cbn [fst snd adam_m adam_v].
  intros Fm Fv Fx. unfold shaped_state. cbn [fst snd adam_m adam_v].
  destruct Hm as (lm & Em & _), Hv as (lv & Ev & _), Hx as (lx & Ex & _).
  split; [ | split ]; (apply fits_is_vec; [ assumption | ]);
    cbn [add sub tensor_arith]; apply is_vec_lift2_l; eexists; eassumption.
Qed.


Lemma optimize_iter_shape (b n : nat) (metx mety lepx lepy m sign : tensor float)
    (st : adam_variables (tensor float) * tensor float) :
  n <= b -> has_length n metx ->
  fits n mety -> fits n lepx -> fits n lepy -> fits n m -> fits n sign ->
  shaped_state b st ->
  shaped_state b (optimize_iter (Adam (T:=tensor float)) metx mety lepx lepy m sign st).
Proof.
  intros Hn Hmx Hmy Hlx Hly Hm Hs (Sm & Sv & Sx).
  assert (Hshape : shape0 metx = n) by (destruct Hmx as (l & -> & H); exact H).
  pose proof (has_length_fits Hmx) as Fmx.
  destruct st as [o v]. cbn [fst snd] in Sm, Sv, Sx.
  unfold optimize_iter, minimize. cbv zeta. rewrite Hshape.
  cbn [fst snd apply_gradients Adam opt_variables].
  assert (Hg : has_length b
            (gradient (fun w : dual (tensor float) =>
                         opt w (const lepx) (const lepy) (const metx) (const mety)
                             (const m) (const sign)) n v)).
  { unfold gradient. apply has_length_assign_prefix; [ exact Hn | | ].
    - apply has_length_zeros_like, Sx.
    - apply (@opt_rel _ _ _ _ _ _
               (dual_rel (fun (a : tensor float) (_ : float) => fits n a))
               (fun (c : tensor bool) (_ : bool) => fits n c)
               (dual_arith_rel (fits_arith_rel n))
               (variable (take n v)) (variable 0%float)
               (const lepx) (const 0%float) (const lepy) (const 0%float)
               (const metx) (const 0%float) (const mety) (const 0%float)
               (const m) (const 0%float) (const sign) (const 0%float));
        try (apply (const_rel (fits_arith_rel n)); assumption).
      apply (variable_rel (fits_arith_rel n)).
      apply has_length_fits, (@has_length_take _ b n v Hn Sx). }
  revert Hg. 
  match goal with
  | |- has_length b ?G -> _ => generalize G; intros g Hg
  end.
  destruct (@adam_apply_shape b o g v Sm Sv Hg Sx) as (Sm' & Sv' & Sx').
  split; [ exact Sm' | split; [ exact Sv' | ] ]. cbn [fst snd].
  apply has_length_assign_prefix; [ exact Hn | exact Sx' | ].
  apply (@vx_constrain_rel _ _ _ _ _ _ _ _
           (fun (a : tensor float) (_ : float) => fits n a)
           (fun (c : tensor bool) (_ : bool) => fits n c)
           (fits_arith_rel n) (fits_ieee_rel n)
           _ 0%float lepx 0%float m 0%float); try assumption.
  apply has_length_fits, has_length_take with (b := b); [ exact Hn | exact Sx' ].
Qed.

Lemma optimize_loop_shape (b n : nat) (metx mety lepx lepy m sign : tensor float)
    (st : adam_variables (tensor float) * tensor float) (k : nat) :
  n <= b -> has_length n metx ->
  fits n mety -> fits n lepx -> fits n lepy -> fits n m -> fits n sign ->
  shaped_state b st ->
  shaped_state b
    (Nat.iter k (optimize_iter (Adam (T:=tensor float)) metx mety lepx lepy m sign) st).
Proof.
  intros. induction k; [ assumption | ].
  rewrite Nat.iter_succ. apply optimize_iter_shape with (n := n); assumption.
Qed.

Lemma has_length_column {E : Type} (f : E -> float) (events : list E) :
  has_length (length events) (Vec (map f events)).
Proof. eexists. split; [ reflexivity | apply length_map ]. Qed.

Lemma well_formed_ready (b n : nat) (mc : float) (L : NeutrinoReco (Adam (T:=tensor float))) :
  n <= b -> well_formed b mc L -> ready n mc L.
Proof.
  intros Hn (Hmc & (l1 & E1 & H1) & (l2 & E2 & H2) & (a1 & Ea1 & Ha1) & (b1 & Eb1 & Hb1)
             & (a2 & Ea2 & Ha2) & (b2 & Eb2 & Hb2)).
  unfold ready, slots_cover. rewrite E1, E2, Ea1, Eb1, Ea2, Eb2.
  split; [ exact Hmc | ].
  split; [ | split; cbn; lia ].
  repeat split; apply shape0_covers; cbn; lia.
Qed.

(** The state a call leaves: the two loops, run from the zeroed optimizers
    and the seeded variables. *)
Lemma call_final_state (b : nat) (mc : float) (events : list (Inputs float))
    (L : NeutrinoReco (Adam (T:=tensor float))) :
  length events <= b -> well_formed b mc L ->
  let c := columns events in
  let m := effective_mc (c_lepe c) (c_lepx c) (c_lepy c) (c_lepz c) (Scalar mc) in
  let n := length events in
  exists L',
    call L c = Some (batch_outputs mc events, L') /\
    mass_constraint L' = Scalar mc /\
    (opt1 L', vx1 L') =
      Nat.iter 100 (optimize_iter (Adam (T:=tensor float)) (c_metx c) (c_mety c)
                      (c_lepx c) (c_lepy c) m (lit 1))
        (adam_zeros (opt1 L), assign_prefix (vx1 L) n (c_metx c)) /\
    (opt2 L', vx2 L') =
      Nat.iter 100 (optimize_iter (Adam (T:=tensor float)) (c_metx c) (c_mety c)
                      (c_lepx c) (c_lepy c) m (lit (-1)))
        (adam_zeros (opt2 L), assign_prefix (vx2 L) n (c_metx c)).
Proof.
  intros Hn HL. cbv zeta.
  destruct (@call_ready mc events L (@well_formed_ready b _ mc L Hn HL)) as (L' & E & _).
  exists L'. split; [ exact E | ].
  destruct HL as (Hmc & S1 & S2 & _).
  assert (Hshape : shape0 (c_metx (columns events)) = length events)
    by (cbn; apply length_map).
  pose proof (call_unfold L (columns events)) as Hcall. cbv zeta in Hcall.
  rewrite Hshape in Hcall.
  assert (H1 : length events <= shape0 (vx1 L))
    by (destruct S1 as (l & -> & H); cbn; lia).
  assert (H2 : length events <= shape0 (vx2 L))
    by (destruct S2 as (l & -> & H); cbn; lia).
  specialize (Hcall H1 H2). rewrite Hcall in E. clear Hcall.
  rewrite Hmc in E. cbn [opt_zeros Adam] in E.
  set (c := columns events) in *. set (n := length events) in *.
  pose proof (neutrino_reco_state1 (Adam (T:=tensor float))
                (c_lepe c) (c_lepx c) (c_lepy c) (c_lepz c) (c_metx c) (c_mety c)
                (assign_prefix (vx1 L) n (c_metx c)) (assign_prefix (vx2 L) n (c_metx c))
                (adam_zeros (opt1 L)) (adam_zeros (opt2 L)) (Scalar mc)) as E1.
  pose proof (neutrino_reco_state2 (Adam (T:=tensor float))
                (c_lepe c) (c_lepx c) (c_lepy c) (c_lepz c) (c_metx c) (c_mety c)
                (assign_prefix (vx1 L) n (c_metx c)) (assign_prefix (vx2 L) n (c_metx c))
                (adam_zeros (opt1 L)) (adam_zeros (opt2 L)) (Scalar mc)) as E2.
  cbv zeta in E1, E2.
  revert E E1 E2.
  generalize (neutrino_reco (Adam (T:=tensor float))
                (c_lepe c) (c_lepx c) (c_lepy c) (c_lepz c) (c_metx c) (c_mety c)
                (assign_prefix (vx1 L) n (c_metx c)) (assign_prefix (vx2 L) n (c_metx c))
                (adam_zeros (opt1 L)) (adam_zeros (opt2 L)) (Scalar mc)).
  intros [out [[s1 w1] [s2 w2]]]. cbn [fst snd].
  intros E E1 E2. injection E as _ <-. cbn [mass_constraint opt1 opt2 vx1 vx2].
  split; [ reflexivity | ]. split; [ exact E1 | exact E2 ].
Qed.

Lemma seeded_state_shape (b n : nat) (o : adam_variables (tensor float))
    (v metx : tensor float) :
  n <= b -> has_length b (adam_m o) -> has_length b (adam_v o) -> has_length b v ->
  fits n metx ->
  shaped_state b (adam_zeros o, assign_prefix v n metx).
Proof.
  intros Hn Sm Sv Sx Fx. split; [ | split ]; cbn [fst snd adam_zeros adam_m adam_v].
  - apply has_length_zeros_like, Sm.
  - apply has_length_zeros_like, Sv.
  - apply has_length_assign_prefix; assumption.
Qed.

Lemma fits_effective_mc (mc : float) (events : list (Inputs float)) :
  let c := columns events in
  fits (length events)
    (effective_mc (c_lepe c) (c_lepx c) (c_lepy c) (c_lepz c) (Scalar mc)).
Proof.
  intros c.
  apply (@effective_mc_rel _ _ _ _ _ _ _ _ _ _
           (fun (a : tensor float) (_ : float) => fits (length events) a)
           (fun (c : tensor bool) (_ : bool) => fits (length events) c)
           (fun k => length events <= k)
           (fits_arith_rel _) (fits_ieee_rel _) (fits_shaped_rel _)
           (c_lepe c) 0%float (c_lepx c) 0%float (c_lepy c) 0%float (c_lepz c) 0%float
           (Scalar mc) 0%float); try exact I; cbn; apply length_map.
Qed.

Lemma call_well_formed (b : nat) (mc : float) (events : list (Inputs float))
    (L : NeutrinoReco (Adam (T:=tensor float))) :
  length events <= b -> well_formed b mc L ->
  exists L', call L (columns events) = Some (batch_outputs mc events, L') /\
             well_formed b mc L'.
Proof.
  intros Hn HL.
  destruct (@call_final_state b mc events L Hn HL) as (L' & E & Hmc' & E1 & E2).
  exists L'. split; [ exact E | ].
  destruct HL as (Hmc & S1 & S2 & Sa1 & Sb1 & Sa2 & Sb2).
  set (c := columns events) in *.
  assert (Fc : forall f : Inputs float -> float, fits (length events) (Vec (map f events)))
    by (intros f; cbn; apply length_map).
  pose proof (fits_effective_mc mc events) as Fm. cbv zeta in Fm. fold c in Fm.
  pose proof (@optimize_loop_shape b (length events) (c_metx c) (c_mety c) (c_lepx c) (c_lepy c)
                _ (lit 1) _ 100 Hn (has_length_column _ events) (Fc _) (Fc _) (Fc _) Fm I
                (@seeded_state_shape b _ (opt1 L) (vx1 L) (c_metx c) Hn Sa1 Sb1 S1 (Fc _)))
    as R1.
  pose proof (@optimize_loop_shape b (length events) (c_metx c) (c_mety c) (c_lepx c) (c_lepy c)
                _ (lit (-1)) _ 100 Hn (has_length_column _ events) (Fc _) (Fc _) (Fc _) Fm I
                (@seeded_state_shape b _ (opt2 L) (vx2 L) (c_metx c) Hn Sa2 Sb2 S2 (Fc _)))
    as R2.
  rewrite <- E1 in R1. rewrite <- E2 in R2.
  destruct R1 as (A1 & B1 & X1), R2 as (A2 & B2 & X2). cbn [fst snd] in *.
  unfold well_formed. repeat split; assumption.
Qed.

Lemma build_well_formed (mc : float) (init1 init2 : list float) :
  length init1 = length init2 -> well_formed (length init1) mc (build mc init1 init2).
Proof.
  intros H. unfold well_formed, build. cbn [mass_constraint vx1 vx2 opt1 opt2 adam_m adam_v].
  split; [ reflexivity | ].
  repeat split; eexists; (split; [ reflexivity | ]); rewrite ?length_map; congruence.
Qed.

(** X16: a layer keeps its shape from call to call: called on any
    sequence of batches of at most [batch_size] events, every call
    succeeds and returns the per-event triples of its own batch, whatever
    the batches before it. *)
Theorem successive_calls_are_independent (b : nat) (mc : float)
    (batches : list (list (Inputs float))) (L : NeutrinoReco (Adam (T:=tensor float))) :
  well_formed b mc L ->
  Forall (fun events => length events <= b) batches ->
  exists L', run_calls L batches = Some (map (batch_outputs mc) batches, L') /\
             well_formed b mc L'.
Proof.
  intros HL HB. revert L HL. induction HB as [|events rest Hn _ IH]; intros L HL.
  - exists L. split; [ reflexivity | exact HL ].
  - destruct (@call_well_formed b mc events L Hn HL) as (L1 & E1 & HL1).
    destruct (IH L1 HL1) as (L2 & E2 & HL2).
    exists L2. split; [ | exact HL2 ].
    cbn [run_calls map]. rewrite E1, E2. reflexivity.
Qed.

Lemma successive_calls_are_independent_witness :
  exists L',
    run_calls example_layer [example_batch; [heavy_event]; []; example_batch] =
    Some (map (batch_outputs W_mass) [example_batch; [heavy_event]; []; example_batch], L').
Proof.
  destruct (@successive_calls_are_independent 4 W_mass
              [example_batch; [heavy_event]; []; example_batch] example_layer)
    as (L' & E & _).
  - apply (@build_well_formed W_mass [7; 7; 7; 7]%float [7; 7; 7; 7]%float). reflexivity.
  - repeat constructor; cbn; lia.
  - exists L'. exact E.
Defined.


End Shapes.

(** ** The entries beyond the batch *)

Section Tail.
Local Open Scope nat_scope.

Lemma is_pos_zero_eq (f : float) : is_pos_zero f = true -> f = 0%float.
Proof.
  unfold is_pos_zero. intros H. apply Prim2SF_inj.
  destruct (Prim2SF f) as [[|]| | |]; try discriminate. reflexivity.
Qed.

Lemma sub_zero_r (x : float) : (x - 0)%float = x.
Proof.
  apply Prim2SF_inj. rewrite sub_spec. change (Prim2SF 0) with (S754_zero false).
  unfold SF64sub, SFsub. destruct (Prim2SF x) as [[|]|[|]| |]; reflexivity.
Qed.

(** With zeroed slots and a zero gradient, each of the first hundred steps
    of Adam leaves the slots zero and the variable as it is. *)
Lemma adam_step_zero (k : nat) (x : float) :
  k < 100 ->
  adam_apply (Build_adam_variables (Z.of_nat k) 0%float 0%float) 0%float x =
  (Build_adam_variables (Z.of_nat k + 1) 0%float 0%float, x).
Proof.
  intros Hk. unfold adam_apply. cbv zeta. cbn [iterations adam_m adam_v].
  assert (Hall : forallb (fun k : nat =>
            is_pos_zero
              (learning_rate * sqrt (#1 - pow_nat beta_2 (Z.to_nat (Z.of_nat k + 1)))
               / (#1 - pow_nat beta_1 (Z.to_nat (Z.of_nat k + 1)))
               * (0%float + (0%float - 0%float) * (#1 - beta_1))
               / (sqrt (0%float + (sq 0%float - 0%float) * (#1 - beta_2)) + epsilon))%tf)
          (seq 0 100) = true) by (vm_compute; reflexivity).
  rewrite forallb_forall in Hall.
  assert (Hin : In k (seq 0 100)) by (apply in_seq; lia).
  rewrite (is_pos_zero_eq _ (Hall k Hin)), !sub_zero_r.
  reflexivity.
Qed.

Lemma get_assign_prefix_tail {A : Type} (b n j : nat) (v x : tensor A) :
  n <= b -> n <= j -> has_length b v -> fits n x ->
  get j (tensor_assign_prefix v n x) = get j v.
Proof.
  intros Hn Hj (lv & -> & Hv) Hx. destruct x as [c|lx]; cbn in *.
  - rewrite nth_error_app2 by (rewrite repeat_length; lia).
    rewrite repeat_length, nth_error_skipn. f_equal. lia.
  - rewrite firstn_all2 by lia.
    rewrite nth_error_app2 by lia. rewrite nth_error_skipn. f_equal. lia.
Qed.

Lemma get_zeros_like (b j : nat) (t : tensor float) :
  j < b -> has_length b t -> get j (zeros_like t) = Some 0%float.
Proof.
  intros Hj (l & -> & Hl). cbn. rewrite nth_error_map.
  destruct (nth_error l j) eqn:E; [ reflexivity | ].
  apply nth_error_None in E. lia.
Qed.

Lemma gradient_shape (b n : nat) (metx mety lepx lepy m sign v : tensor float) :
  n <= b -> fits n metx ->
  fits n mety -> fits n lepx -> fits n lepy -> fits n m -> fits n sign ->
  has_length b v ->
  fits n (der (opt (variable (take n v)) (const lepx) (const lepy) (const metx)
                   (const mety) (const m) (const sign))).
Proof.
  intros Hn Hmx Hmy Hlx Hly Hm Hs Sx.
  apply (@opt_rel _ _ _ _ _ _
           (dual_rel (fun (a : tensor float) (_ : float) => fits n a))
           (fun (c : tensor bool) (_ : bool) => fits n c)
           (dual_arith_rel (fits_arith_rel n))
           (variable (take n v)) (variable 0%float)
           (const lepx) (const 0%float) (const lepy) (const 0%float)
           (const metx) (const 0%float) (const mety) (const 0%float)
           (const m) (const 0%float) (const sign) (const 0%float));
    try (apply (const_rel (fits_arith_rel n)); assumption).
  apply (variable_rel (fits_arith_rel n)).
  apply has_length_fits, (@has_length_take _ b n v Hn Sx).
Qed.

Lemma optimize_iter_idle (b n j i : nat) (x : float)
    (metx mety lepx lepy m sign : tensor float)
    (st : adam_variables (tensor float) * tensor float) :
  n <= j -> j < b -> i < 100 -> has_length n metx ->
  fits n mety -> fits n lepx -> fits n lepy -> fits n m -> fits n sign ->
  shaped_state b st -> idle_at j i x st ->
  idle_at j (Datatypes.S i) x
    (optimize_iter (Adam (T:=tensor float)) metx mety lepx lepy m sign st).
Proof.
  intros Hj Hb Hi Hmx Hmy Hlx Hly Hm Hs (Sm & Sv & Sx) (Ii & Im & Iv & Ix).
  assert (Hn : n <= b) by lia.
  assert (Hshape : shape0 metx = n) by (destruct Hmx as (l & -> & H); exact H).
  pose proof (has_length_fits Hmx) as Fmx.
  destruct st as [o v]. cbn [fst snd] in *.
  unfold idle_at, optimize_iter, minimize. cbv zeta. rewrite Hshape.
  cbn [fst snd apply_gradients Adam opt_variables].
  pose proof (@gradient_shape b n metx mety lepx lepy m sign v Hn Fmx Hmy Hlx Hly Hm Hs Sx)
    as Fg.
  assert (Hg : has_length b
            (gradient (fun w : dual (tensor float) =>
                         opt w (const lepx) (const lepy) (const metx) (const mety)
                             (const m) (const sign)) n v)).
  { unfold gradient. apply has_length_assign_prefix; [ exact Hn | | exact Fg ].
    apply has_length_zeros_like, Sx. }
  assert (Gj : get j
            (gradient (fun w : dual (tensor float) =>
                         opt w (const lepx) (const lepy) (const metx) (const mety)
                             (const m) (const sign)) n v) = Some 0%float).
  { unfold gradient. cbn [assign_prefix tensor_shaped].
    rewrite (@get_assign_prefix_tail _ b n j) by
      (try assumption; apply has_length_zeros_like, Sx).
    apply (@get_zeros_like b j v Hb Sx). }
  revert Hg Gj.
  match goal with
  | |- has_length b ?G -> _ => generalize G; intros g Hg Gj
  end.
  destruct (@adam_apply_shape b o g v Sm Sv Hg Sx) as (Sm' & Sv' & Sx').
  destruct (@adam_apply_at_event j o (Build_adam_variables (Z.of_nat i) 0%float 0%float)
              g 0%float v x) as ((Ji & Jm & Jv) & Jx);
    [ split; [ exact Ii | split; [ exact Im | exact Iv ] ] | exact Gj | exact Ix | ].
  cbn [apply_gradients Adam opt_variables] in Ji, Jm, Jv, Jx.
  rewrite (@adam_step_zero i x Hi) in Ji, Jm, Jv, Jx.
  cbn [fst snd iterations adam_m adam_v] in Ji, Jm, Jv, Jx.
  cbn [fst snd] in Sm', Sv', Sx'.
  split; [ | split; [ exact Jm | split; [ exact Jv | ] ] ].
  - rewrite Ji. lia.
  - cbn [assign_prefix tensor_shaped].
    rewrite (@get_assign_prefix_tail _ b n j); try assumption.
    apply (@vx_constrain_rel _ _ _ _ _ _ _ _
             (fun (a : tensor float) (_ : float) => fits n a)
             (fun (c : tensor bool) (_ : bool) => fits n c)
             (fits_arith_rel n) (fits_ieee_rel n)
             _ 0%float lepx 0%float m 0%float); try assumption.
    apply has_length_fits, has_length_take with (b := b); [ exact Hn | exact Sx' ].
Qed.

Lemma optimize_loop_idle (b n j : nat) (x : float)
    (metx mety lepx lepy m sign : tensor float)
    (st : adam_variables (tensor float) * tensor float) (k : nat) :
  n <= j -> j < b -> k <= 100 -> has_length n metx ->
  fits n mety -> fits n lepx -> fits n lepy -> fits n m -> fits n sign ->
  shaped_state b st -> idle_at j 0 x st ->
  idle_at j k x
    (Nat.iter k (optimize_iter (Adam (T:=tensor float)) metx mety lepx lepy m sign) st).
Proof.
  intros Hj Hb Hk Hmx Hmy Hlx Hly Hm Hs Sst Ist. induction k; [ exact Ist | ].
  rewrite Nat.iter_succ.
  apply optimize_iter_idle with (b := b) (n := n); try assumption; try lia.
  - apply optimize_loop_shape with (n := n); try assumption. lia.
  - apply IHk. lia.
Qed.


(** X17: a call on [N] events changes only the first [N] entries of the
    variables [vx1] and [vx2]: the gradient is zero beyond the batch, and
    Adam with zeroed slots and a zero gradient does not move a variable. *)
Theorem call_leaves_the_tail (b : nat) (mc : float) (events : list (Inputs float))
    (L : NeutrinoReco (Adam (T:=tensor float))) :
  length events <= b -> well_formed b mc L ->
  exists out L',
    call L (columns events) = Some (out, L') /\
    forall j, length events <= j ->
      get j (vx1 L') = get j (vx1 L) /\ get j (vx2 L') = get j (vx2 L).
Proof.
  intros Hn HL.
  destruct (@call_final_state b mc events L Hn HL) as (L' & E & Hmc' & E1 & E2).
  destruct (@call_well_formed b mc events L Hn HL) as (L'' & E' & HL').
  rewrite E in E'. injection E' as <-.
  exists (batch_outputs mc events), L'. split; [ exact E | ].
  intros j Hj.
  destruct HL as (Hmc & S1 & S2 & Sa1 & Sb1 & Sa2 & Sb2).
  destruct HL' as (_ & T1 & T2 & _).
  destruct (Nat.lt_ge_cases j b) as [Hb | Hb].
  2:{ destruct S1 as (l1 & -> & H1), S2 as (l2 & -> & H2),
               T1 as (k1 & -> & K1), T2 as (k2 & -> & K2). cbn [get].
      split; transitivity (@None float);
        try (apply nth_error_None; lia); symmetry; apply nth_error_None; lia. }
  set (c := columns events) in *.
  assert (Fc : forall f : Inputs float -> float, fits (length events) (Vec (map f events)))
    by (intros f; cbn; apply length_map).
  pose proof (fits_effective_mc mc events) as Fm. cbv zeta in Fm. fold c in Fm.
  assert (Hidle : forall (o : adam_variables (tensor float)) (v : tensor float) sign,
            has_length b (adam_m o) -> has_length b (adam_v o) -> has_length b v ->
            fits (length events) sign ->
            get j (snd (Nat.iter 100
                     (optimize_iter (Adam (T:=tensor float)) (c_metx c) (c_mety c)
                        (c_lepx c) (c_lepy c)
                        (effective_mc (c_lepe c) (c_lepx c) (c_lepy c) (c_lepz c) (Scalar mc))
                        sign)
                     (adam_zeros o, assign_prefix v (length events) (c_metx c))))
            = get j v).
  { intros o v sign Sm Sv Sx Fs.
    destruct Sx as (lv & Ev & Hv).
    destruct (nth_error lv j) as [x|] eqn:Ex; [ | apply nth_error_None in Ex; lia ].
    assert (Sx : has_length b v) by (exists lv; split; assumption).
    assert (Hx : get j v = Some x) by (rewrite Ev; exact Ex).
    rewrite Hx.
    apply (@optimize_loop_idle b (length events) j x (c_metx c) (c_mety c) (c_lepx c) (c_lepy c)
             _ sign (adam_zeros o, assign_prefix v (length events) (c_metx c)) 100);
      try assumption; try apply Fc; try lia.
    - apply has_length_column.
    - apply seeded_state_shape; try assumption. apply Fc.
    - split; [ reflexivity | ]. cbn [fst snd adam_zeros adam_m adam_v].
      split; [ apply (@get_zeros_like b j _ Hb Sm) | ].
      split; [ apply (@get_zeros_like b j _ Hb Sv) | ].
      cbn [assign_prefix tensor_shaped].
      rewrite (@get_assign_prefix_tail _ b (length events) j); try assumption.
      apply Fc. }
  split.
  - change (vx1 L') with (snd (opt1 L', vx1 L')). rewrite E1.
    apply Hidle; try assumption. exact I.
  - change (vx2 L') with (snd (opt2 L', vx2 L')). rewrite E2.
    apply Hidle; try assumption. exact I.
Qed.

Lemma call_leaves_the_tail_witness :
  exists out L',
    call example_layer (columns example_batch) = Some (out, L') /\
    get 3 (vx1 L') = Some 7%float /\ get 3 (vx2 L') = Some 7%float.
Proof.
  destruct (@call_leaves_the_tail 4 W_mass example_batch example_layer)
    as (out & L' & E & H).
  - cbn. lia.
  - apply (@build_well_formed W_mass [7; 7; 7; 7]%float [7; 7; 7; 7]%float). reflexivity.
  - exists out, L'. split; [ exact E | ]. apply (H 3). cbn. lia.
Defined.

End Tail.

(** ** The gradient of the objective *)

Section Differentiation.
Local Open Scope R_scope.

Lemma sound_const (c x : R) : sound (fun _ => const c) x.
Proof. unfold sound. cbn. apply (derivable_pt_lim_const c). Qed.

Lemma sound_variable (x : R) : sound (fun v => variable v) x.
Proof. unfold sound. cbn. apply derivable_pt_lim_id. Qed.

Lemma sound_add (d1 d2 : R -> dual R) (x : R) :
  sound d1 x -> sound d2 x -> sound (fun v => (d1 v + d2 v)%tf) x.
Proof. unfold sound. cbn. intros H1 H2. apply (derivable_pt_lim_plus _ _ _ _ _ H1 H2). Qed.

Lemma sound_sub (d1 d2 : R -> dual R) (x : R) :
  sound d1 x -> sound d2 x -> sound (fun v => (d1 v - d2 v)%tf) x.
Proof. unfold sound. cbn. intros H1 H2. apply (derivable_pt_lim_minus _ _ _ _ _ H1 H2). Qed.

Lemma sound_mul (d1 d2 : R -> dual R) (x : R) :
  sound d1 x -> sound d2 x -> sound (fun v => (d1 v * d2 v)%tf) x.
Proof. unfold sound. cbn. intros H1 H2. apply (derivable_pt_lim_mult _ _ _ _ _ H1 H2). Qed.

Lemma sound_div (d1 d2 : R -> dual R) (x : R) :
  val (d2 x) <> 0 ->
  sound d1 x -> sound d2 x -> sound (fun v => (d1 v / d2 v)%tf) x.
Proof.
  unfold sound. cbn. intros Hn H1 H2.
  replace (der (d1 x) / val (d2 x) - val (d1 x) * der (d2 x) / (val (d2 x) * val (d2 x)))
    with ((der (d1 x) * val (d2 x) - der (d2 x) * val (d1 x)) / Rsqr (val (d2 x)))
    by (unfold Rsqr; field; exact Hn).
  apply (derivable_pt_lim_div _ _ _ _ _ H1 H2 Hn).
Qed.

Lemma sound_sqrt (d : R -> dual R) (x : R) :
  0 < val (d x) -> sound d x -> sound (fun v => sqrt (d v)) x.
Proof.
  unfold sound. cbn. intros Hp H.
  replace (der (d x) / (2 * R_sqrt.sqrt (val (d x))))
    with (/ (2 * R_sqrt.sqrt (val (d x))) * der (d x)).
  2:{ field. intros E. apply sqrt_eq_0 in E; lra. }
  apply (derivable_pt_lim_comp (fun v => val (d v)) R_sqrt.sqrt x _ _ H).
  apply derivable_pt_lim_sqrt. exact Hp.
Qed.

(** X18: the gradient the optimizer is given is the derivative of the
    objective: where [lepx <> 0] and the radicand is positive, the
    derivative part of [opt] on dual numbers is the derivative of [opt] in
    its first argument. *)
Theorem gradient_is_the_derivative (vx lepx lepy metx mety mc sign : R) :
  lepx <> 0 -> 0 < radicand vx lepx lepy mc ->
  derivable_pt_lim (fun v => opt v lepx lepy metx mety mc sign) vx
    (gradient (fun v => opt v (const lepx) (const lepy) (const metx) (const mety)
                            (const mc) (const sign)) 1 vx).
Proof.
  intros Hx Hr.
  change (sound (fun v => opt (variable v) (const lepx) (const lepy) (const metx)
                              (const mety) (const mc) (const sign)) vx).
  unfold opt, shift, calc_vy, sq. cbv zeta.
  repeat lazymatch goal with
    | |- sound (fun v => variable v) _ => apply sound_variable
    | |- sound (fun _ => const _) _ => apply sound_const
    | |- sound (fun _ => lit _) _ => apply (sound_const (IZR _))
    | |- sound (fun v => add (@?a v) (@?b v)) _ => apply (@sound_add a b)
    | |- sound (fun v => sub (@?a v) (@?b v)) _ => apply (@sound_sub a b)
    | |- sound (fun v => mul (@?a v) (@?b v)) _ => apply (@sound_mul a b)
    | |- sound (fun v => div (@?a v) (@?b v)) _ => apply (@sound_div a b)
    | |- sound (fun v => sqrt (@?a v)) _ => apply (@sound_sqrt a)
    end;
    first [ exact Hr | cbn; lra | cbn; nra ].
Qed.


Lemma gradient_is_the_derivative_witness :
  derivable_pt_lim (fun v => opt v 1 0 3 4 2 1) 0
    (gradient (fun v => opt v (const 1) (const 0) (const 3) (const 4) (const 2) (const 1)) 1 0).
Proof.
  apply (@gradient_is_the_derivative 0 1 0 3 4 2 1).
  - lra.
  - unfold radicand. cbv [sq add mul div lit real_arith]. lra.
Defined.

(** The constraint curve in the terms of [calc_vy]: [lepx^2] times the
    defect of the curve equation at [(vx, vy)] is the defect of
    [u^2 = radicand], where [u] is what [calc_vy] adds the square root to. *)
Lemma curve_identity (vx vy lepx lepy mc : R) :
  let u := lepx * lepx * vy - (lepx * lepy * vx + lepy * (mc * mc) / 2) in
  lepx * lepx * ((sq lepx + sq lepy) * (sq vx + sq vy) - sq (get_k lepx lepy vx vy mc))
  = u * u - radicand vx lepx lepy mc.
Proof.
  unfold radicand, get_k, sq. cbn [add sub mul div lit real_arith]. field.
Qed.

Lemma calc_vy_offset (vx lepx lepy mc sign : R) :
  lepx <> 0 ->
  lepx * lepx * calc_vy vx lepx lepy mc sign false
    - (lepx * lepy * vx + lepy * (mc * mc) / 2)
  = sign * R_sqrt.sqrt (radicand vx lepx lepy mc).
Proof.
  intros Hx. unfold calc_vy, radicand, sq. cbn [add sub mul div lit sqrt real_arith].
  field. exact Hx.
Qed.

Lemma shift_zero (vx vy metx mety : R) :
  shift vx vy metx mety = 0 -> metx = vx /\ mety = vy.
Proof.
  unfold shift, sq. cbn [add sub mul real_arith]. intros H.
  pose proof (Rle_0_sqr (metx - vx)) as H1. pose proof (Rle_0_sqr (mety - vy)) as H2.
  unfold Rsqr in H1, H2.
  assert (E1 : (metx - vx) * (metx - vx) = 0) by lra.
  assert (E2 : (mety - vy) * (mety - vy) = 0) by lra.
  apply Rmult_integral in E1, E2. split; [ destruct E1 | destruct E2 ]; lra.
Qed.

(** X19: in exact arithmetic and for [lepx <> 0], the objective of a sign
    branch is zero at a trial [vx0] with a non-negative radicand only if
    [vx0 = metx] and the MET lies on the constraint curve
    [k^2 = leppt^2 * metpt^2]; and for a MET on the curve the objective is
    zero at [vx0 = metx] for the sign [+1] or for the sign [-1]. *)
Theorem objective_zero_on_the_curve (lepx lepy metx mety mc : R) :
  lepx <> 0 ->
  (forall vx0 sign : R,
     sign = 1 \/ sign = -1 -> 0 <= radicand vx0 lepx lepy mc ->
     opt vx0 lepx lepy metx mety mc sign = 0 ->
     vx0 = metx /\
     sq (get_k lepx lepy metx mety mc) = (sq lepx + sq lepy) * (sq metx + sq mety)) /\
  (sq (get_k lepx lepy metx mety mc) = (sq lepx + sq lepy) * (sq metx + sq mety) ->
   exists sign : R,
     (sign = 1 \/ sign = -1) /\ 0 <= radicand metx lepx lepy mc /\
     opt metx lepx lepy metx mety mc sign = 0).
Proof.
  intros Hx.
  assert (Hxx : lepx * lepx <> 0) by (apply Rmult_integral_contrapositive_currified; exact Hx).
  split.
  - intros vx0 sign Hs Hrad H0. unfold opt in H0. cbv zeta in H0.
    apply shift_zero in H0. destruct H0 as [Ex Ey]. split; [ symmetry; exact Ex | ].
    pose proof (curve_identity vx0 (calc_vy vx0 lepx lepy mc sign false) lepx lepy mc) as Hc.
    cbv zeta in Hc. rewrite (@calc_vy_offset vx0 lepx lepy mc sign Hx) in Hc.
    rewrite <- Ey, <- Ex in Hc.
    assert (Hsq : sign * R_sqrt.sqrt (radicand vx0 lepx lepy mc)
                  * (sign * R_sqrt.sqrt (radicand vx0 lepx lepy mc))
                  = radicand vx0 lepx lepy mc).
    { transitivity (sign * sign * (R_sqrt.sqrt (radicand vx0 lepx lepy mc)
                                   * R_sqrt.sqrt (radicand vx0 lepx lepy mc))); [ ring | ].
      rewrite sqrt_sqrt by exact Hrad. destruct Hs; subst sign; ring. }
    rewrite <- Ex in Hsq. rewrite Hsq in Hc.
    apply (Rmult_eq_reg_l (lepx * lepx)); [ | exact Hxx ]. lra.
  - intros Hc.
    pose proof (curve_identity metx mety lepx lepy mc) as Hi. cbv zeta in Hi.
    set (u := lepx * lepx * mety - (lepx * lepy * metx + lepy * (mc * mc) / 2)) in *.
    assert (Hu : u * u = radicand metx lepx lepy mc).
    { rewrite Hc in Hi. lra. }
    assert (Hrad : 0 <= radicand metx lepx lepy mc).
    { rewrite <- Hu. apply Rle_0_sqr. }
    assert (Hsqrt : R_sqrt.sqrt (radicand metx lepx lepy mc) = Rabs u).
    { rewrite <- Hu. apply sqrt_Rsqr_abs. }
    assert (Hy : forall sign, sign * Rabs u = u ->
                 calc_vy metx lepx lepy mc sign false = mety).
    { intros sign E. apply (Rmult_eq_reg_l (lepx * lepx)); [ | exact Hxx ].
      pose proof (@calc_vy_offset metx lepx lepy mc sign Hx) as Ho.
      rewrite Hsqrt, E in Ho. unfold u in Ho. lra. }
    assert (Hopt : forall sign, sign * Rabs u = u ->
                   opt metx lepx lepy metx mety mc sign = 0).
    { intros sign E. unfold opt. cbv zeta. rewrite (Hy sign E).
      unfold shift, sq. cbn [add sub mul real_arith]. ring. }
    destruct (Rle_dec 0 u) as [Hpos | Hneg].
    + exists 1. split; [ now left | ]. split; [ exact Hrad | ].
      apply Hopt. rewrite Rabs_right by lra. ring.
    + exists (-1). split; [ now right | ]. split; [ exact Hrad | ].
      apply Hopt. rewrite Rabs_left by lra. ring.
Qed.

Lemma objective_zero_on_the_curve_witness :
  exists sign : R,
    (sign = 1 \/ sign = -1) /\ 0 <= radicand 0 1 0 2 /\ opt 0 1 0 0 2 2 sign = 0.
Proof.
  assert (Hx : (1 : R) <> 0) by lra.
  apply (proj2 (@objective_zero_on_the_curve 1 0 0 2 2 Hx)).
  unfold get_k, sq. cbn [add sub mul div lit real_arith]. lra.
Defined.

End Differentiation.

(** ** The numeric solver stays in the half-line *)

Section Caught.
Local Open Scope tf_scope.

Lemma boundary_in_half_line (lepx mc : float) :
  is_nan (boundary lepx mc) = false -> in_half_line lepx mc (boundary lepx mc) = true.
Proof.
  intros H. unfold in_half_line. destruct (PrimFloat.leb 0 lepx); apply leb_refl, H.
Qed.

Lemma in_half_line_not_nan (lepx mc vx : float) :
  in_half_line lepx mc vx = true -> is_nan vx = false.
Proof.
  unfold in_half_line. destruct (PrimFloat.leb 0 lepx); intros H;
    destruct (leb_not_nan H) as [H1 H2]; assumption.
Qed.

Lemma caught_in_half_line (lepx mc vx : float) :
  is_nan (boundary lepx mc) = false ->
  is_nan vx = true \/ in_half_line lepx mc vx = true ->
  in_half_line lepx mc (caught lepx mc vx) = true.
Proof.
  intros Hb [H | H]; unfold caught.
  - change (PrimFloat.is_nan vx) with (is_nan vx). rewrite H.
    apply boundary_in_half_line, Hb.
  - pose proof (in_half_line_not_nan _ _ _ H) as Hn.
    change (PrimFloat.is_nan vx) with (is_nan vx). rewrite Hn. exact H.
Qed.

Lemma fit_nan_or_inside (O : Optimizer float) (o : opt_variables O)
    (vx metx mety lepx lepy mc sign : float) :
  let f1 := fst (optimize1 O o vx metx mety lepx lepy mc sign) in
  let f2 := fst (optimize2 O o vx metx mety lepx lepy mc sign) in
  (is_nan f1 = true \/ in_half_line lepx mc f1 = true) /\
  (is_nan f2 = true \/ in_half_line lepx mc f2 = true).
Proof.
  cbv zeta. rewrite optimize1_unfold, optimize2_unfold. cbn [fst take float_shaped].
  change 100%nat with (Datatypes.S 99). rewrite Nat.iter_succ.
  destruct (optimize_iter_projects O metx mety lepx lepy mc sign
              (Nat.iter 99 (optimize_iter O metx mety lepx lepy mc sign) (o, vx))) as [w ->].
  split; apply vx_constrain_nan_or_inside.
Qed.

(** X20: whatever the optimizer, the [vx] the numeric solver returns lies
    in the half-line of the projection and is not NaN, provided the
    boundary value is not NaN: a fit is NaN or in the half-line, and a NaN
    fit is replaced by the boundary. *)
Theorem numeric_vx_in_half_line (O : Optimizer float)
    (lepe lepx lepy lepz metx mety vx1 vx2 : float) (o1 o2 : opt_variables O) (mc : float) :
  is_nan (boundary lepx mc) = false ->
  let vx := fst (fst (fst (neutrino_reco_complex O lepe lepx lepy lepz metx mety
                             vx1 vx2 o1 o2 mc))) in
  in_half_line lepx mc vx = true /\ is_nan vx = false.
Proof.
  intros Hb vx.
  assert (H : in_half_line lepx mc vx = true).
  { subst vx. rewrite neutrino_reco_complex_unfold.
    destruct (fit_nan_or_inside O o1 vx1 metx mety lepx lepy mc #1) as [F1 _].
    destruct (fit_nan_or_inside O o2 vx2 metx mety lepx lepy mc #(-1)) as [_ F2].
    revert F1 F2.
    generalize (fst (optimize1 O o1 vx1 metx mety lepx lepy mc #1))
               (fst (optimize2 O o2 vx2 metx mety lepx lepy mc #(-1))).
    intros f1 f2 F1 F2. rewrite select_branch_unfold. cbv zeta. cbn [fst].
    match goal with |- in_half_line _ _ (if ?c then _ else _) = _ => destruct c end;
      apply caught_in_half_line; assumption. }
  split; [ exact H | apply (in_half_line_not_nan _ _ _ H) ].
Qed.

Lemma numeric_vx_in_half_line_witness :
  in_half_line 34%float 80%float
    (fst (fst (fst (neutrino_reco_complex (Adam (T:=float))
                      35%float 34%float (-1)%float (-6)%float (-63)%float (-72)%float
                      (-63)%float (-63)%float adam_fresh adam_fresh 80%float)))) = true.
Proof.
  pose proof (@numeric_vx_in_half_line (Adam (T:=float))
                35%float 34%float (-1)%float (-6)%float (-63)%float (-72)%float
                (-63)%float (-63)%float adam_fresh adam_fresh 80%float) as H.
  cbv zeta in H. destruct H as [H _]; [ vm_compute; reflexivity | exact H ].
Defined.

End Caught.

(** ** A NaN in the MET *)

Section NanMet.
Local Open Scope tf_scope.









End NanMet.

(** ** The variables after a call *)

Section Stored.
Local Open Scope nat_scope.


Lemma seeded_state_at_event (b : nat) (events : list (Inputs float)) (i : nat)
    (ev : Inputs float) (o : adam_variables (tensor float)) (v : tensor float) :
  length events <= b -> nth_error events i = Some ev ->
  has_length b (adam_m o) -> has_length b (adam_v o) -> has_length b v ->
  adam_rel (at_event i) (adam_zeros o) adam_fresh /\
  at_event i (assign_prefix v (length events) (c_metx (columns events))) (c_metx ev).
Proof.
  intros Hn Hev (lm & Em & Hm) (lv & Ev & Hv) (lx & Ex & Hx).
  assert (Hi : i < length events) by (apply nth_error_Some; congruence).
  assert (Hget : forall l : list float, length l = b -> exists x, nth_error l i = Some x).
  { intros l Hl. destruct (nth_error l i) eqn:E; [ eexists; reflexivity | ].
    apply nth_error_None in E. lia. }
  destruct (Hget lm Hm) as [a Ha], (Hget lv Hv) as [c Hc], (Hget lx Hx) as [d Hd].
  split.
  - unfold adam_zeros, adam_rel. cbn [iterations adam_m adam_v adam_fresh].
    split; [ reflexivity | ].
    split; eapply (rel_zeros_like (tensor_shaped_rel i)); unfold at_event;
      [ rewrite Em | rewrite Ev ]; cbn [get]; eassumption.
  - eapply (rel_assign_prefix (tensor_shaped_rel i) _ 1%nat); [ exact Hi | | ].
    + unfold at_event. rewrite Ex. cbn [get]. eassumption.
    + unfold at_event, columns. cbn [c_metx get]. rewrite nth_error_map, Hev. reflexivity.
Qed.

(** X22: after a call the first [N] entries of [vx1] and [vx2] hold the
    fits of the events of the batch: entry [i] of [vx1] is what [optimize1]
    returns for event [i] alone with the sign [+1], entry [i] of [vx2] what
    [optimize2] returns with the sign [-1] (before failed fits are
    caught). *)
Theorem call_stores_the_fits (b : nat) (mc : float) (events : list (Inputs float))
    (L : NeutrinoReco (Adam (T:=tensor float))) (i : nat) (ev : Inputs float) :
  length events <= b -> well_formed b mc L -> nth_error events i = Some ev ->
  exists out L',
    call L (columns events) = Some (out, L') /\
    get i (vx1 L') =
      Some (fst (optimize1 (Adam (T:=float)) adam_fresh (c_metx ev) (c_metx ev) (c_mety ev)
                   (c_lepx ev) (c_lepy ev) (event_mc mc ev) (lit 1))) /\
    get i (vx2 L') =
      Some (fst (optimize2 (Adam (T:=float)) adam_fresh (c_metx ev) (c_metx ev) (c_mety ev)
                   (c_lepx ev) (c_lepy ev) (event_mc mc ev) (lit (-1)))).
Proof.
  intros Hn HL Hev.
  destruct (@call_final_state b mc events L Hn HL) as (L' & E & _ & E1 & E2).
  exists (batch_outputs mc events), L'. split; [ exact E | ].
  destruct HL as (_ & S1 & S2 & Sa1 & Sb1 & Sa2 & Sb2).
  assert (Hi : i < length events) by (apply nth_error_Some; congruence).
  set (c := columns events) in *.
  assert (Hm : at_event i
                 (effective_mc (c_lepe c) (c_lepx c) (c_lepy c) (c_lepz c) (Scalar mc))
                 (event_mc mc ev)).
  { apply (effective_mc_rel (@tensor_arith_rel float bool float_arith i)
             (@tensor_ieee_rel float bool float_arith float_ieee i)
             (tensor_shaped_rel i));
      try (apply column_at_event; exact Hev). reflexivity. }
  assert (Hloop : forall (o : adam_variables (tensor float)) (v : tensor float) (z : Z),
            has_length b (adam_m o) -> has_length b (adam_v o) -> has_length b v ->
            at_event i
              (snd (Nat.iter 100
                      (optimize_iter (Adam (T:=tensor float)) (c_metx c) (c_mety c)
                         (c_lepx c) (c_lepy c)
                         (effective_mc (c_lepe c) (c_lepx c) (c_lepy c) (c_lepz c) (Scalar mc))
                         (lit z))
                      (adam_zeros o, assign_prefix v (length events) (c_metx c))))
              (snd (Nat.iter 100
                      (optimize_iter (Adam (T:=float)) (c_metx ev) (c_mety ev)
                         (c_lepx ev) (c_lepy ev) (event_mc mc ev) (lit z))
                      (adam_fresh, c_metx ev)))).
  { intros o v z Sm Sv Sx.
    apply (optimize_loop_rel (@tensor_arith_rel float bool float_arith i)
             (@tensor_ieee_rel float bool float_arith float_ieee i)
             (tensor_shaped_rel i)
             (Adam (T:=tensor float)) (Adam (T:=float))
             (adam_rel (at_event i)) (@adam_apply_at_event i)
             (c_metx c) (c_metx ev) (c_mety c) (c_mety ev) (c_lepx c) (c_lepx ev)
             (c_lepy c) (c_lepy ev) _ (event_mc mc ev) (lit z) (lit z) 100);
      try (apply column_at_event; exact Hev); try exact Hm.
    - cbn. rewrite length_map. exact Hi.
    - reflexivity.
    - apply (@seeded_state_at_event b events i ev o v Hn Hev Sm Sv Sx). }
  split.
  - change (vx1 L') with (snd (opt1 L', vx1 L')). rewrite E1.
    rewrite optimize1_unfold. cbn [fst take float_shaped].
    apply (Hloop _ _ 1%Z Sa1 Sb1 S1).
  - change (vx2 L') with (snd (opt2 L', vx2 L')). rewrite E2.
    rewrite optimize2_unfold. cbn [fst take float_shaped].
    apply (Hloop _ _ (-1)%Z Sa2 Sb2 S2).
Qed.

Lemma call_stores_the_fits_witness :
  exists out L',
    call example_layer (columns example_batch) = Some (out, L') /\
    get 2 (vx1 L') = Some nan.
Proof.
  destruct (@call_stores_the_fits 4 W_mass example_batch example_layer 2 outside_event)
    as (out & L' & E & H & _).
  - cbn. lia.
  - apply (@build_well_formed W_mass [7; 7; 7; 7]%float [7; 7; 7; 7]%float). reflexivity.
  - reflexivity.
  - exists out, L'. split; [ exact E | ]. rewrite H. apply (f_equal Some).
    apply is_nan_eq. vm_compute. reflexivity.
Defined.

End Stored.
